(** * Stockholm bars: the bar-record enrichment pipeline

  A shallow embedding of the Node scripts under [scripts/]:
  - [geocode-bars-from-csv.js] (the Photon variant and the older Mapbox
    variant kept in the same file),
  - [update-bars-from-google-places.js],
  - [categorize-bars-by-mood.js],
  - the CSV export script ([escapeCsv]).

  JavaScript strings are sequences of UTF-16 code units; they are
  modelled as lists of code units ([N]).  Remote services are oracles:
  functions from what the run has done so far and the request to a
  response, so that a service may answer the same request differently
  at different times.  Console output, remote requests, pauses and file
  writes are recorded, in program order, in a trace of events. *)

From Stdlib Require Import ZArith NArith List.
From Stdlib Require Import Floats.SpecFloat.
From stdpp Require Import base option list gmap strings.

Local Open Scope N_scope.

(** ** JavaScript strings *)

Module JS.

Definition char := N.
Abbreviation str := (list N).

(** An ASCII literal as a JavaScript string. *)
Definition lit (s : string) : str :=
  map Ascii.N_of_ascii (String.list_ascii_of_string s).

Definition QUOTE : char := 34.
Definition COMMA : char := 44.
Definition LF : char := 10.
Definition CR : char := 13.
Definition SPACE : char := 32.
Definition BOM : char := 65279.

(** WhiteSpace and LineTerminator code units: what [String.prototype.trim]
    removes and what [\s] matches. *)
Definition isWhiteSpace (c : char) : bool :=
  (c =? 9) || (c =? 10) || (c =? 11) || (c =? 12) || (c =? 13) ||
  (c =? 32) || (c =? 160) || (c =? 5760) ||
  ((8192 <=? c) && (c <=? 8202)) ||
  (c =? 8232) || (c =? 8233) || (c =? 8239) || (c =? 8287) ||
  (c =? 12288) || (c =? 65279).

Fixpoint trimStart (s : str) : str :=
  match s with
  | c :: s' => if isWhiteSpace c then trimStart s' else s
  | [] => []
  end.

Definition trimEnd (s : str) : str := rev (trimStart (rev s)).

(** [s.trim()] *)
Definition trim (s : str) : str := trimEnd (trimStart s).

Definition dropLeadingQuote (s : str) : str :=
  match s with
  | c :: s' => if c =? QUOTE then s' else s
  | [] => []
  end.

Definition dropTrailingQuote (s : str) : str :=
  rev (dropLeadingQuote (rev s)).

(** The replace call with the pattern (start, quote) or (quote, end) and
    the g flag, which every script uses to unquote a cell: a quote at the
    start is removed, and a quote at the end of what is left is removed. *)
Definition stripQuotes (s : str) : str :=
  dropTrailingQuote (dropLeadingQuote s).

(** The replace call that doubles every quote character. *)
Definition doubleQuotes (s : str) : str :=
  flat_map (fun c => if c =? QUOTE then [QUOTE; QUOTE] else [c]) s.

(** [s.includes(c)] for a one-character [c]. *)
Definition includesChar (s : str) (c : char) : bool :=
  existsb (N.eqb c) s.

Fixpoint startsWith (s p : str) : bool :=
  match p, s with
  | [], _ => true
  | _ :: _, [] => false
  | a :: p', b :: s' => (a =? b) && startsWith s' p'
  end.

(** [s.includes(p)] *)
Fixpoint includes (s p : str) : bool :=
  startsWith s p ||
  match s with
  | [] => false
  | _ :: s' => includes s' p
  end.

(** [s.toLowerCase()] on the letters A-Z.  Code units outside ASCII are
    left as they are; none of them lower-cases to an ASCII letter that
    occurs in the words the scripts compare with (yes, null). *)
Definition lowerChar (c : char) : char :=
  if (65 <=? c) && (c <=? 90) then c + 32 else c.

Definition toLowerCase (s : str) : str := map lowerChar s.

Definition eqb (a b : str) : bool := bool_decide (a = b).

(** [/^null$/i.test(s)] *)
Definition isNullWord (s : str) : bool := eqb (toLowerCase s) (lit "null").

(** [s.replace(/\s+/g, space)]: every maximal run of white space becomes
    one space.  [inRun] tells that the previous code unit was white
    space, whose run has already given its space. *)
Fixpoint collapseFrom (inRun : bool) (s : str) : str :=
  match s with
  | [] => []
  | c :: s' =>
      if isWhiteSpace c
      then (if inRun then collapseFrom true s'
            else SPACE :: collapseFrom true s')
      else c :: collapseFrom false s'
  end.

Definition collapseSpaces (s : str) : str := collapseFrom false s.

(** [parts.join(sep)] *)
Fixpoint join (sep : str) (parts : list str) : str :=
  match parts with
  | [] => []
  | [p] => p
  | p :: rest => p ++ sep ++ join sep rest
  end.

(** A property value that is a string or is missing ([null] or
    [undefined]): truthiness and [a || b]. *)
Definition truthy (v : option str) : bool :=
  match v with
  | Some (_ :: _) => true
  | _ => false
  end.

Definition or_ (a b : option str) : option str :=
  if truthy a then a else b.

(** [v || emptyString] *)
Definition orEmpty (v : option str) : str :=
  match v with
  | Some s => s
  | None => []
  end.

(** [s || null] *)
Definition orNull (s : str) : option str :=
  match s with
  | [] => None
  | _ => Some s
  end.

End JS.

(** ** The CSV reader

  [parseCSVLine] and [parseCSV] are the same text in the three scripts
  that read a table. *)

Module Csv.
Import JS.

(** The loop of [parseCSVLine]: [out], [cur] and [inQuotes] are the
    function's variables; the result is their value when the loop ends,
    by reaching the end of the line or by [break]. *)
Fixpoint parseCSVLine_loop (line : str) (out : list str) (cur : str)
    (inQuotes : bool) : list str * str :=
  match line with
  | [] => (out, cur)
  | c :: rest =>
      if c =? QUOTE then parseCSVLine_loop rest out cur (negb inQuotes)
      else if ((c =? COMMA) && negb inQuotes) || ((c =? LF) && negb inQuotes)
      then
        if c =? LF then (out ++ [trim cur], [])
        else parseCSVLine_loop rest (out ++ [trim cur]) [] inQuotes
      else parseCSVLine_loop rest out (cur ++ [c]) inQuotes
  end.

Definition parseCSVLine (line : str) : list str :=
  let '(out, cur) := parseCSVLine_loop line [] [] false in
  match cur with
  | [] => out
  | _ :: _ => out ++ [trim cur]
  end.

(** [text.split(/\r?\n/)]: the pieces between line breaks, a line break
    being a line feed or a carriage return followed by a line feed.
    [cur] is the piece being read. *)
Fixpoint splitLines_from (text : str) (cur : str) : list str :=
  match text with
  | [] => [cur]
  | c :: rest =>
      if c =? LF then cur :: splitLines_from rest []
      else
        match rest with
        | d :: rest' =>
            if (c =? CR) && (d =? LF) then cur :: splitLines_from rest' []
            else splitLines_from rest (cur ++ [c])
        | [] => splitLines_from rest (cur ++ [c])
        end
  end.

Definition splitLines (text : str) : list str := splitLines_from text [].

(** [.filter(Boolean)] on strings: the empty pieces go. *)
Definition nonEmpty (s : str) : bool :=
  match s with [] => false | _ => true end.

(** The one name that is no column: the row is an object literal, and an
    assignment to this name reaches the setter of [Object.prototype],
    which ignores a value that is a string. *)
Definition PROTO : str := lit "__proto__".

(** The row object built by [header.forEach]: [row[h] = values[j] ?? empty],
    a later column of the same name overwriting an earlier one.  The map
    holds the own properties of the row. *)
Fixpoint fillRow (header : list str) (j : nat) (values : list str)
    (row : gmap str str) : gmap str str :=
  match header with
  | [] => row
  | h :: header' =>
      fillRow header' (S j) values
        (if eqb h PROTO then row
         else <[h := default [] (values !! j)]> row)
  end.

(** [parseCSV]: [None] is the TypeError raised by [parseCSVLine(lines[0])]
    when no line is left after the filter. *)
Definition parseCSV (text : str) : option (list (gmap str str)) :=
  match filter (fun l => nonEmpty l = true) (splitLines text) with
  | [] => None
  | first :: lines =>
      let header := parseCSVLine first in
      Some (map (fun l => fillRow header 0 (parseCSVLine l) ∅) lines)
  end.

End Csv.

(** ** Records, numbers and events *)

Module Model.
Import JS.

(** JavaScript numbers are IEEE 754 doubles. *)
Abbreviation number := spec_float.

(** Truthiness of a number that may be [null]: [null], [NaN] and the two
    zeros are falsy. *)
Definition truthyNum (x : option number) : bool :=
  match x with
  | Some (S754_finite _ _ _) | Some (S754_infinity _) => true
  | _ => false
  end.

(** An input row: the properties of the parsed row object that the loops
    read.  A string property is [None] when it is missing or [null].
    [lat] and [lng] hold the number the loop computes first from the
    property ([parseFloat] of its text), [None] when the loop takes
    [null] for it. *)
Record Row := mkRow {
  bar_name : option str;
  name : option str;
  correct_address : option str;
  location : option str;
  address : option str;
  lat : option number;
  lng : option number;
  dance_floor : option str;
  vibes : option (list str)
}.

(** An entry of the written store: the properties of [barEntry] that the
    claims are about.  The remaining ones (id, price, opening_hours,
    dance_floor, dance_notes, last_updated) are copied from the row. *)
Record Entry := mkEntry {
  e_bar_name : str;
  e_location : option str;
  e_lat : option number;
  e_lng : option number;
  e_correct_address : option str;
  e_place_id : option str;
  e_photo_reference : option str;
  e_vibes : option (list str)
}.

(** The input file after [JSON.parse] or [parseCSV]. *)
Inductive Source (R : Type) :=
| Unparsable
| Rows (rows : list R).
Arguments Unparsable {R}.
Arguments Rows {R} rows.

Inductive service :=
| Photon | Mapbox | FindPlace | PlaceDetails | PlaceReviews | OpenAI.

Inductive level := Info | Warning | Error.

(** What a run does to the outside, in program order.  [Fetch] is one
    request to a remote service, recorded with the argument of the
    function that sends it; [Console] is one console line, recorded with
    its fixed leading text (a word in brackets where the line has none)
    and, for a line about one row, the row's index; [WriteFile] is one
    [fs.writeFileSync], recorded with the records it writes. *)
Inductive event (R : Type) :=
| Fetch (s : service) (arg : str)
| Sleep (ms : nat)
| Console (l : level) (text : string) (row : option nat)
| WriteFile (path : str) (records : list R).
Arguments Fetch {R} s arg.
Arguments Sleep {R} ms.
Arguments Console {R} l text row.
Arguments WriteFile {R} path records.

Definition isFetch {R} (e : event R) : bool :=
  match e with Fetch _ _ => true | _ => false end.

Definition isWrite {R} (e : event R) : bool :=
  match e with WriteFile _ _ => true | _ => false end.

(** A line of [console.warn] or [console.error]. *)
Definition isFailureLog {R} (e : event R) : bool :=
  match e with
  | Console Warning _ _ | Console Error _ _ => true
  | _ => false
  end.

(** The outcome of a run: the exit status of the process and what it
    did. *)
Record Result (R : Type) := mkResult {
  exitCode : nat;
  trace : list (event R)
}.
Arguments mkResult {R} exitCode trace.
Arguments exitCode {R} r.
Arguments trace {R} r.

(** [path.toLowerCase().endsWith(suffix)] *)
Definition endsWith (s p : str) : bool := startsWith (rev s) (rev p).

Definition isJsonPath (path : str) : bool :=
  endsWith (toLowerCase path) (lit ".json").

(** [(row.bar_name || row.name || Unknown)] with the quotes at its ends
    removed. *)
Definition barName_of (row : Row) : str :=
  stripQuotes
    (orEmpty (or_ (or_ (bar_name row) (name row)) (Some (lit "Unknown")))).

(** [(row.correct_address || empty).trim()], unquoted, [|| null]. *)
Definition correctAddr_of (row : Row) : option str :=
  orNull (stripQuotes (trim (orEmpty (correct_address row)))).

End Model.

(** ** [scripts/geocode-bars-from-csv.js], Photon variant *)

Module GeocodePhoton.
Import JS Model.

Definition OUT_PATH : str := lit "bars.json".

(** [addressKey(loc)] *)
Definition addressKey (loc : option str) : str :=
  match loc with
  | Some (c :: s) => collapseSpaces (trim (c :: s))
  | _ => []
  end.

(** What the Photon service does with one request. *)
Inductive response :=
| FetchFails                         (* [fetch] or [res.text()] rejects *)
| BadBody                            (* the body is not JSON *)
| NoFeature                          (* no feature with two coordinates *)
| Coordinates (lng lat : number).

(** The service: its answer may depend on all that happened before. *)
Definition Remote := list (event Entry) -> str -> response.

Definition photonQuery (address : str) : str :=
  if includes address (lit "Stockholm") then address
  else address ++ lit ", Stockholm, Sweden".

(** [geocodePhoton(address, logFirst)]: the center found, or [None] for
    [null], and the trace extended. *)
Definition geocodePhoton (remote : Remote) (address : str) (logFirst : bool)
    (t : list (event Entry)) : option (number * number) * list (event Entry) :=
  if negb (Csv.nonEmpty address) || negb (Csv.nonEmpty (trim address))
     || isNullWord address
  then (None, t)
  else
    let t1 := t ++ [Fetch Photon address] in
    let logged (t : list (event Entry)) :=
      if logFirst then t ++ [Console Info "Photon:" None] else t in
    let failed (t : list (event Entry)) :=
      if logFirst then t ++ [Console Error "Geocode error:" None] else t in
    match remote t (photonQuery address) with
    | FetchFails => (None, failed t1)
    | BadBody => (None, failed (logged t1))
    | NoFeature => (None, logged t1)
    | Coordinates x y => (Some (x, y), logged t1)
    end.

(** Line 113: the address the row is geocoded with. *)
Definition location_of (row : Row) : str :=
  stripQuotes
    (trim (orEmpty (or_ (or_ (correct_address row) (location row))
                        (address row)))).

(** Line 118: the guard of the lookup. *)
Definition geocodable (loc : str) : bool :=
  Csv.nonEmpty loc && (2 <? length loc)%nat && negb (isNullWord loc).

(** Lines 135-136 *)
Definition outAddress_of (row : Row) : option str :=
  or_ (correctAddr_of row)
      (orNull (stripQuotes (trim (orEmpty (or_ (location row) (address row)))))).

(** The variables that live across the iterations of the loop. *)
Record state := mkState {
  coordCache : gmap str (number * number);   (* key to (lng, lat) *)
  bars : list Entry;
  events : list (event Entry)
}.

(** Lines 118-128: the lookup through the cache.  The result is the
    cache, the trace and the coordinates of the row after it. *)
Definition lookup_row (remote : Remote) (row : Row)
    (cache : gmap str (number * number)) (t : list (event Entry))
    : gmap str (number * number) * list (event Entry)
      * option number * option number :=
  let loc := location_of row in
  if geocodable loc then
    let key := addressKey (Some loc) in
    let '(cache1, t1) :=
      match cache !! key with
      | Some _ => (cache, t)
      | None =>
          let logFirst := (size cache =? 0)%nat in
          let '(center, t') := geocodePhoton remote loc logFirst t in
          let cache' :=
            match center with
            | Some c => <[key := c]> cache
            | None => cache
            end in
          (cache', t' ++ [Sleep 250])
      end in
    match cache1 !! key with
    | Some (clng, clat) => (cache1, t1, Some clat, Some clng)
    | None => (cache1, t1, lat row, lng row)
    end
  else (cache, t, lat row, lng row).

(** One iteration of the loop, for the row of index [i]. *)
Definition step (remote : Remote) (st : state) (i : nat) (row : Row)
    : state :=
  let '(cache, t, la, ln) :=
    lookup_row remote row (coordCache st) (events st) in
  let barEntry :=
    {| e_bar_name := barName_of row;
       e_location := outAddress_of row;
       e_lat := la;
       e_lng := ln;
       e_correct_address := correctAddr_of row;
       e_place_id := None;
       e_photo_reference := None;
       e_vibes := None |} in
  {| coordCache := cache;
     bars := bars st ++ [barEntry];
     events := if ((i + 1) mod 15 =? 0)%nat
               then t ++ [Console Info "Processed" (Some i)] else t |}.

Fixpoint loop (remote : Remote) (st : state) (i : nat) (rows : list Row)
    : state :=
  match rows with
  | [] => st
  | row :: rows' => loop remote (step remote st i row) (S i) rows'
  end.

(** What the script is started with. *)
Record World := mkWorld {
  INPUT_PATH : str;
  input : option (Source Row);      (* [None]: no file at [INPUT_PATH] *)
  remote : Remote
}.

(** The state the loop starts in, after the two lines printed first. *)
Definition initial (text : string) : state :=
  {| coordCache := ∅; bars := [];
     events := [Console Info text None;
                Console Info "Geocoding with Photon (Komoot)..." None] |}.

(** From the rows read to the end of [main]; an exception of the reader
    reaches the handler of [main().catch]. *)
Definition run (w : World) (text : string) (src : Source Row)
    : Result Entry :=
  match src with
  | Unparsable => mkResult 1 [Console Error "(uncaught exception)" None]
  | Rows rows =>
      let st := loop (remote w) (initial text) 0 rows in
      mkResult 0
        (events st ++ [WriteFile OUT_PATH (bars st);
                       Console Info "Wrote" None;
                       Console Info "Bars with coordinates:" None])
  end.

Definition main (w : World) : Result Entry :=
  let isJson := isJsonPath (INPUT_PATH w) in
  let existsSync := bool_decide (is_Some (input w)) in
  let src := default Unparsable (input w) in
  if isJson && existsSync then run w "Rows from JSON:" src
  else if negb isJson && existsSync then run w "Rows from CSV:" src
  else mkResult 1 [Console Error "Input not found:" None].

End GeocodePhoton.

(** ** [scripts/geocode-bars-from-csv.js], Mapbox variant *)

Module GeocodeMapbox.
Import JS Model.

Definition OUT_PATH : str := lit "bars.json".

Inductive response :=
| Throws                             (* [fetch] or [res.json()] rejects *)
| NoFeature
| Center (lng lat : number).

Definition Remote := list (event Entry) -> str -> response.

Definition mapboxQuery (address : str) : str :=
  if includes address (lit "Stockholm") then address
  else address ++ lit ", Stockholm, Sweden".

(** [geocode(address, token)] *)
Definition geocode (remote : Remote) (address token : str)
    (t : list (event Entry)) : option (number * number) * list (event Entry) :=
  if negb (Csv.nonEmpty address) || negb (Csv.nonEmpty token)
     || eqb address (lit "null")
  then (None, t)
  else
    let t1 := t ++ [Fetch Mapbox address] in
    match remote t (mapboxQuery address) with
    | Center x y => (Some (x, y), t1)
    | NoFeature | Throws => (None, t1)
    end.

(** The coordinate the script treats as a placeholder, 59.31667 and
    18.06745 as doubles. *)
Definition PLACEHOLDER_LAT : number := S754_finite false 8348079153401834 (-47).
Definition PLACEHOLDER_LNG : number := S754_finite false 5085535067970942 (-48).

(** [x === y] with [x] possibly [null] and [y] a number. *)
Definition strictEq (x : option number) (y : number) : bool :=
  match x with
  | Some v => SFeqb v y
  | None => false
  end.

Definition isPlaceholder (la ln : option number) : bool :=
  strictEq la PLACEHOLDER_LAT && strictEq ln PLACEHOLDER_LNG.

(** Line 261: the guard of the lookup. *)
Definition needsGeocoding (loc : str) (la ln : option number) : bool :=
  Csv.nonEmpty loc &&
  (negb (truthyNum la) || negb (truthyNum ln) || isPlaceholder la ln).

Record state := mkState {
  bars : list Entry;
  events : list (event Entry)
}.

Definition step (remote : Remote) (token : str) (st : state) (i : nat)
    (row : Row) : state :=
  let loc := stripQuotes (trim (orEmpty (location row))) in
  let '(t, la, ln) :=
    if needsGeocoding loc (lat row) (lng row) then
      let '(center, t') := geocode remote loc token (events st) in
      match center with
      | Some (x, y) => (t' ++ [Sleep 120], Some y, Some x)
      | None => (t' ++ [Sleep 120], lat row, lng row)
      end
    else (events st, lat row, lng row) in
  let barEntry :=
    {| e_bar_name := barName_of row;
       e_location := orNull loc;
       e_lat := la;
       e_lng := ln;
       e_correct_address := None;
       e_place_id := None;
       e_photo_reference := None;
       e_vibes := None |} in
  {| bars := bars st ++ [barEntry];
     events := if ((i + 1) mod 10 =? 0)%nat
               then t ++ [Console Info "Geocoded" (Some i)] else t |}.

Fixpoint loop (remote : Remote) (token : str) (st : state) (i : nat)
    (rows : list Row) : state :=
  match rows with
  | [] => st
  | row :: rows' => loop remote token (step remote token st i row) (S i) rows'
  end.

Record World := mkWorld {
  token : str;                      (* what [getToken()] returns *)
  input : option (Source Row);      (* [None]: no file at [CSV_PATH] *)
  remote : Remote
}.

Definition main (w : World) : Result Entry :=
  if negb (Csv.nonEmpty (token w))
  then mkResult 1 [Console Error "No MAPBOX_TOKEN in env-config.js or .env" None]
  else
    match input w with
    | None => mkResult 1 [Console Error "CSV not found:" None]
    | Some Unparsable => mkResult 1 [Console Error "(uncaught exception)" None]
    | Some (Rows rows) =>
        let st := loop (remote w) (token w)
                    {| bars := []; events := [Console Info "Rows from CSV:" None] |}
                    0 rows in
        mkResult 0
          (events st ++ [WriteFile OUT_PATH (bars st);
                         Console Info "Wrote" None;
                         Console Info "Bars with coordinates:" None])
    end.

End GeocodeMapbox.

(** ** [scripts/update-bars-from-google-places.js] *)

Module Places.
Import JS Model.

Definition OUT_JSON : str := lit "bars.json".
Definition OUT_CSV : str := lit "bars-info-updated.csv".

(** Insertion into a JavaScript [Set]: [new Set(xs)] spread back into an
    array keeps the first occurrence of each element, in order. *)
Definition setAdd (seen : list str) (x : str) : list str :=
  if bool_decide (x ∈ seen) then seen else seen ++ [x].

Definition newSet (xs : list str) : list str := fold_left setAdd xs [].

(** 4.2 as a double. *)
Definition RATING_THRESHOLD : number := S754_finite false 4728779608739021 (-50).

(** [rating != null && rating >= 4.2] *)
Definition highRating (rating : option number) : bool :=
  match rating with
  | Some r => SFleb RATING_THRESHOLD r
  | None => false
  end.

(** [String(row.dance_floor || empty).toLowerCase() === yes] *)
Definition danceIsYes (row : Row) : bool :=
  eqb (toLowerCase (orEmpty (dance_floor row))) (lit "yes").

Definition deriveVibes (row : Row) (rating : option number) : list str :=
  let vibes := [] in
  let vibes :=
    if danceIsYes row then vibes ++ [lit "party"; lit "girls-night"]
    else vibes in
  let vibes :=
    if highRating rating then vibes ++ [lit "dating"; lit "chill"]
    else vibes in
  let vibes :=
    if (length vibes =? 0)%nat then vibes ++ [lit "chill"] else vibes in
  newSet vibes.

(** The candidate [findPlaceFromText] returns. *)
Record Place := mkPlace {
  formatted_address : option str;
  p_lat : option number;
  p_lng : option number;
  p_place_id : option str
}.

Inductive findResponse :=
| FindThrows (invalidKey : bool)     (* an error status, or a failed fetch *)
| FindNothing                        (* ZERO_RESULTS, or no candidate *)
| Found (p : Place).

Inductive detailsResponse :=
| DetailsThrows
| DetailsNotOk
| Details (photo : option str) (rating : option number).

Record Remote := mkRemote {
  findPlaceFromText : list (event Entry) -> str -> findResponse;
  getPlaceDetails : list (event Entry) -> str -> detailsResponse
}.

(** The query of line 187; 246 is the o with diaeresis. *)
Definition query_of (barName : str) : str :=
  barName ++ lit ", S" ++ [246] ++ lit "dermalm, Stockholm".

(** Lines 201-202 *)
Definition outAddress_of (row : Row) : option str :=
  or_ (correctAddr_of row)
      (orNull (stripQuotes (trim (orEmpty (or_ (address row) (location row)))))).

(** Line 211 *)
Definition finalAddress_of (place : option Place) (row : Row) : option str :=
  orNull (trim (orEmpty
    (or_ (or_ (place ≫= formatted_address) (correctAddr_of row))
         (outAddress_of row)))).

Record state := mkState {
  bars : list Entry;
  updated : nat;
  failed : nat;
  invalidKeyReported : bool;
  events : list (event Entry)
}.

(** Lines 188-199: the lookup of the place inside [try]/[catch]. *)
Definition findPlace (remote : Remote) (st : state) (i : nat) (barName : str)
    : option Place * nat * bool * list (event Entry) :=
  let t := events st ++ [Fetch FindPlace (query_of barName)] in
  match findPlaceFromText remote (events st) (query_of barName) with
  | Found p => (Some p, failed st, invalidKeyReported st, t ++ [Sleep 350])
  | FindNothing => (None, failed st, invalidKeyReported st, t ++ [Sleep 350])
  | FindThrows invalidKey =>
      let report := invalidKey && negb (invalidKeyReported st) in
      let t := if report
               then t ++ [Console Error "Google Places API key is invalid or Places API is not enabled. Check Google Cloud Console." None]
               else t in
      (None, S (failed st), invalidKeyReported st || report,
       t ++ [Console Error "(lookup error)" (Some i)])
  end.

(** Lines 213-224: the optional details, errors swallowed. *)
Definition fetchDetails (remote : Remote) (place : option Place)
    (t : list (event Entry))
    : option str * option number * list (event Entry) :=
  match place ≫= p_place_id with
  | Some (c :: s) =>
      let t1 := t ++ [Fetch PlaceDetails (c :: s)] in
      match getPlaceDetails remote t (c :: s) with
      | Details photo rating =>
          (or_ photo None, rating, t1 ++ [Sleep 200])
      | DetailsNotOk => (None, None, t1 ++ [Sleep 200])
      | DetailsThrows => (None, None, t1)
      end
  | _ => (None, None, t)
  end.

Definition step (remote : Remote) (st : state) (i : nat) (row : Row)
    : state :=
  let barName := barName_of row in
  let '(place, failed', reported', t) := findPlace remote st i barName in
  let correctAddr := correctAddr_of row in
  let outAddress := outAddress_of row in
  let fa := place ≫= formatted_address in
  let usePlace :=
    truthy fa && bool_decide (is_Some (place ≫= p_lat))
              && bool_decide (is_Some (place ≫= p_lng)) in
  let la := if usePlace then place ≫= p_lat else lat row in
  let ln := if usePlace then place ≫= p_lng else lng row in
  let updated' :=
    if usePlace && (negb (truthy correctAddr) || negb (bool_decide (correctAddr = fa)))
    then S (updated st) else updated st in
  let finalAddress := finalAddress_of place row in
  let '(photo_reference, placeRating, t) := fetchDetails remote place t in
  let barEntry :=
    {| e_bar_name := barName;
       e_location := or_ finalAddress outAddress;
       e_lat := la;
       e_lng := ln;
       e_correct_address := if truthy fa then fa else None;
       e_place_id := or_ (place ≫= p_place_id) None;
       e_photo_reference := photo_reference;
       e_vibes := Some (deriveVibes row placeRating) |} in
  {| bars := bars st ++ [barEntry];
     updated := updated';
     failed := failed';
     invalidKeyReported := reported';
     events := if ((i + 1) mod 20 =? 0)%nat
               then t ++ [Console Info "Processed" (Some i)] else t |}.

Fixpoint loop (remote : Remote) (st : state) (i : nat) (rows : list Row)
    : state :=
  match rows with
  | [] => st
  | row :: rows' => loop remote (step remote st i row) (S i) rows'
  end.

Record World := mkWorld {
  apiKey : str;                     (* what [getApiKey()] returns *)
  INPUT_PATH : str;
  input : option (Source Row);      (* [None]: no file at [INPUT_PATH] *)
  remote : Remote
}.

Definition initial (text : string) : state :=
  {| bars := []; updated := 0; failed := 0; invalidKeyReported := false;
     events := [Console Info text None;
                Console Info "Looking up bars with Google Places API" None] |}.

Definition run (w : World) (text : string) (src : Source Row)
    : Result Entry :=
  match src with
  | Unparsable => mkResult 1 [Console Error "(uncaught exception)" None]
  | Rows rows =>
      let st := loop (remote w) (initial text) 0 rows in
      mkResult 0
        (events st ++ [WriteFile OUT_JSON (bars st);
                       Console Info "Wrote" None;
                       Console Info "Bars with coordinates:" None;
                       WriteFile OUT_CSV (bars st);
                       Console Info "Wrote" None])
  end.

Definition main (w : World) : Result Entry :=
  if negb (Csv.nonEmpty (apiKey w))
  then mkResult 1 [Console Error "Set GOOGLE_PLACES_API_KEY in .env or environment." None]
  else
    let isJson := isJsonPath (INPUT_PATH w) in
    let existsSync := bool_decide (is_Some (input w)) in
    let src := default Unparsable (input w) in
    if isJson && existsSync then run w "Rows from JSON:" src
    else if negb isJson && existsSync then run w "Rows from CSV:" src
    else mkResult 1 [Console Error "Input not found:" None].

(** The [escape] of line 264, on the text [String(v)] of a cell, [None]
    for [null] or [undefined]; the result is the text the cell has in
    the joined line. *)
Definition escape (v : option str) : str :=
  match v with
  | None => []
  | Some s =>
      if includesChar s COMMA || includesChar s QUOTE
      then [QUOTE] ++ doubleQuotes s ++ [QUOTE]
      else s
  end.

Definition csvHeader : str :=
  lit "id,bar_name,address,correct_address,lat,lng,price,opening_hours,dance_floor,dance_notes,last_updated".

(** The text written to [OUT_CSV], from the cells of each record. *)
Definition csvText (rows : list (list (option str))) : str :=
  join [LF] (csvHeader :: map (fun r => join [COMMA] (map escape r)) rows).

End Places.

(** ** [scripts/categorize-bars-by-mood.js] *)

Module Moods.
Import JS Model.

Definition MOODS : list str :=
  [lit "first_date"; lit "third_date"; lit "chill_date"; lit "party_night";
   lit "chill_hangout"; lit "group_friends"; lit "cheap_night_out"].

(** A value as [JSON.parse] gives it. *)
Inductive json :=
| JNull
| JBool (b : bool)
| JNumber (x : number)
| JText (s : str)
| JArray (items : list json)
| JObject (members : list (str * json)).

(** Truthiness: [null], [false], the zeros and the empty string are
    falsy; an array and an object are truthy, also when empty. *)
Definition truthyJson (v : json) : bool :=
  match v with
  | JNull => false
  | JBool b => b
  | JNumber x => truthyNum (Some x)
  | JText s => Csv.nonEmpty s
  | JArray _ | JObject _ => true
  end.

(** An array of strings. *)
Definition labels (m : list str) : json := JArray (map JText m).

(** A bar object of the store, as this script reads and changes it: the
    other properties stay as they are.  [moods] is [None] when the
    property is missing; the store is read with [JSON.parse], so the
    property may hold any value. *)
Record Bar := mkBar {
  bar_name : option str;
  place_id : option str;
  moods : option json
}.

(** An element of the array the model replied with. *)
Inductive jsonValue :=
| JString (s : str)
| JOther.                            (* a number, null, an object, ... *)

Inductive reviewsResponse :=
| ReviewsThrow
| ReviewsNotOk
| Reviews (texts : list str).

Inductive aiResponse :=
| AiError                            (* [!res.ok], or a failed fetch *)
| AiReply (array : option (list jsonValue)).
                                     (* [None]: no array found in the reply *)

Record Remote := mkRemote {
  getPlaceDetailsWithReviews : list (event Bar) -> str -> reviewsResponse;
  openai : list (event Bar) -> Bar -> list str -> aiResponse
}.

(** [MOODS.includes(m)] *)
Definition isMood (m : jsonValue) : bool :=
  match m with
  | JString s => bool_decide (s ∈ MOODS)
  | JOther => false
  end.

Definition label (m : jsonValue) : str :=
  match m with
  | JString s => s
  | JOther => []
  end.

(** Lines 119-129 of [classifyBarWithOpenAI]: from the reply to the
    moods returned. *)
Definition validMoods (array : option (list jsonValue)) : list str :=
  match array with
  | None => []
  | Some arr => map label (filter (fun m => isMood m = true) arr)
  end.

(** [classifyBarWithOpenAI]: [None] when it throws. *)
Definition classifyBarWithOpenAI (r : aiResponse) : option (list str) :=
  match r with
  | AiError => None
  | AiReply array => Some (validMoods array)
  end.

Definition setMoods (bar : Bar) (v : json) : Bar :=
  {| bar_name := bar_name bar; place_id := place_id bar; moods := Some v |}.

(** [bar.moods || []] *)
Definition priorMoods (bar : Bar) : json :=
  match moods bar with
  | Some v => if truthyJson v then v else JArray []
  | None => JArray []
  end.

Record state := mkState {
  list_ : list Bar;                  (* the bars already gone through *)
  done : nat;
  failed : nat;
  events : list (event Bar)
}.

(** Lines 161-172: the review texts, errors caught. *)
Definition fetchReviews (remote : Remote) (bar : Bar) (i : nat)
    (t : list (event Bar)) : list str * list (event Bar) :=
  match place_id bar with
  | Some (c :: s) =>
      let t1 := t ++ [Fetch PlaceReviews (c :: s)] in
      match getPlaceDetailsWithReviews remote t (c :: s) with
      | Reviews texts => (texts, t1 ++ [Sleep 350])
      | ReviewsNotOk => ([], t1 ++ [Sleep 350])
      | ReviewsThrow => ([], t1 ++ [Console Warning "Places error" (Some i)])
      end
  | _ => ([], t)
  end.

Definition step (remote : Remote) (st : state) (i : nat) (bar : Bar)
    : state :=
  let '(reviews, t) := fetchReviews remote bar i (events st) in
  let t1 := t ++ [Fetch OpenAI (orEmpty (bar_name bar))] in
  let '(bar', done', failed', t2) :=
    match classifyBarWithOpenAI (openai remote t bar reviews) with
    | Some m =>
        (setMoods bar (if (0 <? length m)%nat then labels m else priorMoods bar),
         S (done st), failed st, t1 ++ [Sleep 300])
    | None =>
        (setMoods bar (priorMoods bar), done st, S (failed st),
         t1 ++ [Console Warning "OpenAI error" (Some i)])
    end in
  {| list_ := list_ st ++ [bar'];
     done := done';
     failed := failed';
     events := if ((i + 1) mod 10 =? 0)%nat
               then t2 ++ [Console Info "Processed" (Some i)] else t2 |}.

Fixpoint loop (remote : Remote) (st : state) (i : nat) (bars : list Bar)
    : state :=
  match bars with
  | [] => st
  | bar :: bars' => loop remote (step remote st i bar) (S i) bars'
  end.

Record World := mkWorld {
  googleKey : str;                  (* [getEnvKey] of GOOGLE_PLACES_API_KEY *)
  openaiKey : str;                  (* [getEnvKey] of OPENAI_API_KEY *)
  BARS_PATH : str;
  input : option (Source Bar);      (* [None]: no file at [BARS_PATH] *)
  remote : Remote
}.

Definition main (w : World) : Result Bar :=
  if negb (Csv.nonEmpty (googleKey w))
  then mkResult 1 [Console Error "Set GOOGLE_PLACES_API_KEY in .env (for Place reviews)." None]
  else if negb (Csv.nonEmpty (openaiKey w))
  then mkResult 1 [Console Error "Set OPENAI_API_KEY in .env (for LLM classification)." None]
  else
    match input w with
    | None => mkResult 1 [Console Error "Bars file not found:" None]
    | Some Unparsable => mkResult 1 [Console Error "(uncaught exception)" None]
    | Some (Rows bars) =>
        let st := loop (remote w)
                    {| list_ := []; done := 0; failed := 0;
                       events := [Console Info "Bars to categorize:" None] |}
                    0 bars in
        mkResult 0
          (events st ++ [WriteFile (BARS_PATH w) (list_ st);
                         Console Info "Wrote" None;
                         Console Info "Done. Categorized:" None])
    end.

End Moods.

(** ** The CSV export script ([escapeCsv]) *)

Module ExportCsv.
Import JS.

Definition OUT_CSV : str := lit "bars-info.csv".

(** [escapeCsv(val)], on the text [String(val)] of the value, [None] for
    [null] or [undefined]. *)
Definition escapeCsv (val : option str) : str :=
  match val with
  | None => []
  | Some v =>
      let s := trim v in
      if includesChar s COMMA || includesChar s QUOTE
         || includesChar s LF || includesChar s CR
      then [QUOTE] ++ doubleQuotes s ++ [QUOTE]
      else s
  end.

(** The properties of a bar the export reads, as the texts [String]
    gives; [opening_hours] is the text the script passes for it. *)
Record Bar := mkBar {
  id : option str;
  bar_name : option str;
  location : option str;
  address : option str;
  correct_address : option str;
  lat : option str;
  lng : option str;
  price : option str;
  opening_hours : option str;
  dance_floor : option str;
  dance_notes : option str;
  last_updated : option str
}.

Definition header : list str :=
  [lit "id"; lit "bar_name"; lit "address"; lit "correct_address";
   lit "lat"; lit "lng"; lit "price"; lit "opening_hours";
   lit "dance_floor"; lit "dance_notes"; lit "last_updated"].

Definition row_of (b : Bar) : list str :=
  [escapeCsv (id b);
   escapeCsv (bar_name b);
   escapeCsv (or_ (location b) (address b));
   escapeCsv (Some (orEmpty (correct_address b)));
   escapeCsv (lat b);
   escapeCsv (lng b);
   escapeCsv (price b);
   escapeCsv (opening_hours b);
   escapeCsv (dance_floor b);
   escapeCsv (dance_notes b);
   escapeCsv (last_updated b)].

Definition csv (bars : list Bar) : str :=
  join [LF] (join [COMMA] header :: map (fun b => join [COMMA] (row_of b)) bars).

(** The text given to [fs.writeFileSync] for [OUT_CSV]. *)
Definition exportText (bars : list Bar) : str := BOM :: csv bars.

End ExportCsv.

(** ** Vocabulary of the statements *)

Module CsvSpec.
Import JS Csv.

(** A field as it is written in a line: its content, in quotes or not. *)
Record field := mkField {
  quoted : bool;
  content : str
}.

Definition render (f : field) : str :=
  if quoted f then [QUOTE] ++ content f ++ [QUOTE] else content f.

(** The content holds no quote character, and outside quotes neither a
    comma nor a line feed. *)
Definition wellFormed (f : field) : bool :=
  negb (includesChar (content f) QUOTE) &&
  (quoted f ||
   (negb (includesChar (content f) COMMA) && negb (includesChar (content f) LF))).

Definition line_of (fs : list field) : str := join [COMMA] (map render fs).

(** The values [parseCSVLine] gives for the line: each content trimmed,
    the last field left out when its content is empty. *)
Fixpoint values_of (fs : list field) : list str :=
  match fs with
  | [] => []
  | [f] => match content f with [] => [] | _ :: _ => [trim (content f)] end
  | f :: rest => trim (content f) :: values_of rest
  end.

End CsvSpec.

Module ExportSpec.
Import JS.

(** The value of the scenario: O'Learys, Best in quotes, bar. *)
Definition scenarioValue : str :=
  lit "O'Learys, " ++ [QUOTE] ++ lit "Best" ++ [QUOTE] ++ lit " bar".

(** What the scenario expects: the value in quotes, the quotes around Best
    doubled. *)
Definition scenarioCell : str :=
  [QUOTE] ++ lit "O'Learys, " ++ [QUOTE; QUOTE] ++ lit "Best" ++ [QUOTE; QUOTE]
  ++ lit " bar" ++ [QUOTE].

(** Reading doubled quotes back: two quotes in a row stand for one. *)
Fixpoint undouble (s : str) : str :=
  match s with
  | a :: ((b :: s') as rest) =>
      if (a =? QUOTE) && (b =? QUOTE) then QUOTE :: undouble s'
      else a :: undouble rest
  | _ => s
  end.

End ExportSpec.

Module VibesSpec.
Import JS Model.

(** The rule table of the tag deriver. *)
Definition ruleTable (dance high : bool) : list str :=
  match dance, high with
  | true, true => [lit "party"; lit "girls-night"; lit "dating"; lit "chill"]
  | true, false => [lit "party"; lit "girls-night"]
  | false, true => [lit "dating"; lit "chill"]
  | false, false => [lit "chill"]
  end.

(** The first rule as the specification words it: [dance_floor] equal to
    yes. *)
Definition danceEqualsYes (row : Row) : bool :=
  eqb (orEmpty (dance_floor row)) (lit "yes").

Definition deriveTags_spec (row : Row) (rating : option number) : list str :=
  ruleTable (danceEqualsYes row) (Places.highRating rating).

(** The row with its [vibes] replaced, as a later run reads it. *)
Definition withVibes (row : Row) (v : option (list str)) : Row :=
  {| bar_name := bar_name row; name := name row;
     correct_address := correct_address row; location := location row;
     address := address row; lat := lat row; lng := lng row;
     dance_floor := dance_floor row; vibes := v |}.

Definition barWithDance (d : str) : Row :=
  {| bar_name := Some (lit "Kvarnen"); name := None; correct_address := None;
     location := None; address := None; lat := None; lng := None;
     dance_floor := Some d; vibes := None |}.

End VibesSpec.

Module ResolverSpec.
Import JS Model GeocodePhoton.

(** The address resolver of the geocoding script: the address a remote
    lookup is made for, [None] when the guard of the loop (line 118) or the
    guard of [geocodePhoton] (line 74) stops the lookup. *)
Definition resolve (row : Row) : option str :=
  let loc := location_of row in
  if geocodable loc
     && negb (negb (Csv.nonEmpty loc) || negb (Csv.nonEmpty (trim loc))
              || isNullWord loc)
  then Some loc else None.

(** The addresses of the requests to Photon in a trace, in order. *)
Definition requests (t : list (event Entry)) : list str :=
  omap (fun e => match e with Fetch Photon a => Some a | _ => None end) t.

Definition rowOf (correct loc addr : option str) : Row :=
  {| bar_name := Some (lit "Kvarnen"); name := None;
     correct_address := correct; location := loc; address := addr;
     lat := None; lng := None; dance_floor := None; vibes := None |}.

(** The row of the scenario: a and o with diaeresis are 228 and 246. *)
Definition kvarnen : Row :=
  rowOf (Some (lit "Tj" ++ [228] ++ lit "rhovsgatan 4, S" ++ [246]
               ++ lit "dermalm, Stockholm"))
        None (Some (lit "Hornsgatan 66")).

End ResolverSpec.

Module MemoSpec.
Import JS Model GeocodePhoton ResolverSpec.

Definition found (r : response) : bool :=
  match r with
  | Coordinates _ _ => true
  | _ => false
  end.

(** The lookups of a trace: for each request to Photon, in order, the
    normalized address it is for and whether the service answered it with
    coordinates.  [before] is the trace up to the request, which is what
    the service has seen. *)
Fixpoint lookups (remote : Remote) (before t : list (event Entry))
    : list (str * bool) :=
  match t with
  | [] => []
  | e :: t' =>
      match e with
      | Fetch Photon a =>
          [(addressKey (Some a), found (remote before (photonQuery a)))]
      | _ => []
      end ++ lookups remote (before ++ [e]) t'
  end.

(** The claim as stated: no normalized address is requested twice. *)
Definition oneRequestPerAddress (l : list (str * bool)) : Prop :=
  NoDup (l.*1).

(** After a lookup that found coordinates, no later lookup is for the same
    normalized address. *)
Fixpoint settled (l : list (str * bool)) : Prop :=
  match l with
  | [] => True
  | (k, ok) :: l' => (ok = true -> k ∉ l'.*1) /\ settled l'
  end.

Definition rowAt (loc : str) (la ln : option number) : Row :=
  {| bar_name := Some (lit "Kvarnen"); name := None; correct_address := None;
     location := Some loc; address := None; lat := la; lng := ln;
     dance_floor := None; vibes := None |}.

(** A service that finds nothing, and one that finds the same point for
    every query. *)
Definition nothingFound : Remote := fun _ _ => NoFeature.
Definition alwaysAt (x y : number) : Remote := fun _ _ => Coordinates x y.

Definition worldOf (remote : Remote) (rows : list Row) : World :=
  {| INPUT_PATH := lit "bars-info.csv"; input := Some (Rows rows);
     remote := remote |}.

(** What one pass through the cache adds to the lookups, and what it does
    to the cache. *)
Definition newLookup (remote : Remote) (row : Row)
    (cache : gmap str (number * number)) (t : list (event Entry))
    : option (str * response) :=
  match resolve row with
  | Some loc =>
      match cache !! addressKey (Some loc) with
      | None => Some (addressKey (Some loc), remote t (photonQuery loc))
      | Some _ => None
      end
  | None => None
  end.

(** The invariant of the loop: the lookups so far are settled, and every
    normalized address that was found is in the cache. *)
Definition memoInv (remote : Remote) (st : state) : Prop :=
  settled (lookups remote [] (events st)) /\
  forall k, (k, true) ∈ lookups remote [] (events st) ->
            is_Some (coordCache st !! k).

(** The state of a run when the loop starts, and when it has gone
    through the rows [pre]. *)
Definition startOf (w : World) : state :=
  initial (if isJsonPath (INPUT_PATH w)
           then "Rows from JSON:" else "Rows from CSV:").

Definition stateAfter (w : World) (pre : list Row) : state :=
  loop (remote w) (startOf w) 0 pre.

(** In the run of [w], a lookup for the normalized address [k] has found
    coordinates by the time the rows [pre] are gone through. *)
Definition foundBefore (w : World) (pre : list Row) (k : str) : bool :=
  bool_decide ((k, true) ∈ lookups (remote w) [] (events (stateAfter w pre))).

End MemoSpec.

Module RunSpec.
Import JS Model.

(** The coordinates of the entry added last. *)
Definition coordsOf (l : list Entry) : option (option number * option number) :=
  (fun e => (e_lat e, e_lng e)) <$> last l.

(** The files written in a trace, in order. *)
Definition written {R} (t : list (event R)) : list (str * list R) :=
  omap (fun e => match e with WriteFile p r => Some (p, r) | _ => None end) t.

(** A run that stops on a missing precondition: the exit status is 1,
    and the trace holds no request and no write. *)
Definition abortsEarly {R} (r : Result R) : Prop :=
  exitCode r = 1%nat /\
  Forall (fun e => isFetch e = false /\ isWrite e = false) (trace r).

(** A row holds resolved coordinates: both are there and truthy, and they
    are not the placeholder. *)
Definition resolved (row : Row) : bool :=
  truthyNum (lat row) && truthyNum (lng row)
  && negb (GeocodeMapbox.isPlaceholder (lat row) (lng row)).

(** A lookup gave a place. *)
Definition centerFound (r : GeocodeMapbox.response) : bool :=
  match r with GeocodeMapbox.Center _ _ => true | _ => false end.

(** A place lookup gave a place the loop takes coordinates from: it has a
    formatted address and both coordinates (line 206). *)
Definition placeUsable (r : Places.findResponse) : bool :=
  match r with
  | Places.Found p =>
      truthy (Places.formatted_address p)
      && bool_decide (is_Some (Places.p_lat p))
      && bool_decide (is_Some (Places.p_lng p))
  | _ => false
  end.

(** The coordinates in the files written by a run. *)
Definition writtenCoords (r : Result Entry)
    : list (str * list (option number * option number)) :=
  map (fun pr => (pr.1, map (fun e => (e_lat e, e_lng e)) pr.2))
      (written (trace r)).

(** 59.3 and 18.0 as doubles. *)
Definition LAT_59_3 : number := S754_finite false 8345733059470950 (-47).
Definition LNG_18_0 : number := S754_finite false 5066549580791808 (-48).

Definition aBar (placeId : option str) (m : option (list str)) : Moods.Bar :=
  {| Moods.bar_name := Some (lit "Kvarnen"); Moods.place_id := placeId;
     Moods.moods := Moods.labels <$> m |}.




(** A model that replies with a label outside the vocabulary, a model whose
    every request fails, and a places service to go with them. *)
Definition repliesRomantic : Moods.Remote :=
  {| Moods.getPlaceDetailsWithReviews := fun _ _ => Moods.ReviewsNotOk;
     Moods.openai := fun _ _ _ => Moods.AiReply (Some [Moods.JString (lit "romantic")]) |}.

Definition allFails : Moods.Remote :=
  {| Moods.getPlaceDetailsWithReviews := fun _ _ => Moods.ReviewsThrow;
     Moods.openai := fun _ _ _ => Moods.AiError |}.

Definition moodsWorld (remote : Moods.Remote) (bars : list Moods.Bar)
    : Moods.World :=
  {| Moods.googleKey := lit "g-key"; Moods.openaiKey := lit "o-key";
     Moods.BARS_PATH := lit "bars.json"; Moods.input := Some (Rows bars);
     Moods.remote := remote |}.

(** A places service whose every request fails. *)
Definition placesDown : Places.Remote :=
  {| Places.findPlaceFromText := fun _ _ => Places.FindThrows false;
     Places.getPlaceDetails := fun _ _ => Places.DetailsThrows |}.

Definition placesWorld (key : str) (input : option (Source Row))
    : Places.World :=
  {| Places.apiKey := key; Places.INPUT_PATH := lit "bars-info.csv";
     Places.input := input; Places.remote := placesDown |}.

(** A places service that finds, for every query, a place at the city
    centre placeholder. *)
Definition centrePlace : Places.Place :=
  {| Places.formatted_address := Some (lit "Stockholm, Sweden");
     Places.p_lat := Some GeocodeMapbox.PLACEHOLDER_LAT;
     Places.p_lng := Some GeocodeMapbox.PLACEHOLDER_LNG;
     Places.p_place_id := None |}.

Definition placesFindsCentre : Places.Remote :=
  {| Places.findPlaceFromText := fun _ _ => Places.Found centrePlace;
     Places.getPlaceDetails := fun _ _ => Places.DetailsThrows |}.

Definition mapboxFindsNothing : GeocodeMapbox.Remote :=
  fun _ _ => GeocodeMapbox.NoFeature.

Definition mapboxStart : GeocodeMapbox.state :=
  {| GeocodeMapbox.bars := []; GeocodeMapbox.events := [] |}.

Definition hornsgatan (la ln : option number) : Row :=
  MemoSpec.rowAt (lit "Hornsgatan 66") la ln.

(** The reply of the model to the request of one iteration of the mood
    loop: the service sees the trace as the review lookup left it. *)
Definition replyFor (remote : Moods.Remote) (st : Moods.state) (i : nat)
    (bar : Moods.Bar) : Moods.aiResponse :=
  Moods.openai remote (Moods.fetchReviews remote bar i (Moods.events st)).2
    bar (Moods.fetchReviews remote bar i (Moods.events st)).1.

(** The moods the loop gives a bar for a reply. *)
Definition moodsAfter (r : Moods.aiResponse) (bar : Moods.Bar) : Moods.json :=
  match Moods.classifyBarWithOpenAI r with
  | Some (m :: ms) => Moods.labels (m :: ms)
  | _ => Moods.priorMoods bar
  end.

Definition moodsStart : Moods.state :=
  {| Moods.list_ := []; Moods.done := 0; Moods.failed := 0;
     Moods.events := [Console Info "Bars to categorize:" None] |}.


(** A Photon service that answers the first request of a run and fails on
    every later one. *)
Definition failsAfterFirst : GeocodePhoton.Remote :=
  fun t _ =>
    if bool_decide (ResolverSpec.requests t = [])
    then GeocodePhoton.Coordinates LNG_18_0 LAT_59_3
    else GeocodePhoton.FetchFails.

Definition photonWorld (input : option (Source Row)) : GeocodePhoton.World :=
  {| GeocodePhoton.INPUT_PATH := lit "bars-info.csv";
     GeocodePhoton.input := input;
     GeocodePhoton.remote := MemoSpec.nothingFound |}.

Definition mapboxWorld (token : str) (input : option (Source Row))
    : GeocodeMapbox.World :=
  {| GeocodeMapbox.token := token; GeocodeMapbox.input := input;
     GeocodeMapbox.remote := mapboxFindsNothing |}.

Definition moodsWorldWith (google openai : str)
    (input : option (Source Moods.Bar)) : Moods.World :=
  {| Moods.googleKey := google; Moods.openaiKey := openai;
     Moods.BARS_PATH := lit "bars.json"; Moods.input := input;
     Moods.remote := allFails |}.

End RunSpec.

(** ** The readers of keys and tokens, and the review text *)

Module Credentials.
Import JS.

Definition HASH : char := 35.
Definition APOSTROPHE : char := 39.
Definition SEMICOLON : char := 59.
Definition EQUALS : char := 61.

(** The code units that the dot of a regular expression does not match. *)
Definition isLineTerminator (c : char) : bool :=
  (c =? 10) || (c =? 13) || (c =? 8232) || (c =? 8233).

(** [s.replace(pattern, empty)] for a pattern that ends with the end of
    the string and has no g flag: the leftmost match is removed, and it
    reaches to the end.  [here] tells whether the pattern matches a whole
    suffix. *)
Fixpoint cutAt (here : str -> bool) (s : str) : str :=
  match s with
  | [] => []
  | c :: s' => if here s then [] else c :: cutAt here s'
  end.

(** White space, a hash sign, then anything but a line terminator up to
    the end. *)
Definition commentHere (s : str) : bool :=
  match trimStart s with
  | c :: rest =>
      (c =? HASH) && forallb (fun d => negb (isLineTerminator d)) rest
  | [] => false
  end.

Definition stripComment (line : str) : str := cutAt commentHere line.

Fixpoint dropSemicolons (s : str) : str :=
  match s with
  | c :: s' => if c =? SEMICOLON then dropSemicolons s' else s
  | [] => []
  end.

(** White space, one or more semicolons, white space, the end. *)
Definition semicolonsHere (s : str) : bool :=
  match trimStart s with
  | c :: rest =>
      (c =? SEMICOLON) &&
      match trimStart (dropSemicolons rest) with [] => true | _ => false end
  | [] => false
  end.

Definition stripSemicolons (val : str) : str := cutAt semicolonsHere val.

(** The replace call that removes, at the start, white space, an equals
    sign and white space: without the equals sign nothing is removed. *)
Definition stripAssign (s : str) : str :=
  match trimStart s with
  | c :: rest => if c =? EQUALS then trimStart rest else s
  | [] => s
  end.

Definition endsWithChar (s : str) (c : char) : bool :=
  match last s with
  | Some d => d =? c
  | None => false
  end.

(** [val.slice(1, -1)] when [val] starts and ends with the same kind of
    quote; a value that is one quote character starts and ends with it. *)
Definition unquote (val : str) : str :=
  if (startsWith val [QUOTE] && endsWithChar val QUOTE)
     || (startsWith val [APOSTROPHE] && endsWithChar val APOSTROPHE)
  then removelast (tail val)
  else val.

(** The last three statements of the loop body of both key readers, from
    the trimmed text after the key: [None] when the loop goes on to the
    next line. *)
Definition valueOf (afterKeyTrimmed : str) : option str :=
  match unquote (stripSemicolons afterKeyTrimmed) with
  | [] => None
  | c :: val => Some (trim (c :: val))
  end.

(** The loop over the lines, which returns at the first line that gives a
    value, and the empty string after the loop. *)
Fixpoint firstValue (ofLine : str -> option str) (lines : list str) : str :=
  match lines with
  | [] => []
  | line :: lines' =>
      match ofLine line with
      | Some val => val
      | None => firstValue ofLine lines'
      end
  end.

(** [categorize-bars-by-mood.js], lines 39-55.  One line of [.env]. *)
Definition envKeyLine (name line : str) : option str :=
  let trimmed := trim (stripComment line) in
  if startsWith trimmed name
  then valueOf (trim (stripAssign (drop (length name) trimmed)))
  else None.

(** [processEnv] is [process.env]; [envFile] is the text of [.env] when
    the file exists. *)
Definition getEnvKey (processEnv : gmap str str) (envFile : option str)
    (name : str) : str :=
  match processEnv !! name with
  | Some (c :: val) => trim (c :: val)
  | _ =>
      match envFile with
      | Some env => firstValue (envKeyLine name) (Csv.splitLines env)
      | None => []
      end
  end.

(** [s.slice(s.indexOf(c) + 1)], [None] when [indexOf] gives -1. *)
Fixpoint afterChar (c : char) (s : str) : option str :=
  match s with
  | [] => None
  | d :: s' => if d =? c then Some s' else afterChar c s'
  end.

Definition GOOGLE_PLACES_API_KEY : str := lit "GOOGLE_PLACES_API_KEY".

(** [update-bars-from-google-places.js], lines 34-52.  The first replace
    call has the g flag and two alternatives: white space at the start of
    the line, and semicolons with the white space around them at its
    end. *)
Definition apiKeyLine (line : str) : option str :=
  let trimmed := trim (stripSemicolons (trimStart line)) in
  if startsWith trimmed GOOGLE_PLACES_API_KEY
  then
    match afterChar EQUALS trimmed with
    | None => None
    | Some rest => valueOf (trim rest)
    end
  else None.

Definition getApiKey (processEnv : gmap str str) (envFile : option str)
    : str :=
  match processEnv !! GOOGLE_PLACES_API_KEY with
  | Some (c :: val) => trim (c :: val)
  | _ =>
      match envFile with
      | Some env => firstValue apiKeyLine (Csv.splitLines env)
      | None => []
      end
  end.

Definition MAPBOX_TOKEN : str := lit "MAPBOX_TOKEN".

Definition isQuoteChar (c : char) : bool :=
  (c =? QUOTE) || (c =? APOSTROPHE).

(** The class of the captured group of the first pattern: neither a
    quote nor white space. *)
Definition tokenChar (c : char) : bool :=
  negb (isQuoteChar c) && negb (isWhiteSpace c).

Fixpoint takeWhile (f : char -> bool) (s : str) : str :=
  match s with
  | c :: s' => if f c then c :: takeWhile f s' else []
  | [] => []
  end.

(** What follows the name in the pattern used on [.env]: white space, an
    equals sign, white space, at most one quote, and the captured group,
    one or more token characters, as many as there are. *)
Definition envTokenAfter (s : str) : option str :=
  match trimStart s with
  | c :: rest =>
      if c =? EQUALS
      then
        let r := trimStart rest in
        let r' := match r with
                  | q :: r' => if isQuoteChar q then r' else r
                  | [] => []
                  end in
        match takeWhile tokenChar r' with
        | [] => None
        | tok => Some tok
        end
      else None
  | [] => None
  end.

(** What follows the name in the pattern used on [env-config.js]: white
    space, an equals sign, white space, a quote, the captured group, one
    or more characters that are no quote, and a quote. *)
Definition configTokenAfter (s : str) : option str :=
  match trimStart s with
  | c :: rest =>
      if c =? EQUALS
      then
        match trimStart rest with
        | q :: r' =>
            if isQuoteChar q
            then
              let tok := takeWhile (fun d => negb (isQuoteChar d)) r' in
              match tok, drop (length tok) r' with
              | _ :: _, _ :: _ => Some tok
              | _, _ => None
              end
            else None
        | [] => None
        end
      else None
  | [] => None
  end.

(** [text.match(pattern)] for a pattern that starts with the name: the
    captured group of the leftmost match. *)
Fixpoint search (after : str -> option str) (text : str) : option str :=
  let here :=
    if startsWith text MAPBOX_TOKEN
    then after (drop (length MAPBOX_TOKEN) text)
    else None in
  match here with
  | Some tok => Some tok
  | None =>
      match text with
      | [] => None
      | _ :: text' => search after text'
      end
  end.

(** [geocode-bars-from-csv.js], lines 20-33 and 176-189: [.env] first,
    then [env-config.js], then the environment. *)
Definition getToken (envFile configFile : option str)
    (processEnv : gmap str str) : str :=
  match envFile ≫= search envTokenAfter with
  | Some tok => tok
  | None =>
      match configFile ≫= search configTokenAfter with
      | Some tok => tok
      | None => orEmpty (processEnv !! MAPBOX_TOKEN)
      end
  end.

End Credentials.

Module ReviewText.
Import JS.

(** [categorize-bars-by-mood.js], line 73: the texts of the first five
    reviews, trimmed, the empty ones dropped.  [reviews] is [result.reviews],
    a review is given by its [text]. *)
Definition reviewsOf (reviews : option (list (option str))) : list str :=
  filter (fun t => Csv.nonEmpty t = true)
         (map (fun r => trim (orEmpty r)) (take 5 (default [] reviews))).

Definition SEPARATOR : str := [LF] ++ lit "---" ++ [LF].

(** Line 147: at most 400 code units of each review, joined. *)
Definition reviewsText (reviews : list str) : str :=
  join SEPARATOR (map (take 400) reviews).

End ReviewText.

(** ** Vocabulary of the further properties *)

Module MoreSpec.
Import JS Model.

(** A list of values without its last one when that one is empty: what
    [parseCSVLine] does at the end of a line. *)
Definition dropEmptyLast (vs : list str) : list str :=
  match last vs with
  | Some [] => removelast vs
  | _ => vs
  end.

(** The text of a cell given to the exporters: [None] for [null]. *)
Definition cellText (v : option str) : str := trim (orEmpty v).

Definition noLineBreak (s : str) : bool :=
  negb (includesChar s LF) && negb (includesChar s CR).

(** The test of [escapeCsv] on the trimmed text. *)
Definition needsQuote (s : str) : bool :=
  includesChar s COMMA || includesChar s QUOTE
  || includesChar s LF || includesChar s CR.

(** The field [escapeCsv] writes for a cell that holds no quote, and the
    field the [escape] of the Places script writes for one. *)
Definition exportedField (v : option str) : CsvSpec.field :=
  CsvSpec.mkField (needsQuote (cellText v)) (cellText v).

Definition placesField (v : option str) : CsvSpec.field :=
  CsvSpec.mkField (includesChar (orEmpty v) COMMA) (orEmpty v).

(** Pacing of a trace: a request is not sent while the one before it
    still waits for its pause of at least [ms] milliseconds.  [pending]
    tells that a request waits for its pause; the result is [None] when a
    request is sent too early, and else tells whether one still waits at
    the end. *)
Fixpoint pace {R} (ms : nat) (pending : bool) (t : list (event R))
    : option bool :=
  match t with
  | [] => Some pending
  | Fetch _ _ :: t' => if pending then None else pace ms true t'
  | Sleep n :: t' => pace ms (pending && negb (ms <=? n)%nat) t'
  | _ :: t' => pace ms pending t'
  end.

(** The cache of the Photon loop holds exactly the normalized addresses
    that were found, one entry for each successful lookup. *)
Definition cacheInv (remote : GeocodePhoton.Remote) (st : GeocodePhoton.state)
    : Prop :=
  (forall k, is_Some (GeocodePhoton.coordCache st !! k) <->
             (k, true) ∈ MemoSpec.lookups remote [] (GeocodePhoton.events st)) /\
  size (GeocodePhoton.coordCache st)
  = length (filter (fun p => p.2 = true)
              (MemoSpec.lookups remote [] (GeocodePhoton.events st))).

(** A text made of line breaks only: line feeds, each with or without a
    carriage return before it. *)
Fixpoint onlyLineBreaks (text : str) : bool :=
  match text with
  | [] => true
  | c :: rest =>
      if c =? LF then onlyLineBreaks rest
      else
        match rest with
        | d :: rest' => (c =? CR) && (d =? LF) && onlyLineBreaks rest'
        | [] => false
        end
  end.

(** The cells of a header that become columns. *)
Definition columns (header : list str) : list str :=
  filter (fun h => h <> Csv.PROTO) header.

(** The number of events of a trace that pass a test. *)
Fixpoint count {R} (f : event R -> bool) (t : list (event R)) : nat :=
  match t with
  | [] => 0
  | e :: t => ((if f e then 1 else 0) + count f t)%nat
  end.

(** An error line about one row, and an error line about the run. *)
Definition isRowError {R} (e : event R) : bool :=
  match e with Console Error _ (Some _) => true | _ => false end.

Definition isRunError {R} (e : event R) : bool :=
  match e with Console Error _ None => true | _ => false end.

(** The warning of the mood loop for a classification that threw. *)
Definition isOpenAiWarning {R} (e : event R) : bool :=
  match e with
  | Console Warning text (Some _) => String.eqb text "OpenAI error"
  | _ => false
  end.

(** The arguments of the requests to one service in a trace, in order. *)
Definition sameService (s s' : service) : bool :=
  match s, s' with
  | Photon, Photon | Mapbox, Mapbox | FindPlace, FindPlace
  | PlaceDetails, PlaceDetails | PlaceReviews, PlaceReviews
  | OpenAI, OpenAI => true
  | _, _ => false
  end.

Fixpoint requestsTo {R} (s : service) (t : list (event R)) : list str :=
  match t with
  | [] => []
  | Fetch s' a :: t =>
      if sameService s s' then a :: requestsTo s t else requestsTo s t
  | _ :: t => requestsTo s t
  end.




(** The place ids the mood loop asks reviews for. *)
Definition placeIdOf (bar : Moods.Bar) : list str :=
  match Moods.place_id bar with
  | Some (c :: s) => [c :: s]
  | _ => []
  end.

(** A text field that is absent or holds a text: never the empty string. *)
Definition filled (v : option str) : Prop := v <> Some [].

Definition noEmptyText (e : Entry) : Prop :=
  filled (e_location e) /\ filled (e_correct_address e) /\
  filled (e_place_id e) /\ filled (e_photo_reference e).

(** The tags of a record written by the Places script: a list that is
    not empty, without duplicates, of the four tags of the deriver. *)
Definition tagged (e : Entry) : Prop :=
  exists v, e_vibes e = Some v /\ v <> [] /\ NoDup v /\
            forall x, x ∈ v ->
                      x ∈ [lit "party"; lit "girls-night"; lit "dating"; lit "chill"].

(** Every record that a run writes, to any file, satisfies [P]. *)
Definition writesOnly (P : Entry -> Prop) (r : Result Entry) : Prop :=
  Forall (fun pr => Forall P pr.2) (RunSpec.written (trace r)).






End MoreSpec.

Module ReaderSpec.
Import JS Credentials.

(** White space only. *)
Definition blank (pad : str) : bool := forallb isWhiteSpace pad.

(** A code unit of a plain name or value: no white space, hash sign,
    semicolon or quote. *)
Definition keyChar (c : char) : bool :=
  negb (isWhiteSpace c) && negb (c =? HASH) && negb (c =? SEMICOLON)
  && negb (isQuoteChar c).

(** A plain name or value: not empty, of such code units. *)
Definition keyText (s : str) : bool := Csv.nonEmpty s && forallb keyChar s.

(** Nothing, or a hash sign and text that stays on the line. *)
Definition isComment (s : str) : bool :=
  match s with
  | [] => true
  | c :: text =>
      (c =? HASH) && forallb (fun d => negb (isLineTerminator d)) text
  end.

(** A line that assigns [value] to [name], with optional white space,
    semicolons after the value, and a comment at the end. *)
Definition envAssignment (pad0 name pad1 pad2 value : str) (semicolons : nat)
    (pad3 comment : str) : str :=
  pad0 ++ name ++ pad1 ++ [EQUALS] ++ pad2 ++ value
  ++ repeat SEMICOLON semicolons ++ pad3 ++ comment.

(** The same without comment, for the reader of the Places script, which
    takes white space before the semicolons too. *)
Definition apiAssignment (pad0 pad1 pad2 value pad3 : str) (semicolons : nat)
    (pad4 : str) : str :=
  pad0 ++ GOOGLE_PLACES_API_KEY ++ pad1 ++ [EQUALS] ++ pad2 ++ value
  ++ pad3 ++ repeat SEMICOLON semicolons ++ pad4.

(** The first white-space-free code unit of a string is [mark]. *)
Definition headIs (mark : char) (s : str) : bool :=
  match trimStart s with
  | c :: _ => c =? mark
  | [] => false
  end.

End ReaderSpec.

(** * Proofs *)


(** ** The CSV reader *)

Section CsvReader.
Import JS Csv CsvSpec.

Lemma includesChar_cons (c x : char) (s : str) :
  includesChar (x :: s) c = (x =? c) || includesChar s c.
Proof. unfold includesChar. simpl. by rewrite N.eqb_sym. Qed.

Lemma includesChar_app (c : char) (s1 s2 : str) :
  includesChar (s1 ++ s2) c = includesChar s1 c || includesChar s2 c.
Proof. unfold includesChar. apply existsb_app. Qed.

Lemma includesChar_false (c : char) (s : str) :
  includesChar s c = false <-> c ∉ s.
Proof.
  induction s as [|x s IH].
  - split; [intros _; apply not_elem_of_nil | done].
  - rewrite includesChar_cons, orb_false_iff, IH, not_elem_of_cons.
    rewrite N.eqb_neq. split; intros [H1 H2]; split; try done; intros E; by apply H1.
Qed.

(** Inside quotes every code unit but the quote is kept. *)
Lemma loop_inside (c rest : str) (out : list str) (cur : str) :
  includesChar c QUOTE = false ->
  parseCSVLine_loop (c ++ rest) out cur true
  = parseCSVLine_loop rest out (cur ++ c) true.
Proof.
  revert cur. induction c as [|x c IH]; intros cur Hq.
  - by rewrite app_nil_r.
  - rewrite includesChar_cons in Hq. apply orb_false_iff in Hq as [Hx Hc].
    simpl. rewrite Hx. rewrite !andb_false_r. simpl.
    rewrite IH by done. by rewrite <- app_assoc.
Qed.

(** Outside quotes every code unit but the quote, the comma and the line
    feed is kept. *)
Lemma loop_outside (c rest : str) (out : list str) (cur : str) :
  includesChar c QUOTE = false ->
  includesChar c COMMA = false ->
  includesChar c LF = false ->
  parseCSVLine_loop (c ++ rest) out cur false
  = parseCSVLine_loop rest out (cur ++ c) false.
Proof.
  revert cur. induction c as [|x c IH]; intros cur Hq Hc Hl.
  - by rewrite app_nil_r.
  - rewrite includesChar_cons in Hq, Hc, Hl.
    apply orb_false_iff in Hq as [Hq1 Hq2].
    apply orb_false_iff in Hc as [Hc1 Hc2].
    apply orb_false_iff in Hl as [Hl1 Hl2].
    simpl. rewrite Hq1, Hc1, Hl1. simpl.
    rewrite IH by done. by rewrite <- app_assoc.
Qed.

Lemma loop_render (f : field) (rest : str) (out : list str) (cur : str) :
  wellFormed f = true ->
  parseCSVLine_loop (render f ++ rest) out cur false
  = parseCSVLine_loop rest out (cur ++ content f) false.
Proof.
  unfold wellFormed, render. intros Hwf.
  apply andb_true_iff in Hwf as [Hq Hrest].
  apply negb_true_iff in Hq.
  destruct (quoted f); simpl in *.
  - rewrite <- app_assoc. rewrite loop_inside by done. reflexivity.
  - apply andb_true_iff in Hrest as [Hc Hl].
    apply negb_true_iff in Hc, Hl. by apply loop_outside.
Qed.

Lemma last_cons_default {A} (fs : list A) (g d : A) :
  List.last (g :: fs) d = List.last fs g.
Proof.
  revert g d. induction fs as [|h fs IH]; intros g d; [done|].
  change (List.last (g :: h :: fs) d) with (List.last (h :: fs) d).
  by rewrite (IH h d), (IH h g).
Qed.

Lemma loop_fields (fs : list field) (f : field) (out : list str) :
  Forall (fun f => wellFormed f = true) (f :: fs) ->
  parseCSVLine_loop (line_of (f :: fs)) out [] false
  = (out ++ map (fun g => trim (content g)) (removelast (f :: fs)),
     content (List.last fs f)).
Proof.
  revert f out. induction fs as [|g fs IH]; intros f out Hwf.
  - inversion_clear Hwf as [|? ? Hf _].
    unfold line_of. simpl.
    rewrite <- (app_nil_r (render f)), loop_render by done.
    simpl. by rewrite app_nil_r.
  - inversion_clear Hwf as [|? ? Hf Hfs].
    change (line_of (f :: g :: fs))
      with (render f ++ [COMMA] ++ line_of (g :: fs)).
    rewrite loop_render by done.
    change (parseCSVLine_loop ([COMMA] ++ line_of (g :: fs)) out ([] ++ content f) false)
      with (parseCSVLine_loop (line_of (g :: fs)) (out ++ [trim (content f)]) [] false).
    rewrite IH by done.
    rewrite <- app_assoc, last_cons_default. reflexivity.
Qed.

Lemma values_of_last (fs : list field) (f : field) :
  values_of (f :: fs)
  = map (fun g => trim (content g)) (removelast (f :: fs)) ++
    match content (List.last fs f) with
    | [] => []
    | _ :: _ => [trim (content (List.last fs f))]
    end.
Proof.
  revert f. induction fs as [|g fs IH]; intros f.
  - done.
  - change (values_of (f :: g :: fs)) with (trim (content f) :: values_of (g :: fs)).
    rewrite IH, last_cons_default. reflexivity.
Qed.

Lemma parseCSVLine_fields (fs : list field) :
  Forall (fun f => wellFormed f = true) fs ->
  parseCSVLine (line_of fs) = values_of fs.
Proof.
  intros Hwf. destruct fs as [|f fs]; [done|].
  unfold parseCSVLine. rewrite loop_fields by done.
  rewrite values_of_last. simpl app at 1.
  destruct (content (List.last fs f)); [by rewrite app_nil_r | done].
Qed.

Lemma elem_of_trimStart (x : char) (s : str) : x ∈ trimStart s -> x ∈ s.
Proof.
  induction s as [|c s IH]; simpl; [done|].
  destruct (isWhiteSpace c); [|done].
  intros H. right. by apply IH.
Qed.

Lemma elem_of_trim (x : char) (s : str) : x ∈ trim s -> x ∈ s.
Proof.
  unfold trim, trimEnd. rewrite !list_elem_of_In, <- !in_rev.
  rewrite <- !list_elem_of_In. intros H.
  apply elem_of_trimStart in H. rewrite list_elem_of_In, <- in_rev in H.
  rewrite <- list_elem_of_In in H. by apply elem_of_trimStart.
Qed.

(** The loop never puts a quote character into [cur] or [out]. *)
Lemma loop_no_quote (line : str) (out : list str) (cur : str) (q : bool) :
  Forall (fun v => QUOTE ∉ v) out ->
  QUOTE ∉ cur ->
  Forall (fun v => QUOTE ∉ v) (parseCSVLine_loop line out cur q).1 /\
  QUOTE ∉ (parseCSVLine_loop line out cur q).2.
Proof.
  revert out cur q. induction line as [|c line IH]; intros out cur q Hout Hcur.
  - done.
  - simpl. destruct (c =? QUOTE) eqn:Hc; [by apply IH|].
    assert (Hpush : Forall (fun v => QUOTE ∉ v) (out ++ [trim cur])).
    { apply Forall_app. split; [done|]. constructor; [|done].
      intros H. by apply Hcur, elem_of_trim. }
    destruct (((c =? COMMA) && negb q) || ((c =? LF) && negb q)).
    + destruct (c =? LF); [split; [done | apply not_elem_of_nil]|].
      apply IH; [done | apply not_elem_of_nil].
    + apply IH; [done|]. rewrite elem_of_app, list_elem_of_singleton.
      apply N.eqb_neq in Hc. intros [H | H]; [done | congruence].
Qed.

Lemma parseCSVLine_no_quote (line : str) :
  Forall (fun v => QUOTE ∉ v) (parseCSVLine line).
Proof.
  unfold parseCSVLine.
  destruct (loop_no_quote line [] [] false) as [Hout Hcur];
    [done | apply not_elem_of_nil |].
  destruct (parseCSVLine_loop line [] [] false) as [out cur]. simpl in *.
  destruct cur as [|c cur]; [done|].
  apply Forall_app. split; [done|]. constructor; [|done].
  intros H. by apply Hcur, elem_of_trim.
Qed.

(** What [parseCSVLine] does handle.  For every line made of well-formed
    fields joined by commas, it returns the trimmed content of each field:
    a comma, and a line feed, inside a quoted field stay part of its
    value, and quoted and unquoted values alike are trimmed (an empty last
    field is dropped).  For every line at all, no value returned holds a
    quote character: quotes only switch the quoted state. *)
Lemma parseCSVLine_fields_and_quotes (fs : list field) (line : str) :
  Forall (fun f => wellFormed f = true) fs ->
  parseCSVLine (line_of fs) = values_of fs /\
  Forall (fun v => QUOTE ∉ v) (parseCSVLine line).
Proof.
  intros Hwf. split.
  - by apply parseCSVLine_fields.
  - apply parseCSVLine_no_quote.
Qed.

Lemma parseCSVLine_fields_and_quotes_example :
  parseCSVLine
    (line_of [mkField true (lit "Gotgatan 12, Stockholm"); mkField false (lit " 85 ")])
  = [lit "Gotgatan 12, Stockholm"; lit "85"].
Proof.
  rewrite (proj1 (parseCSVLine_fields_and_quotes
                    [mkField true (lit "Gotgatan 12, Stockholm");
                     mkField false (lit " 85 ")] [] ltac:(repeat constructor))).
  reflexivity.
Qed.

(** C4.  The reader does not do what the claim says of doubled quotes and
    of newlines inside quotes.  [parseCSVLine] reads the quoted field
    a, doubled quote, b as ab: the doubled quote gives no quote character.
    [parseCSV] cuts the text at every line break before quotes are looked
    at: the table with the header a,b and the one record x, line feed, y
    in quotes, then z, is read as two rows, the first with a = x and the
    second with a = y,z, and b empty in both. *)
Theorem parseCSV_loses_doubled_quotes_and_newlines :
  parseCSVLine ([QUOTE] ++ lit "a" ++ [QUOTE; QUOTE] ++ lit "b" ++ [QUOTE])
  = [lit "ab"] /\
  parseCSVLine ([QUOTE] ++ lit "a" ++ [QUOTE; QUOTE] ++ lit "b" ++ [QUOTE])
  <> [lit "a" ++ [QUOTE] ++ lit "b"] /\
  parseCSV (lit "a,b" ++ [LF; QUOTE] ++ lit "x" ++ [LF] ++ lit "y"
            ++ [QUOTE] ++ lit ",z")
  = Some [<[lit "b" := []]> (<[lit "a" := lit "x"]> ∅);
          <[lit "b" := []]> (<[lit "a" := lit "y,z"]> ∅)] /\
  parseCSV (lit "a,b" ++ [LF; QUOTE] ++ lit "x" ++ [LF] ++ lit "y"
            ++ [QUOTE] ++ lit ",z")
  <> Some [<[lit "b" := lit "z"]> (<[lit "a" := lit "x" ++ [LF] ++ lit "y"]> ∅)].
Proof.
  split; [reflexivity|]. split; [discriminate|].
  split; [reflexivity | discriminate].
Qed.

(** The dead branch: a line that [parseCSV] hands to [parseCSVLine] holds
    no line feed, so the test for a line feed outside quotes never
    fires there. *)
Lemma splitLines_from_no_LF (text cur : str) :
  LF ∉ cur -> Forall (fun l => LF ∉ l) (splitLines_from text cur).
Proof.
  revert cur. induction text as [|c text IH]; intros cur Hcur.
  - by constructor.
  - simpl. destruct (c =? LF) eqn:Hc.
    + constructor; [done|]. apply IH, not_elem_of_nil.
    + assert (Hpush : LF ∉ cur ++ [c]).
      { rewrite elem_of_app, list_elem_of_singleton.
        apply N.eqb_neq in Hc. intros [H | H]; [done | congruence]. }
      destruct text as [|d text']; [by apply IH|].
      destruct ((c =? CR) && (d =? LF)) eqn:Hcd; [|by apply IH].
      constructor; [done|].
      assert (Hall : Forall (fun l => LF ∉ l) (splitLines_from (d :: text') (cur ++ [c])))
        by (by apply IH).
      apply andb_true_iff in Hcd as [_ Hd]. simpl in Hall. rewrite Hd in Hall.
      by inversion Hall.
Qed.

End CsvReader.

(** ** The CSV export *)

Section CsvExport.
Import JS ExportCsv ExportSpec.

Lemma includesChar_decide (c : char) (s : str) :
  includesChar s c = bool_decide (c ∈ s).
Proof.
  destruct (includesChar s c) eqn:E; symmetry.
  - apply bool_decide_eq_true. destruct (decide (c ∈ s)) as [|H]; [done|].
    apply includesChar_false in H. congruence.
  - apply bool_decide_eq_false. by apply includesChar_false.
Qed.

Lemma undouble_doubleQuotes (s : str) : undouble (doubleQuotes s) = s.
Proof.
  induction s as [|c s IH]; [done|].
  unfold doubleQuotes in *. simpl.
  destruct (c =? QUOTE) eqn:Hc.
  - apply N.eqb_eq in Hc. subst c. simpl. by rewrite IH.
  - simpl. rewrite <- IH at 2.
    destruct (flat_map _ s) as [|b s'] eqn:Hs; [done|].
    by rewrite Hc.
Qed.

(** C7 (as amended).  [escapeCsv] trims the value first.  When the trimmed
    value holds a comma, a quote, a line feed or a carriage return, the
    cell is the trimmed value in quotes with every quote inside doubled
    (reading pairs of quotes back as one quote gives the trimmed value
    again); otherwise the cell is the trimmed value as it is.  [null] and
    [undefined] give the empty cell.  The value of the scenario gives the
    cell of the scenario.  The text the export script writes starts with
    the byte-order marker, followed by the header line. *)
Theorem escapeCsv_quotes_trimmed_value (v : str) (bars : list Bar) :
  escapeCsv (Some v)
  = (if bool_decide (COMMA ∈ trim v \/ QUOTE ∈ trim v \/ LF ∈ trim v \/ CR ∈ trim v)
     then [QUOTE] ++ doubleQuotes (trim v) ++ [QUOTE]
     else trim v) /\
  undouble (doubleQuotes (trim v)) = trim v /\
  escapeCsv None = [] /\
  escapeCsv (Some scenarioValue) = scenarioCell /\
  exportText bars = BOM :: csv bars /\
  exists rest,
    exportText bars
    = BOM :: lit "id,bar_name,address,correct_address,lat,lng,price,opening_hours,dance_floor,dance_notes,last_updated"
      ++ rest.
Proof.
  split; [|split; [|split; [|split; [|split]]]].
  - unfold escapeCsv. rewrite !includesChar_decide.
    repeat case_bool_decide; simpl; try done; tauto.
  - apply undouble_doubleQuotes.
  - done.
  - reflexivity.
  - done.
  - unfold exportText, csv.
    destruct (map (fun b => join [COMMA] (row_of b)) bars) as [|r rs].
    + exists []. by rewrite app_nil_r.
    + exists ([LF] ++ join [LF] (r :: rs)). reflexivity.
Qed.

(** C7, as stated, fails: a value that ends in a line feed holds a newline,
    and is written without quotes. *)
Lemma escapeCsv_trailing_newline_unquoted :
  LF ∈ lit "Open late" ++ [LF] /\
  escapeCsv (Some (lit "Open late" ++ [LF])) = lit "Open late".
Proof. split; [|reflexivity]. apply elem_of_app. right. constructor. Qed.

(** The [escape] of the Places script does not test for line breaks, and
    its text has no byte-order marker. *)
Lemma Places_escape_newline_unquoted :
  Places.escape (Some (lit "Mon 16-01" ++ [LF] ++ lit "Fri 14-03"))
  = lit "Mon 16-01" ++ [LF] ++ lit "Fri 14-03" /\
  head (Places.csvText []) = Some 105.
Proof. split; reflexivity. Qed.

End CsvExport.

(** ** The tag deriver *)

Section Vibes.
Import JS Model Places VibesSpec.

Lemma deriveVibes_table (row : Row) (rating : option number) :
  deriveVibes row rating = ruleTable (danceIsYes row) (highRating rating).
Proof.
  unfold deriveVibes.
  destruct (danceIsYes row), (highRating rating); reflexivity.
Qed.

Lemma ruleTable_NoDup (dance high : bool) : NoDup (ruleTable dance high).
Proof.
  destruct dance, high; simpl;
    repeat (constructor; [rewrite ?elem_of_cons, ?elem_of_nil; intros H;
                          repeat destruct H as [H|H]; discriminate H || done |]);
    constructor.
Qed.

(** C5 (as amended).  [deriveVibes] returns the list of the rule table,
    where the first rule fires when [dance_floor], lower-cased, is yes: a
    dance floor contributes party and girls-night, a rating of 4.2 or more
    contributes dating and chill, and with no rule fired the result is
    chill alone.  The list has no duplicates, and it does not depend on
    the [vibes] the row already has: deriving again from a row that
    carries the derived vibes gives the same list. *)
Theorem deriveVibes_rule_table (row : Row) (rating : option number)
    (v : option (list str)) :
  deriveVibes row rating = ruleTable (danceIsYes row) (highRating rating) /\
  NoDup (deriveVibes row rating) /\
  deriveVibes (withVibes row v) rating = deriveVibes row rating /\
  deriveVibes (withVibes row (Some (deriveVibes row rating))) rating
  = deriveVibes row rating.
Proof.
  split; [apply deriveVibes_table|].
  split; [rewrite deriveVibes_table; apply ruleTable_NoDup|].
  split; reflexivity.
Qed.

(** C5, as stated, fails: for [dance_floor] YES, which is not equal to yes,
    the rule table of the specification gives chill alone, and
    [deriveVibes] gives party and girls-night. *)
Lemma deriveVibes_upper_case_yes :
  deriveVibes (barWithDance (lit "YES")) None = [lit "party"; lit "girls-night"] /\
  deriveTags_spec (barWithDance (lit "YES")) None = [lit "chill"] /\
  deriveVibes (barWithDance (lit "YES")) None
  <> deriveTags_spec (barWithDance (lit "YES")) None.
Proof. split; [reflexivity | split; [reflexivity | discriminate]]. Qed.

(** The two scenarios of the specification. *)
Lemma deriveVibes_scenarios :
  deriveVibes (barWithDance (lit "yes")) None = [lit "party"; lit "girls-night"] /\
  deriveVibes (barWithDance (lit "no")) None = [lit "chill"].
Proof. split; reflexivity. Qed.

End Vibes.

(** ** The address resolver *)

Section Resolver.
Import JS Model GeocodePhoton ResolverSpec.





Lemma requests_app (t u : list (event Entry)) :
  requests (t ++ u) = requests t ++ requests u.
Proof. apply omap_app. Qed.



(** The resolver decides the lookups: with no address resolved no request
    is sent, and with an address resolved and not yet in the cache the
    request sent is for that address. *)
Lemma lookup_row_requests (remote : Remote) (row : Row)
    (cache : gmap str (number * number)) (t : list (event Entry)) :
  requests (lookup_row remote row cache t).1.1.2
  = requests t ++
    match resolve row with
    | Some loc =>
        match cache !! addressKey (Some loc) with
        | None => [loc]
        | Some _ => []
        end
    | None => []
    end.
Proof.
  unfold lookup_row, resolve.
  destruct (geocodable (location_of row)).
  2:{ rewrite andb_false_l. cbv iota. cbn [fst snd]. by rewrite app_nil_r. }
  rewrite andb_true_l.
  destruct (cache !! addressKey (Some (location_of row))) as [[x y]|] eqn:Hk.
  { rewrite Hk. destruct (negb _); cbv iota; rewrite ?Hk; cbn [fst snd];
    by rewrite app_nil_r. }
  unfold geocodePhoton.
  destruct (negb (Csv.nonEmpty (location_of row))
            || negb (Csv.nonEmpty (trim (location_of row)))
            || isNullWord (location_of row)).
  { rewrite Hk. cbn [negb fst snd]. cbv iota.
    by rewrite requests_app, !app_nil_r. }
  cbn [negb]. cbv iota.
  destruct (remote t (photonQuery (location_of row))) as [| | |x y],
    (size cache =? 0)%nat;
    rewrite ?lookup_insert_eq, ?Hk; cbn [fst snd];
    rewrite ?requests_app; cbn [requests omap list_omap app]; by rewrite ?app_nil_r.
Qed.

(** The scenario: the row of Kvarnen is geocoded with its corrected
    address, not with Hornsgatan 66. *)
Lemma kvarnen_geocoded_with_correct_address (remote : Remote) :
  requests (lookup_row remote kvarnen ∅ []).1.1.2
  = [lit "Tj" ++ [228] ++ lit "rhovsgatan 4, S" ++ [246] ++ lit "dermalm, Stockholm"].
Proof. rewrite lookup_row_requests. reflexivity. Qed.

End Resolver.

(** ** The geocoder's cache *)

Section Memo.
Import JS Model GeocodePhoton ResolverSpec MemoSpec.
Import GeocodeMapbox(PLACEHOLDER_LAT, PLACEHOLDER_LNG).
Import RunSpec(coordsOf).

Section Loop.

(** The service the run talks to: any one. *)
Variable remote : Remote.

Lemma lookups_app (b t u : list (event Entry)) :
  lookups remote b (t ++ u) = lookups remote b t ++ lookups remote (b ++ t) u.
Proof.
  revert b. induction t as [|e t IH]; intros b.
  - by rewrite app_nil_r.
  - simpl. rewrite IH, <- !app_assoc. done.
Qed.

Lemma lookups_snoc_quiet (t : list (event Entry))
    (e : event Entry) :
  isFetch e = false ->
  lookups remote [] (t ++ [e]) = lookups remote [] t.
Proof.
  intros He. rewrite lookups_app. simpl.
  destruct e; try discriminate; by rewrite !app_nil_r.
Qed.

Lemma lookup_row_lookups (row : Row)
    (cache : gmap str (number * number)) (t : list (event Entry)) :
  lookups remote [] (lookup_row remote row cache t).1.1.2
  = lookups remote [] t ++
    match newLookup remote row cache t with
    | Some (k, r) => [(k, found r)]
    | None => []
    end /\
  (lookup_row remote row cache t).1.1.1
  = match newLookup remote row cache t with
    | Some (k, Coordinates x y) => <[k := (x, y)]> cache
    | _ => cache
    end.
Proof.
  unfold lookup_row, newLookup, resolve.
  destruct (geocodable (location_of row)).
  2:{ rewrite andb_false_l. cbv iota. cbn [fst snd]. by rewrite app_nil_r. }
  rewrite andb_true_l.
  destruct (cache !! addressKey (Some (location_of row))) as [[x y]|] eqn:Hk.
  { rewrite Hk. destruct (negb _); cbv iota; rewrite ?Hk; cbn [fst snd];
    by rewrite app_nil_r. }
  unfold geocodePhoton.
  destruct (negb (Csv.nonEmpty (location_of row))
            || negb (Csv.nonEmpty (trim (location_of row)))
            || isNullWord (location_of row)).
  { rewrite Hk. cbn [negb fst snd]. cbv iota.
    by rewrite lookups_snoc_quiet, app_nil_r. }
  cbn [negb]. cbv iota.
  destruct (remote t (photonQuery (location_of row))) as [| | |x y] eqn:Hr,
    (size cache =? 0)%nat;
    rewrite ?lookup_insert_eq, ?Hk; cbn [fst snd];
    rewrite ?lookups_snoc_quiet by done;
    (split; [|done]);
    rewrite lookups_app; cbn [lookups]; rewrite ?app_nil_l, ?app_nil_r, ?Hr;
    done.
Qed.

Lemma newLookup_fresh (row : Row)
    (cache : gmap str (number * number)) (t : list (event Entry))
    (k : str) (r : response) :
  newLookup remote row cache t = Some (k, r) -> cache !! k = None.
Proof.
  unfold newLookup. destruct (resolve row) as [loc|]; [|done].
  destruct (cache !! addressKey (Some loc)) eqn:Hk; [done|].
  by intros [= <- _].
Qed.

Lemma settled_snoc (l : list (str * bool)) (k : str) (ok : bool) :
  settled l ->
  (forall k', (k', true) ∈ l -> k' <> k) ->
  settled (l ++ [(k, ok)]).
Proof.
  induction l as [|[k0 ok0] l IH]; intros Hs Hne.
  - simpl. split; [intros _; apply not_elem_of_nil | done].
  - destruct Hs as [Hk0 Hs]. simpl. split.
    + intros ->. rewrite fmap_app, elem_of_app. intros [H | H].
      * by apply Hk0.
      * apply list_elem_of_singleton in H. simpl in H.
        apply (Hne k0); [left | done].
    + apply IH; [done|]. intros k' Hk'. apply Hne. by right.
Qed.

Lemma step_memoInv (st : state) (i : nat) (row : Row) :
  memoInv remote st -> memoInv remote (step remote st i row).
Proof.
  intros [Hs Hc]. unfold memoInv, step.
  pose proof (lookup_row_lookups row (coordCache st) (events st)) as [Hl Hm].
  pose proof (newLookup_fresh row (coordCache st) (events st)) as Hfresh.
  destruct (lookup_row remote row (coordCache st) (events st)) as [[[cache t] la] ln].
  cbn [fst snd] in Hl, Hm. cbn [events coordCache].
  assert (Hev : lookups remote []
            (if ((i + 1) mod 15 =? 0)%nat
             then t ++ [Console Info "Processed" (Some i)] else t)
          = lookups remote [] t).
  { destruct ((i + 1) mod 15 =? 0)%nat; [by apply lookups_snoc_quiet | done]. }
  rewrite Hev, Hl. clear Hev Hl.
  destruct (newLookup remote row (coordCache st) (events st)) as [[k r]|].
  - specialize (Hfresh k r eq_refl). split.
    + apply settled_snoc; [done|]. intros k' Hk' ->.
      apply Hc in Hk'. rewrite Hfresh in Hk'. by destruct Hk'.
    + intros k' Hk'. apply elem_of_app in Hk' as [Hk' | Hk'].
      * apply Hc in Hk'. subst cache. destruct r; try done.
        destruct (decide (k = k')) as [->|Hne].
        -- rewrite lookup_insert_eq. eauto.
        -- by rewrite lookup_insert_ne.
      * apply list_elem_of_singleton in Hk'. injection Hk' as -> Hok.
        subst cache. destruct r; try discriminate.
        rewrite lookup_insert_eq. eauto.
  - rewrite app_nil_r. by subst cache.
Qed.

Lemma loop_memoInv (rows : list Row) (st : state) (i : nat) :
  memoInv remote st -> memoInv remote (loop remote st i rows).
Proof.
  revert st i. induction rows as [|row rows IH]; intros st i Hinv; [done|].
  simpl. by apply IH, step_memoInv.
Qed.

Lemma lookup_row_hit (row : Row)
    (cache : gmap str (number * number)) (t : list (event Entry))
    (x y : number) :
  geocodable (location_of row) = true ->
  cache !! addressKey (Some (location_of row)) = Some (x, y) ->
  lookup_row remote row cache t = (cache, t, Some y, Some x).
Proof.
  intros Hg Hk. unfold lookup_row. rewrite Hg, Hk. by rewrite Hk.
Qed.

End Loop.

Lemma photon_loop_app (remote : Remote) (a b : list Row) (st : state)
    (i : nat) :
  loop remote st i (a ++ b) = loop remote (loop remote st i a) (i + length a) b.
Proof.
  revert st i. induction a as [|row a IH]; intros st i; simpl.
  - by rewrite Nat.add_0_r.
  - rewrite IH. f_equal. lia.
Qed.

(** C2 (as amended).  In every run of the geocoding script, once a lookup
    for a normalized address has found coordinates, no later request is
    sent for that normalized address: a row that comes after such a
    lookup finds its normalized address in the cache, sends no request and
    takes the cached coordinates.  A lookup that fails or finds nothing is
    not remembered: for an address that is not in the cache the request
    is sent, and the cache gets an entry only when the service answers
    with coordinates.  The state the row is met in is the one of the run:
    the run goes through the rows before it, then through the row, then
    through the rest, and writes what it has then. *)
Theorem geocode_memoizes_found_addresses (w : World) (pre post : list Row)
    (row : Row) (loc : str) :
  input w = Some (Rows (pre ++ row :: post)) ->
  resolve row = Some loc ->
  foundBefore w pre (addressKey (Some loc)) = true ->
  settled (lookups (remote w) [] (trace (main w))) /\
  (exists x y,
     coordCache (stateAfter w pre) !! addressKey (Some loc) = Some (x, y) /\
     requests (events (step (remote w) (stateAfter w pre) (length pre) row))
     = requests (events (stateAfter w pre)) /\
     coordsOf (bars (step (remote w) (stateAfter w pre) (length pre) row))
     = Some (Some y, Some x)) /\
  (forall (row' : Row) (loc' : str) (cache' : gmap str (number * number))
          (t' : list (event Entry)),
     resolve row' = Some loc' ->
     cache' !! addressKey (Some loc') = None ->
     requests (lookup_row (remote w) row' cache' t').1.1.2 = requests t' ++ [loc'] /\
     (lookup_row (remote w) row' cache' t').1.1.1
     = match remote w t' (photonQuery loc') with
       | Coordinates x y => <[addressKey (Some loc') := (x, y)]> cache'
       | _ => cache'
       end) /\
  stateAfter w (pre ++ row :: post)
  = loop (remote w) (step (remote w) (stateAfter w pre) (length pre) row)
      (S (length pre)) post /\
  trace (main w)
  = events (stateAfter w (pre ++ row :: post))
    ++ [WriteFile OUT_PATH (bars (stateAfter w (pre ++ row :: post)));
        Console Info "Wrote" None;
        Console Info "Bars with coordinates:" None].
Proof.
  intros Hin Hres Hfound.
  split; [|split; [|split; [|split]]].
  4:{ unfold stateAfter. by rewrite photon_loop_app. }
  4:{ unfold main, stateAfter, startOf. rewrite Hin. cbn [default].
      rewrite bool_decide_eq_true_2 by eauto. rewrite !andb_true_r.
      by destruct (isJsonPath (INPUT_PATH w)). }
  - unfold main.
    assert (Hrun : forall text src,
              settled (lookups (remote w) [] (trace (run w text src)))).
    { intros text [|rows]; [simpl; done|].
      unfold run. cbn [trace].
      destruct (loop_memoInv (remote w) rows (initial text) 0) as [Hs _].
      { split; [simpl; done|]. intros k Hk'. simpl in Hk'.
        by apply elem_of_nil in Hk'. }
      rewrite lookups_app. cbn [lookups]. by rewrite !app_nil_r. }
    destruct (isJsonPath (INPUT_PATH w) && _); [apply Hrun|].
    destruct (negb (isJsonPath (INPUT_PATH w)) && _); [apply Hrun|].
    simpl. done.
  - apply bool_decide_eq_true in Hfound.
    destruct (loop_memoInv (remote w) pre (startOf w) 0) as [_ Hc].
    { split; [simpl; done|]. intros k Hk'. simpl in Hk'.
      by apply elem_of_nil in Hk'. }
    apply Hc in Hfound as [[x y] Hxy]. fold (stateAfter w pre) in Hxy.
    exists x, y. split; [done|].
    assert (Hg : geocodable (location_of row) = true /\ loc = location_of row).
    { unfold resolve in Hres.
      destruct (geocodable (location_of row)); [|done].
      destruct (negb _); [|done]. by injection Hres as <-. }
    destruct Hg as [Hg ->].
    unfold step. rewrite (lookup_row_hit (remote w) row _ _ x y Hg Hxy).
    cbn [events bars]. split.
    + destruct ((length pre + 1) mod 15 =? 0)%nat; [|done].
      rewrite requests_app. simpl. by rewrite app_nil_r.
    + unfold coordsOf. by rewrite last_snoc.
  - intros row' loc' cache' t' Hres' Hmiss.
    destruct (lookup_row_lookups (remote w) row' cache' t') as [_ Hc].
    rewrite lookup_row_requests, Hc. unfold newLookup.
    rewrite Hres', Hmiss. split; [done|].
    by destruct (remote w t' (photonQuery loc')).
Qed.

Lemma geocode_memoizes_found_addresses_witness :
  settled (lookups (alwaysAt PLACEHOLDER_LNG PLACEHOLDER_LAT) []
             (trace (main (worldOf (alwaysAt PLACEHOLDER_LNG PLACEHOLDER_LAT)
                             ([rowAt (lit "Hornsgatan 66") None None]
                              ++ rowAt (lit "Hornsgatan   66") None None :: []))))) /\
  (exists x y,
     coordCache
       (stateAfter (worldOf (alwaysAt PLACEHOLDER_LNG PLACEHOLDER_LAT)
                      ([rowAt (lit "Hornsgatan 66") None None]
                       ++ rowAt (lit "Hornsgatan   66") None None :: []))
          [rowAt (lit "Hornsgatan 66") None None])
     !! addressKey (Some (lit "Hornsgatan   66")) = Some (x, y) /\
     requests
       (events
          (step (alwaysAt PLACEHOLDER_LNG PLACEHOLDER_LAT)
             (stateAfter (worldOf (alwaysAt PLACEHOLDER_LNG PLACEHOLDER_LAT)
                            ([rowAt (lit "Hornsgatan 66") None None]
                             ++ rowAt (lit "Hornsgatan   66") None None :: []))
                [rowAt (lit "Hornsgatan 66") None None])
             1 (rowAt (lit "Hornsgatan   66") None None)))
     = requests
         (events
            (stateAfter (worldOf (alwaysAt PLACEHOLDER_LNG PLACEHOLDER_LAT)
                           ([rowAt (lit "Hornsgatan 66") None None]
                            ++ rowAt (lit "Hornsgatan   66") None None :: []))
               [rowAt (lit "Hornsgatan 66") None None])) /\
     coordsOf
       (bars
          (step (alwaysAt PLACEHOLDER_LNG PLACEHOLDER_LAT)
             (stateAfter (worldOf (alwaysAt PLACEHOLDER_LNG PLACEHOLDER_LAT)
                            ([rowAt (lit "Hornsgatan 66") None None]
                             ++ rowAt (lit "Hornsgatan   66") None None :: []))
                [rowAt (lit "Hornsgatan 66") None None])
             1 (rowAt (lit "Hornsgatan   66") None None)))
     = Some (Some y, Some x)) /\
  (forall (row' : Row) (loc' : str) (cache' : gmap str (number * number))
          (t' : list (event Entry)),
     resolve row' = Some loc' ->
     cache' !! addressKey (Some loc') = None ->
     requests (lookup_row (alwaysAt PLACEHOLDER_LNG PLACEHOLDER_LAT) row' cache' t').1.1.2
     = requests t' ++ [loc'] /\
     (lookup_row (alwaysAt PLACEHOLDER_LNG PLACEHOLDER_LAT) row' cache' t').1.1.1
     = match alwaysAt PLACEHOLDER_LNG PLACEHOLDER_LAT t' (photonQuery loc') with
       | Coordinates x y => <[addressKey (Some loc') := (x, y)]> cache'
       | _ => cache'
       end) /\
  stateAfter (worldOf (alwaysAt PLACEHOLDER_LNG PLACEHOLDER_LAT)
                      ([rowAt (lit "Hornsgatan 66") None None]
                       ++ rowAt (lit "Hornsgatan   66") None None :: []))
    ([rowAt (lit "Hornsgatan 66") None None]
     ++ rowAt (lit "Hornsgatan   66") None None :: [])
  = loop (alwaysAt PLACEHOLDER_LNG PLACEHOLDER_LAT)
      (step (alwaysAt PLACEHOLDER_LNG PLACEHOLDER_LAT)
         (stateAfter (worldOf (alwaysAt PLACEHOLDER_LNG PLACEHOLDER_LAT)
                      ([rowAt (lit "Hornsgatan 66") None None]
                       ++ rowAt (lit "Hornsgatan   66") None None :: [])) [rowAt (lit "Hornsgatan 66") None None])
         (length [rowAt (lit "Hornsgatan 66") None None])
         (rowAt (lit "Hornsgatan   66") None None))
      (S (length [rowAt (lit "Hornsgatan 66") None None])) [] /\
  trace (main (worldOf (alwaysAt PLACEHOLDER_LNG PLACEHOLDER_LAT)
                      ([rowAt (lit "Hornsgatan 66") None None]
                       ++ rowAt (lit "Hornsgatan   66") None None :: [])))
  = events (stateAfter (worldOf (alwaysAt PLACEHOLDER_LNG PLACEHOLDER_LAT)
                      ([rowAt (lit "Hornsgatan 66") None None]
                       ++ rowAt (lit "Hornsgatan   66") None None :: []))
              ([rowAt (lit "Hornsgatan 66") None None]
               ++ rowAt (lit "Hornsgatan   66") None None :: []))
    ++ [WriteFile OUT_PATH
          (bars (stateAfter (worldOf (alwaysAt PLACEHOLDER_LNG PLACEHOLDER_LAT)
                      ([rowAt (lit "Hornsgatan 66") None None]
                       ++ rowAt (lit "Hornsgatan   66") None None :: []))
                   ([rowAt (lit "Hornsgatan 66") None None]
                    ++ rowAt (lit "Hornsgatan   66") None None :: [])));
        Console Info "Wrote" None;
        Console Info "Bars with coordinates:" None].
Proof.
  apply (geocode_memoizes_found_addresses
           (worldOf (alwaysAt PLACEHOLDER_LNG PLACEHOLDER_LAT)
              ([rowAt (lit "Hornsgatan 66") None None]
               ++ rowAt (lit "Hornsgatan   66") None None :: []))
           [rowAt (lit "Hornsgatan 66") None None] []
           (rowAt (lit "Hornsgatan   66") None None) (lit "Hornsgatan   66")).
  - reflexivity.
  - reflexivity.
  - vm_compute. reflexivity.
Defined.

(** C2, as stated, fails: two rows with the same normalized address, and a
    service that finds nothing, give two requests for that address. *)
Lemma geocode_repeats_failed_lookup :
  lookups nothingFound []
    (trace (main (worldOf nothingFound
                    [rowAt (lit "Hornsgatan 66") None None;
                     rowAt (lit "Hornsgatan   66") None None])))
  = [(lit "Hornsgatan 66", false); (lit "Hornsgatan 66", false)] /\
  ~ oneRequestPerAddress
      (lookups nothingFound []
         (trace (main (worldOf nothingFound
                         [rowAt (lit "Hornsgatan 66") None None;
                          rowAt (lit "Hornsgatan   66") None None])))).
Proof.
  assert (H : lookups nothingFound []
    (trace (main (worldOf nothingFound
                    [rowAt (lit "Hornsgatan 66") None None;
                     rowAt (lit "Hornsgatan   66") None None])))
  = [(lit "Hornsgatan 66", false); (lit "Hornsgatan 66", false)])
    by (vm_compute; reflexivity).
  split; [done|]. rewrite H. unfold oneRequestPerAddress. simpl.
  intros Hnd. apply NoDup_cons in Hnd as [Hin _]. apply Hin. by left.
Qed.

(** With a service that answers, the same two rows give one request. *)
Lemma geocode_one_request_when_found :
  lookups (alwaysAt PLACEHOLDER_LNG PLACEHOLDER_LAT) []
    (trace (main (worldOf (alwaysAt PLACEHOLDER_LNG PLACEHOLDER_LAT)
                    [rowAt (lit "Hornsgatan 66") None None;
                     rowAt (lit "Hornsgatan   66") None None])))
  = [(lit "Hornsgatan 66", true)].
Proof. vm_compute. reflexivity. Qed.

End Memo.

(** ** Coordinates across passes *)

Section Coordinates.
Import JS Model ResolverSpec MemoSpec RunSpec.

Lemma coordsOf_snoc (l : list Entry) (e : Entry) :
  coordsOf (l ++ [e]) = Some (e_lat e, e_lng e).
Proof. unfold coordsOf. by rewrite last_snoc. Qed.

(** Mapbox variant: a row with resolved coordinates is not looked up. *)
Lemma mapbox_keeps_resolved (remote : GeocodeMapbox.Remote) (token : str)
    (st : GeocodeMapbox.state) (i : nat) (row : Row) :
  resolved row = true ->
  coordsOf (GeocodeMapbox.bars (GeocodeMapbox.step remote token st i row))
  = Some (lat row, lng row) /\
  filter (fun e => isFetch e = true)
    (GeocodeMapbox.events (GeocodeMapbox.step remote token st i row))
  = filter (fun e => isFetch e = true) (GeocodeMapbox.events st).
Proof.
  unfold resolved. intros H.
  apply andb_true_iff in H as [H Hp]. apply andb_true_iff in H as [Hla Hln].
  apply negb_true_iff in Hp.
  unfold GeocodeMapbox.step, GeocodeMapbox.needsGeocoding.
  rewrite Hla, Hln, Hp. rewrite andb_false_r. cbn [GeocodeMapbox.bars GeocodeMapbox.events].
  split; [apply coordsOf_snoc|].
  destruct ((i + 1) mod 10 =? 0)%nat; [|done].
  by rewrite filter_app, app_nil_r.
Qed.

(** Mapbox variant: a lookup without a result keeps the coordinates. *)
Lemma mapbox_keeps_on_failure (remote : GeocodeMapbox.Remote) (token : str)
    (st : GeocodeMapbox.state) (i : nat) (row : Row) :
  centerFound
    (remote (GeocodeMapbox.events st)
       (GeocodeMapbox.mapboxQuery (stripQuotes (trim (orEmpty (location row))))))
  = false ->
  coordsOf (GeocodeMapbox.bars (GeocodeMapbox.step remote token st i row))
  = Some (lat row, lng row).
Proof.
  intros Hr. unfold GeocodeMapbox.step.
  destruct (GeocodeMapbox.needsGeocoding _ _ _).
  - unfold GeocodeMapbox.geocode.
    destruct (negb _ || negb _ || eqb _ _); [apply coordsOf_snoc|].
    destruct (remote _ _) as [| |x y] eqn:E; try apply coordsOf_snoc.
    discriminate Hr.
  - apply coordsOf_snoc.
Qed.

(** Photon variant: a lookup without a result, for an address that is
    not in the cache, keeps the coordinates. *)
Lemma photon_keeps_on_failure (remote : GeocodePhoton.Remote)
    (st : GeocodePhoton.state) (i : nat) (row : Row) :
  GeocodePhoton.coordCache st
    !! GeocodePhoton.addressKey (Some (GeocodePhoton.location_of row)) = None ->
  found (remote (GeocodePhoton.events st)
           (GeocodePhoton.photonQuery (GeocodePhoton.location_of row))) = false ->
  coordsOf (GeocodePhoton.bars (GeocodePhoton.step remote st i row))
  = Some (lat row, lng row).
Proof.
  intros Hk Hr. unfold GeocodePhoton.step, GeocodePhoton.lookup_row.
  destruct (GeocodePhoton.geocodable _); [|apply coordsOf_snoc].
  rewrite Hk. unfold GeocodePhoton.geocodePhoton.
  destruct (negb _ || negb _ || isNullWord _).
  - rewrite Hk. apply coordsOf_snoc.
  - destruct (remote _ _); try discriminate; rewrite Hk; apply coordsOf_snoc.
Qed.

(** Places script: a lookup that throws, finds nothing or finds a place
    without address or coordinates keeps the coordinates. *)
Lemma places_keeps_on_failure (remote : Places.Remote) (st : Places.state)
    (i : nat) (row : Row) :
  placeUsable (Places.findPlaceFromText remote (Places.events st)
                 (Places.query_of (barName_of row))) = false ->
  coordsOf (Places.bars (Places.step remote st i row)) = Some (lat row, lng row).
Proof.
  intros Hr. unfold Places.step, Places.findPlace.
  destruct (Places.findPlaceFromText _ _ _) as [b| |p] eqn:E.
  - cbn [Places.fetchDetails mbind option_bind]. apply coordsOf_snoc.
  - cbn [Places.fetchDetails mbind option_bind]. apply coordsOf_snoc.
  - destruct (Places.fetchDetails _ _ _) as [[photo rating] t'].
    cbn [Places.bars]. rewrite coordsOf_snoc.
    cbn [e_lat e_lng mbind option_bind].
    cbn [placeUsable] in Hr. by rewrite Hr.
Qed.

(** Photon variant: a lookup that finds coordinates replaces the
    coordinates of the row, whatever they were. *)
Lemma photon_replaces_on_success (remote : GeocodePhoton.Remote)
    (st : GeocodePhoton.state) (i : nat) (row : Row) (loc : str)
    (x y : number) :
  resolve row = Some loc ->
  GeocodePhoton.coordCache st !! GeocodePhoton.addressKey (Some loc) = None ->
  remote (GeocodePhoton.events st) (GeocodePhoton.photonQuery loc)
  = GeocodePhoton.Coordinates x y ->
  coordsOf (GeocodePhoton.bars (GeocodePhoton.step remote st i row))
  = Some (Some y, Some x).
Proof.
  intros Hres Hk Hr. unfold resolve in Hres.
  destruct (GeocodePhoton.geocodable (GeocodePhoton.location_of row)) eqn:Hg;
    [|done].
  destruct (negb _ || negb _ || isNullWord _) eqn:Hguard; [done|].
  injection Hres as <-.
  unfold GeocodePhoton.step, GeocodePhoton.lookup_row. rewrite Hg, Hk.
  unfold GeocodePhoton.geocodePhoton. rewrite Hguard, Hr.
  destruct (size _ =? 0)%nat; rewrite lookup_insert_eq; apply coordsOf_snoc.
Qed.

(** Places script: a place with a formatted address and both coordinates
    replaces the coordinates of the row, whatever they were. *)
Lemma places_replaces_on_success (remote : Places.Remote) (st : Places.state)
    (i : nat) (row : Row) (p : Places.Place) :
  Places.findPlaceFromText remote (Places.events st)
    (Places.query_of (barName_of row)) = Places.Found p ->
  placeUsable (Places.Found p) = true ->
  coordsOf (Places.bars (Places.step remote st i row))
  = Some (Places.p_lat p, Places.p_lng p).
Proof.
  intros Hr Hu. unfold Places.step, Places.findPlace. rewrite Hr.
  destruct (Places.fetchDetails _ _ _) as [[photo rating] t'].
  cbn [Places.bars]. rewrite coordsOf_snoc.
  cbn [e_lat e_lng mbind option_bind].
  cbn [placeUsable] in Hu. by rewrite Hu.
Qed.

(** C6 (as amended).  Only the Mapbox variant guards resolved coordinates:
    a row whose coordinates are both there and truthy, and are not the
    placeholder 59.31667, 18.06745, sends no request and keeps them.  In
    the Mapbox variant, the Photon variant and the Places script alike, a
    lookup that gives no result leaves the coordinates of the row as they
    were.  The Photon variant and the Places script replace the
    coordinates of the row with what a successful lookup returns, whatever
    the row held: the entry gets the coordinates found, and the
    coordinates of the row do not enter into it. *)
Theorem coordinates_kept_without_a_result
    (rowM : Row) (remoteM : GeocodeMapbox.Remote) (token : str)
    (stM : GeocodeMapbox.state)
    (rowF : Row) (remoteF : GeocodeMapbox.Remote) (stF : GeocodeMapbox.state)
    (rowP : Row) (remoteP : GeocodePhoton.Remote) (stP : GeocodePhoton.state)
    (rowG : Row) (remoteG : Places.Remote) (stG : Places.state)
    (rowS : Row) (locS : str) (remoteS : GeocodePhoton.Remote)
    (stS : GeocodePhoton.state) (x y : number)
    (rowT : Row) (remoteT : Places.Remote) (stT : Places.state)
    (p : Places.Place)
    (i : nat) :
  resolved rowM = true ->
  centerFound
    (remoteF (GeocodeMapbox.events stF)
       (GeocodeMapbox.mapboxQuery (stripQuotes (trim (orEmpty (location rowF))))))
  = false ->
  GeocodePhoton.coordCache stP
    !! GeocodePhoton.addressKey (Some (GeocodePhoton.location_of rowP)) = None ->
  found (remoteP (GeocodePhoton.events stP)
           (GeocodePhoton.photonQuery (GeocodePhoton.location_of rowP))) = false ->
  placeUsable (Places.findPlaceFromText remoteG (Places.events stG)
                 (Places.query_of (barName_of rowG))) = false ->
  resolve rowS = Some locS ->
  GeocodePhoton.coordCache stS !! GeocodePhoton.addressKey (Some locS) = None ->
  remoteS (GeocodePhoton.events stS) (GeocodePhoton.photonQuery locS)
  = GeocodePhoton.Coordinates x y ->
  Places.findPlaceFromText remoteT (Places.events stT)
    (Places.query_of (barName_of rowT)) = Places.Found p ->
  placeUsable (Places.Found p) = true ->
  (coordsOf (GeocodeMapbox.bars (GeocodeMapbox.step remoteM token stM i rowM))
   = Some (lat rowM, lng rowM) /\
   filter (fun e => isFetch e = true)
     (GeocodeMapbox.events (GeocodeMapbox.step remoteM token stM i rowM))
   = filter (fun e => isFetch e = true) (GeocodeMapbox.events stM)) /\
  coordsOf (GeocodeMapbox.bars (GeocodeMapbox.step remoteF token stF i rowF))
  = Some (lat rowF, lng rowF) /\
  coordsOf (GeocodePhoton.bars (GeocodePhoton.step remoteP stP i rowP))
  = Some (lat rowP, lng rowP) /\
  coordsOf (Places.bars (Places.step remoteG stG i rowG))
  = Some (lat rowG, lng rowG) /\
  coordsOf (GeocodePhoton.bars (GeocodePhoton.step remoteS stS i rowS))
  = Some (Some y, Some x) /\
  coordsOf (Places.bars (Places.step remoteT stT i rowT))
  = Some (Places.p_lat p, Places.p_lng p).
Proof.
  intros HM HF HPk HPr HG HSres HSk HSr HTr HTu.
  split; [by apply mapbox_keeps_resolved|].
  split; [by apply mapbox_keeps_on_failure|].
  split; [by apply photon_keeps_on_failure|].
  split; [by apply places_keeps_on_failure|].
  split; [by apply (photon_replaces_on_success _ _ _ _ locS)|].
  by apply places_replaces_on_success.
Qed.

Lemma coordinates_kept_without_a_result_witness :
  (coordsOf (GeocodeMapbox.bars
               (GeocodeMapbox.step mapboxFindsNothing (lit "pk.token") mapboxStart 0
                  (hornsgatan (Some LAT_59_3) (Some LNG_18_0))))
   = Some (Some LAT_59_3, Some LNG_18_0) /\
   filter (fun e => isFetch e = true)
     (GeocodeMapbox.events
        (GeocodeMapbox.step mapboxFindsNothing (lit "pk.token") mapboxStart 0
           (hornsgatan (Some LAT_59_3) (Some LNG_18_0))))
   = filter (fun e => isFetch e = true) (GeocodeMapbox.events mapboxStart)) /\
  coordsOf (GeocodeMapbox.bars
              (GeocodeMapbox.step mapboxFindsNothing (lit "pk.token") mapboxStart 0
                 (hornsgatan None None)))
  = Some (None, None) /\
  coordsOf (GeocodePhoton.bars
              (GeocodePhoton.step nothingFound (GeocodePhoton.initial "Rows from CSV:") 0
                 (hornsgatan (Some LAT_59_3) (Some LNG_18_0))))
  = Some (Some LAT_59_3, Some LNG_18_0) /\
  coordsOf (Places.bars
              (Places.step placesDown (Places.initial "Rows from CSV:") 0
                 (hornsgatan (Some LAT_59_3) (Some LNG_18_0))))
  = Some (Some LAT_59_3, Some LNG_18_0) /\
  coordsOf (GeocodePhoton.bars
              (GeocodePhoton.step
                 (alwaysAt GeocodeMapbox.PLACEHOLDER_LNG GeocodeMapbox.PLACEHOLDER_LAT)
                 (GeocodePhoton.initial "Rows from CSV:") 0
                 (hornsgatan (Some LAT_59_3) (Some LNG_18_0))))
  = Some (Some GeocodeMapbox.PLACEHOLDER_LAT, Some GeocodeMapbox.PLACEHOLDER_LNG) /\
  coordsOf (Places.bars
              (Places.step placesFindsCentre (Places.initial "Rows from CSV:") 0
                 (hornsgatan (Some LAT_59_3) (Some LNG_18_0))))
  = Some (Places.p_lat centrePlace, Places.p_lng centrePlace).
Proof.
  apply (coordinates_kept_without_a_result
           (hornsgatan (Some LAT_59_3) (Some LNG_18_0)) mapboxFindsNothing
           (lit "pk.token") mapboxStart
           (hornsgatan None None) mapboxFindsNothing mapboxStart
           (hornsgatan (Some LAT_59_3) (Some LNG_18_0)) nothingFound
           (GeocodePhoton.initial "Rows from CSV:")
           (hornsgatan (Some LAT_59_3) (Some LNG_18_0)) placesDown
           (Places.initial "Rows from CSV:")
           (hornsgatan (Some LAT_59_3) (Some LNG_18_0)) (lit "Hornsgatan 66")
           (alwaysAt GeocodeMapbox.PLACEHOLDER_LNG GeocodeMapbox.PLACEHOLDER_LAT)
           (GeocodePhoton.initial "Rows from CSV:")
           GeocodeMapbox.PLACEHOLDER_LNG GeocodeMapbox.PLACEHOLDER_LAT
           (hornsgatan (Some LAT_59_3) (Some LNG_18_0)) placesFindsCentre
           (Places.initial "Rows from CSV:") centrePlace 0%nat).
  - reflexivity.
  - reflexivity.
  - vm_compute. reflexivity.
  - reflexivity.
  - reflexivity.
  - reflexivity.
  - vm_compute. reflexivity.
  - reflexivity.
  - reflexivity.
  - reflexivity.
Defined.

(** C6, as stated, fails: in the Photon variant a row with the resolved
    coordinates 59.3, 18.0 is looked up again, and when the service
    answers with the city-centre placeholder the entry written carries
    the placeholder.  The Places script does the same with a place found
    at the placeholder. *)
Lemma photon_overwrites_resolved_with_placeholder :
  resolved (hornsgatan (Some LAT_59_3) (Some LNG_18_0)) = true /\
  writtenCoords
    (GeocodePhoton.main
       (worldOf (alwaysAt GeocodeMapbox.PLACEHOLDER_LNG GeocodeMapbox.PLACEHOLDER_LAT)
          [hornsgatan (Some LAT_59_3) (Some LNG_18_0)]))
  = [(GeocodePhoton.OUT_PATH,
      [(Some GeocodeMapbox.PLACEHOLDER_LAT, Some GeocodeMapbox.PLACEHOLDER_LNG)])] /\
  writtenCoords
    (Places.main
       {| Places.apiKey := lit "AIza"; Places.INPUT_PATH := lit "bars-info.csv";
          Places.input := Some (Rows [hornsgatan (Some LAT_59_3) (Some LNG_18_0)]);
          Places.remote := placesFindsCentre |})
  = [(Places.OUT_JSON,
      [(Some GeocodeMapbox.PLACEHOLDER_LAT, Some GeocodeMapbox.PLACEHOLDER_LNG)]);
     (Places.OUT_CSV,
      [(Some GeocodeMapbox.PLACEHOLDER_LAT, Some GeocodeMapbox.PLACEHOLDER_LNG)])].
Proof. split; [reflexivity | split; vm_compute; reflexivity]. Qed.

End Coordinates.

(** ** Mood classification *)

Section MoodsProofs.
Import JS Model Moods RunSpec.

Lemma written_app {R} (t u : list (event R)) :
  written (t ++ u) = written t ++ written u.
Proof. apply omap_app. Qed.

Lemma written_snoc_quiet {R} (t : list (event R)) (e : event R) :
  isWrite e = false -> written (t ++ [e]) = written t.
Proof.
  intros He. rewrite written_app. destruct e; try discriminate;
    by rewrite app_nil_r.
Qed.

Lemma fetchReviews_written (remote : Remote) (bar : Bar) (i : nat)
    (t : list (event Bar)) :
  written (fetchReviews remote bar i t).2 = written t.
Proof.
  unfold fetchReviews. destruct (place_id bar) as [[|c s]|]; try done.
  destruct (getPlaceDetailsWithReviews remote t (c :: s)); cbn [snd];
    by rewrite !written_snoc_quiet.
Qed.

(** One iteration: the bar gone through, with its moods set. *)
Lemma step_moods (remote : Remote) (st : state) (i : nat) (bar : Bar) :
  list_ (step remote st i bar)
  = list_ st ++ [setMoods bar (moodsAfter (replyFor remote st i bar) bar)] /\
  written (events (step remote st i bar)) = written (events st).
Proof.
  unfold step, replyFor, moodsAfter.
  pose proof (fetchReviews_written remote bar i (events st)) as Hw.
  destruct (fetchReviews remote bar i (events st)) as [reviews t].
  cbn [fst snd] in *.
  destruct (classifyBarWithOpenAI (openai remote t bar reviews)) as [[|m ms]|];
    cbn [list_ events length Nat.ltb Nat.leb]; (split; [done|]);
    destruct ((i + 1) mod 10 =? 0)%nat;
    by rewrite ?written_snoc_quiet.
Qed.


Lemma elem_of_validMoods (array : option (list jsonValue)) (s : str) :
  s ∈ validMoods array <->
  (exists arr, array = Some arr /\ JString s ∈ arr) /\ s ∈ MOODS.
Proof.
  destruct array as [arr|]; simpl.
  - rewrite list_elem_of_fmap. split.
    + intros (m & -> & Hm). apply list_elem_of_filter in Hm as [Hv Hm].
      destruct m as [s'|]; simpl in *; [|done].
      apply bool_decide_eq_true in Hv. split; [|done]. by exists arr.
    + intros [(arr' & [= <-] & Hin) Hs]. exists (JString s). split; [done|].
      apply list_elem_of_filter. split; [|done]. simpl.
      by apply bool_decide_eq_true.
  - split; [intros H; by apply elem_of_nil in H|].
    by intros [(arr & H & _) _].
Qed.

(** C3 (as amended).  The moods taken from a reply are exactly the strings
    of the returned array that are vocabulary slugs: every other label is
    discarded.  The loop gives the bar these moods when there is at least
    one.  When the array is missing or empty, or every label was
    discarded, a bar that had moods keeps them unchanged, and a bar that
    had none gets the empty array: the bar gets [bar.moods || []], which
    is the value it had when that is truthy, an array or not, and the
    empty array when the property is missing or falsy. *)
Theorem moods_validated_against_vocabulary (remote : Remote) (st : state)
    (i : nat) (bar : Bar) (array : option (list jsonValue)) :
  replyFor remote st i bar = AiReply array ->
  (forall s, s ∈ validMoods array <->
             (exists arr, array = Some arr /\ JString s ∈ arr) /\ s ∈ MOODS) /\
  exists bar',
    list_ (step remote st i bar) = list_ st ++ [bar'] /\
    bar_name bar' = bar_name bar /\
    place_id bar' = place_id bar /\
    (validMoods array <> [] -> moods bar' = Some (labels (validMoods array))) /\
    (validMoods array = [] ->
     moods bar' = Some (priorMoods bar) /\
     (forall v, moods bar = Some v -> truthyJson v = true ->
                moods bar' = moods bar) /\
     (forall m, moods bar = Some (labels m) -> moods bar' = moods bar) /\
     (moods bar = None -> moods bar' = Some (labels []))).
Proof.
  intros Hr. split; [apply elem_of_validMoods|].
  destruct (step_moods remote st i bar) as [Hs _].
  eexists. split; [exact Hs|]. rewrite Hr. unfold moodsAfter. simpl.
  split; [done|]. split; [done|]. split.
  - intros Hne. by destruct (validMoods array).
  - intros ->. split; [done|]. unfold priorMoods. repeat split.
    + intros v Hv Ht. by rewrite Hv, Ht.
    + intros m Hm. by rewrite Hm.
    + by intros ->.
Qed.

Lemma moods_validated_against_vocabulary_witness :
  (forall s, s ∈ validMoods (Some [JString (lit "romantic")]) <->
             (exists arr, Some [JString (lit "romantic")] = Some arr /\ JString s ∈ arr)
             /\ s ∈ MOODS) /\
  exists bar',
    list_ (step repliesRomantic moodsStart 0 (aBar None (Some [lit "chill_date"])))
    = list_ moodsStart ++ [bar'] /\
    bar_name bar' = bar_name (aBar None (Some [lit "chill_date"])) /\
    place_id bar' = place_id (aBar None (Some [lit "chill_date"])) /\
    (validMoods (Some [JString (lit "romantic")]) <> [] ->
     moods bar' = Some (labels (validMoods (Some [JString (lit "romantic")])))) /\
    (validMoods (Some [JString (lit "romantic")]) = [] ->
     moods bar' = Some (priorMoods (aBar None (Some [lit "chill_date"]))) /\
     (forall v, moods (aBar None (Some [lit "chill_date"])) = Some v ->
                truthyJson v = true ->
                moods bar' = moods (aBar None (Some [lit "chill_date"]))) /\
     (forall m, moods (aBar None (Some [lit "chill_date"])) = Some (labels m) ->
                moods bar' = moods (aBar None (Some [lit "chill_date"]))) /\
     (moods (aBar None (Some [lit "chill_date"])) = None ->
      moods bar' = Some (labels []))).
Proof.
  apply (moods_validated_against_vocabulary repliesRomantic moodsStart 0
           (aBar None (Some [lit "chill_date"]))
           (Some [JString (lit "romantic")])).
  reflexivity.
Defined.

(** C3, as stated, fails: a bar without moods, for which every label
    returned is discarded, is written with the empty array, not without
    moods as before. *)
Lemma moods_absent_becomes_empty :
  validMoods (Some [JString (lit "romantic")]) = [] /\
  moods (aBar None None) = None /\
  written (trace (main (moodsWorld repliesRomantic [aBar None None])))
  = [(lit "bars.json", [aBar None (Some [])])].
Proof. repeat split. Qed.







End MoodsProofs.

(** ** Runs: fatal preconditions and failures of single records *)

Section Runs.
Import JS Model ResolverSpec MemoSpec RunSpec.

Lemma photon_lookup_row_written (remote : GeocodePhoton.Remote) (row : Row)
    (cache : gmap str (number * number)) (t : list (event Entry)) :
  written (GeocodePhoton.lookup_row remote row cache t).1.1.2 = written t.
Proof.
  unfold GeocodePhoton.lookup_row.
  destruct (GeocodePhoton.geocodable _); [|done].
  destruct (cache !! _) as [[x y]|] eqn:Hk.
  { by rewrite Hk. }
  unfold GeocodePhoton.geocodePhoton.
  destruct (negb _ || negb _ || isNullWord _).
  { rewrite Hk. cbn [fst snd]. by rewrite written_snoc_quiet. }
  destruct (remote t _) as [| | |x y], (size cache =? 0)%nat;
    rewrite ?lookup_insert_eq, ?Hk; cbn [fst snd];
    by rewrite ?written_snoc_quiet.
Qed.

Lemma photon_step_bars (remote : GeocodePhoton.Remote)
    (st : GeocodePhoton.state) (i : nat) (row : Row) :
  map e_bar_name (GeocodePhoton.bars (GeocodePhoton.step remote st i row))
  = map e_bar_name (GeocodePhoton.bars st) ++ [barName_of row] /\
  written (GeocodePhoton.events (GeocodePhoton.step remote st i row))
  = written (GeocodePhoton.events st).
Proof.
  unfold GeocodePhoton.step.
  pose proof (photon_lookup_row_written remote row (GeocodePhoton.coordCache st)
                (GeocodePhoton.events st)) as Hw.
  destruct (GeocodePhoton.lookup_row _ _ _ _) as [[[cache t] la] ln].
  cbn [fst snd] in Hw. cbn [GeocodePhoton.bars GeocodePhoton.events].
  rewrite map_app. split; [done|].
  destruct ((i + 1) mod 15 =? 0)%nat; by rewrite ?written_snoc_quiet.
Qed.

Lemma photon_loop_bars (remote : GeocodePhoton.Remote) (rows : list Row)
    (st : GeocodePhoton.state) (i : nat) :
  map e_bar_name (GeocodePhoton.bars (GeocodePhoton.loop remote st i rows))
  = map e_bar_name (GeocodePhoton.bars st) ++ map barName_of rows /\
  written (GeocodePhoton.events (GeocodePhoton.loop remote st i rows))
  = written (GeocodePhoton.events st).
Proof.
  revert st i. induction rows as [|row rows IH]; intros st i.
  - by rewrite app_nil_r.
  - simpl. destruct (IH (GeocodePhoton.step remote st i row) (S i)) as [Hb Hw].
    destruct (photon_step_bars remote st i row) as [Hsb Hsw].
    rewrite Hb, Hw, Hsb, Hsw, <- app_assoc. done.
Qed.



Lemma places_findPlace_written (remote : Places.Remote) (st : Places.state)
    (i : nat) (barName : str) :
  written (Places.findPlace remote st i barName).2 = written (Places.events st).
Proof.
  unfold Places.findPlace.
  destruct (Places.findPlaceFromText _ _ _) as [b| |p]; cbn [snd];
    try (by rewrite !written_snoc_quiet).
  destruct (b && negb _); by rewrite !written_snoc_quiet.
Qed.

Lemma places_fetchDetails_written (remote : Places.Remote)
    (place : option Places.Place) (t : list (event Entry)) :
  written (Places.fetchDetails remote place t).2 = written t.
Proof.
  unfold Places.fetchDetails.
  destruct (place ≫= Places.p_place_id) as [[|c s]|]; try done.
  destruct (Places.getPlaceDetails _ _ _); cbn [snd];
    by rewrite !written_snoc_quiet.
Qed.

Lemma places_step_bars (remote : Places.Remote) (st : Places.state) (i : nat)
    (row : Row) :
  map e_bar_name (Places.bars (Places.step remote st i row))
  = map e_bar_name (Places.bars st) ++ [barName_of row] /\
  written (Places.events (Places.step remote st i row))
  = written (Places.events st).
Proof.
  unfold Places.step.
  pose proof (places_findPlace_written remote st i (barName_of row)) as Hf.
  destruct (Places.findPlace _ _ _ _) as [[[place failed'] reported'] t].
  cbn [snd] in Hf.
  pose proof (places_fetchDetails_written remote place t) as Hd.
  destruct (Places.fetchDetails _ _ _) as [[photo rating] t'].
  cbn [snd] in Hd. cbn [Places.bars Places.events].
  rewrite map_app. split; [done|].
  destruct ((i + 1) mod 20 =? 0)%nat; rewrite ?written_snoc_quiet by done;
    congruence.
Qed.

Lemma places_loop_bars (remote : Places.Remote) (rows : list Row)
    (st : Places.state) (i : nat) :
  map e_bar_name (Places.bars (Places.loop remote st i rows))
  = map e_bar_name (Places.bars st) ++ map barName_of rows /\
  written (Places.events (Places.loop remote st i rows))
  = written (Places.events st).
Proof.
  revert st i. induction rows as [|row rows IH]; intros st i.
  - by rewrite app_nil_r.
  - simpl. destruct (IH (Places.step remote st i row) (S i)) as [Hb Hw].
    destruct (places_step_bars remote st i row) as [Hsb Hsw].
    rewrite Hb, Hw, Hsb, Hsw, <- app_assoc. done.
Qed.




(** C8.  A run started without its input file, or without a credential it
    needs, ends with status 1 and has sent no request and written no
    file: the geocoding script without its input; the Mapbox variant
    without a token or without its input; the Places script without an
    API key or without its input; the mood script without either key or
    without its input. *)
Theorem fatal_preconditions_abort_early
    (wP : GeocodePhoton.World) (wM : GeocodeMapbox.World)
    (wG : Places.World) (wC : Moods.World) :
  GeocodePhoton.input wP = None ->
  GeocodeMapbox.token wM = [] \/ GeocodeMapbox.input wM = None ->
  Places.apiKey wG = [] \/ Places.input wG = None ->
  Moods.googleKey wC = [] \/ Moods.openaiKey wC = [] \/ Moods.input wC = None ->
  abortsEarly (GeocodePhoton.main wP) /\
  abortsEarly (GeocodeMapbox.main wM) /\
  abortsEarly (Places.main wG) /\
  abortsEarly (Moods.main wC).
Proof.
  intros HP HM HG HC. unfold abortsEarly.
  split; [|split; [|split]].
  - unfold GeocodePhoton.main. rewrite HP.
    rewrite bool_decide_eq_false_2 by (by intros [? ?]).
    rewrite !andb_false_r. simpl. split; [done|]. by repeat constructor.
  - unfold GeocodeMapbox.main.
    destruct (Csv.nonEmpty (GeocodeMapbox.token wM)) eqn:Ht; simpl;
      [|split; [done|]; by repeat constructor].
    destruct HM as [HM | HM]; [by rewrite HM in Ht|].
    rewrite HM. simpl. split; [done|]. by repeat constructor.
  - unfold Places.main.
    destruct (Csv.nonEmpty (Places.apiKey wG)) eqn:Hk; simpl;
      [|split; [done|]; by repeat constructor].
    destruct HG as [HG | HG]; [by rewrite HG in Hk|].
    rewrite HG. rewrite bool_decide_eq_false_2 by (by intros [? ?]).
    rewrite !andb_false_r. simpl. split; [done|]. by repeat constructor.
  - unfold Moods.main.
    destruct (Csv.nonEmpty (Moods.googleKey wC)) eqn:Hg; simpl;
      [|split; [done|]; by repeat constructor].
    destruct (Csv.nonEmpty (Moods.openaiKey wC)) eqn:Ho; simpl;
      [|split; [done|]; by repeat constructor].
    destruct HC as [HC | [HC | HC]];
      [by rewrite HC in Hg | by rewrite HC in Ho |].
    rewrite HC. simpl. split; [done|]. by repeat constructor.
Qed.

Lemma fatal_preconditions_abort_early_witness :
  abortsEarly (GeocodePhoton.main (photonWorld None)) /\
  abortsEarly (GeocodeMapbox.main
                 (mapboxWorld [] (Some (Rows [hornsgatan None None])))) /\
  abortsEarly (Places.main (placesWorld (lit "AIza") None)) /\
  abortsEarly (Moods.main
                 (moodsWorldWith (lit "AIza") [] (Some (Rows [aBar None None])))).
Proof.
  apply (fatal_preconditions_abort_early
           (photonWorld None)
           (mapboxWorld [] (Some (Rows [hornsgatan None None])))
           (placesWorld (lit "AIza") None)
           (moodsWorldWith (lit "AIza") [] (Some (Rows [aBar None None])))).
  - reflexivity.
  - left. reflexivity.
  - right. reflexivity.
  - right. left. reflexivity.
Defined.

End Runs.

(** ** Trimming *)

Section Trimming.
Import JS.

Lemma trimStart_fixed (s : str) :
  trimStart s = s <-> match s with c :: _ => isWhiteSpace c = false | [] => True end.
Proof.
  destruct s as [|c s]; [done|]. simpl.
  destruct (isWhiteSpace c) eqn:Hc; [|done].
  split; [|done]. intros H.
  assert (Hlen : forall l : str, (length (trimStart l) <= length l)%nat).
  { induction l as [|d l IH]; simpl; [done|].
    destruct (isWhiteSpace d); simpl; lia. }
  specialize (Hlen s). rewrite H in Hlen. simpl in Hlen. lia.
Qed.

Lemma trimStart_idem (s : str) : trimStart (trimStart s) = trimStart s.
Proof.
  induction s as [|c s IH]; [done|]. simpl.
  destruct (isWhiteSpace c) eqn:Hc; [done|]. simpl. by rewrite Hc.
Qed.

Lemma trimStart_suffix (s : str) : exists w, s = w ++ trimStart s.
Proof.
  induction s as [|c s [w IH]]; [by exists []|]. simpl.
  destruct (isWhiteSpace c).
  - exists (c :: w). simpl. by rewrite <- IH.
  - by exists [].
Qed.

Lemma trimEnd_prefix (s : str) : exists w, s = trimEnd s ++ w.
Proof.
  unfold trimEnd. destruct (trimStart_suffix (rev s)) as [w Hw].
  exists (rev w). rewrite <- rev_app_distr, <- Hw. by rewrite rev_involutive.
Qed.

Lemma trimEnd_idem (s : str) : trimEnd (trimEnd s) = trimEnd s.
Proof. unfold trimEnd. by rewrite rev_involutive, trimStart_idem. Qed.

Lemma trimStart_trimEnd (s : str) :
  trimStart s = s -> trimStart (trimEnd s) = trimEnd s.
Proof.
  intros Hs. apply trimStart_fixed. apply trimStart_fixed in Hs.
  destruct (trimEnd_prefix s) as [w Hw].
  destruct (trimEnd s) as [|c r]; [done|].
  rewrite Hw in Hs. done.
Qed.

Lemma trim_idem (s : str) : trim (trim s) = trim s.
Proof.
  unfold trim.
  rewrite (trimStart_trimEnd (trimStart s)) by apply trimStart_idem.
  apply trimEnd_idem.
Qed.

(** A string whose first and last code units are not white space is left
    alone by [trim]. *)
Lemma trimEnd_snoc (s : str) (c : char) :
  isWhiteSpace c = false -> trimEnd (s ++ [c]) = s ++ [c].
Proof.
  intros Hc. unfold trimEnd. rewrite rev_app_distr. simpl. rewrite Hc.
  simpl. by rewrite rev_involutive.
Qed.

Lemma trim_nil : trim [] = [].
Proof. reflexivity. Qed.

Lemma elem_of_trimEnd (x : char) (s : str) : x ∈ trimEnd s -> x ∈ s.
Proof.
  destruct (trimEnd_prefix s) as [w Hw]. intros H. rewrite Hw.
  apply elem_of_app. by left.
Qed.

End Trimming.

(** ** More on the CSV reader *)

Section CsvMore.
Import JS Csv CsvSpec MoreSpec.

(** X1.  A line made of well-formed fields joined by commas is read field
    by field: a comma or a line feed inside quotes stays in the value,
    the quotes are removed, every value is trimmed, and a last field with
    empty content is dropped. *)
Theorem parseCSVLine_reads_wellformed_fields (fs : list field) :
  Forall (fun f => wellFormed f = true) fs ->
  parseCSVLine (line_of fs) = values_of fs.
Proof. apply parseCSVLine_fields. Qed.

Lemma parseCSVLine_reads_wellformed_fields_witness :
  parseCSVLine
    (line_of [mkField false (lit " Kvarnen "); mkField true (lit "Tjarhovsgatan 4, Stockholm");
              mkField true (lit "Mon 16-01" ++ [LF] ++ lit "Fri 14-03")])
  = values_of [mkField false (lit " Kvarnen "); mkField true (lit "Tjarhovsgatan 4, Stockholm");
               mkField true (lit "Mon 16-01" ++ [LF] ++ lit "Fri 14-03")].
Proof.
  apply (parseCSVLine_reads_wellformed_fields
           [mkField false (lit " Kvarnen "); mkField true (lit "Tjarhovsgatan 4, Stockholm");
            mkField true (lit "Mon 16-01" ++ [LF] ++ lit "Fri 14-03")]).
  repeat constructor.
Defined.

Lemma loop_trimmed (line : str) (out : list str) (cur : str) (q : bool) :
  Forall (fun v => trim v = v) out ->
  Forall (fun v => trim v = v) (parseCSVLine_loop line out cur q).1.
Proof.
  revert out cur q. induction line as [|c line IH]; intros out cur q Hout.
  - done.
  - simpl. destruct (c =? QUOTE); [by apply IH|].
    assert (Hpush : Forall (fun v => trim v = v) (out ++ [trim cur])).
    { apply Forall_app. split; [done|]. constructor; [apply trim_idem | done]. }
    destruct (((c =? COMMA) && negb q) || ((c =? LF) && negb q)).
    + destruct (c =? LF); [done|]. by apply IH.
    + by apply IH.
Qed.

(** X2.  Whatever the line, every value [parseCSVLine] returns is trimmed
    and holds no quote character. *)
Theorem parseCSVLine_values_trimmed_unquoted (line : str) :
  Forall (fun v => trim v = v /\ QUOTE ∉ v) (parseCSVLine line).
Proof.
  apply Forall_and. split; [|apply parseCSVLine_no_quote].
  unfold parseCSVLine.
  pose proof (loop_trimmed line [] [] false (Forall_nil_2 _)) as Hout.
  destruct (parseCSVLine_loop line [] [] false) as [out cur]. simpl in Hout.
  destruct cur as [|c cur]; [done|].
  apply Forall_app. split; [done|]. constructor; [apply trim_idem | done].
Qed.

Lemma parseCSV_None_lines (text : str) :
  parseCSV text = None <-> Forall (fun l => l = []) (splitLines text).
Proof.
  unfold parseCSV.
  destruct (filter _ (splitLines text)) as [|first lines] eqn:Hf.
  - split; [intros _|done].
    apply Forall_forall. intros l Hl. destruct l as [|c l]; [done|].
    exfalso. apply (filter_nil_not_elem_of _ _ (c :: l) Hf); done.
  - split; [done|]. intros Hall. exfalso.
    assert (Hin : first ∈ filter (fun l => nonEmpty l = true) (splitLines text))
      by (rewrite Hf; left).
    apply list_elem_of_filter in Hin as [Hne Hin].
    rewrite Forall_forall in Hall. rewrite (Hall _ Hin) in Hne. done.
Qed.

(** The first piece starts with what was read before. *)
Lemma splitLines_from_head (text cur : str) :
  exists l ls, splitLines_from text cur = (cur ++ l) :: ls.
Proof.
  revert cur. induction text as [|c rest IH]; intros cur.
  - exists [], []. by rewrite app_nil_r.
  - simpl. destruct (c =? LF).
    + exists [], (splitLines_from rest []). by rewrite app_nil_r.
    + destruct rest as [|d rest'].
      * exists [c], []. done.
      * destruct ((c =? CR) && (d =? LF)).
        -- exists [], (splitLines_from rest' []). by rewrite app_nil_r.
        -- destruct (IH (cur ++ [c])) as (l & ls & H).
           exists (c :: l), ls. rewrite H. by rewrite <- app_assoc.
Qed.

Lemma splitLines_from_empty (n : nat) (text cur : str) :
  (length text <= n)%nat ->
  Forall (fun l => l = []) (splitLines_from text cur)
  <-> cur = [] /\ onlyLineBreaks text = true.
Proof.
  revert text cur. induction n as [|n IH]; intros text cur Hn.
  - destruct text; [|simpl in Hn; lia]. simpl. rewrite Forall_singleton. tauto.
  - destruct text as [|c rest].
    { simpl. rewrite Forall_singleton. tauto. }
    simpl in Hn. cbn [splitLines_from onlyLineBreaks]. destruct (c =? LF).
    + rewrite Forall_cons, (IH rest []) by lia. tauto.
    + destruct rest as [|d rest'].
      * cbn [splitLines_from]. rewrite Forall_singleton. split.
        -- intros H. by destruct cur.
        -- by intros [_ ?].
      * destruct ((c =? CR) && (d =? LF)).
        -- simpl in Hn. rewrite Forall_cons, (IH rest' []) by lia.
           cbn [andb]. tauto.
        -- cbn [andb]. destruct (splitLines_from_head (d :: rest') (cur ++ [c]))
             as (l & ls & H).
           rewrite H, Forall_cons. split.
           ++ intros [Habs _]. by destruct cur.
           ++ by intros [_ ?].
Qed.

(** X3.  [parseCSV] raises (here [None]) exactly for a text that is made
    of line breaks only, the empty text among them: any other code unit,
    a space or a lone carriage return too, makes a line that is taken for
    the header. *)
Theorem parseCSV_fails_on_line_breaks_only (text : str) :
  parseCSV text = None <-> onlyLineBreaks text = true.
Proof.
  rewrite parseCSV_None_lines. unfold splitLines.
  rewrite (splitLines_from_empty (length text)) by done. tauto.
Qed.

Lemma fillRow_dom (header : list str) (j : nat) (values : list str)
    (row : gmap str str) :
  dom (fillRow header j values row) = dom row ∪ list_to_set (columns header).
Proof.
  revert j row. induction header as [|h header IH]; intros j row; simpl.
  - set_solver.
  - rewrite IH. unfold columns, eqb. rewrite filter_cons.
    destruct (decide (h = PROTO)) as [->|Hne].
    + rewrite bool_decide_eq_true_2 by done.
      destruct (decide (PROTO <> PROTO)); [done|]. done.
    + rewrite bool_decide_eq_false_2 by done.
      destruct (decide (h <> PROTO)); [|done].
      rewrite dom_insert_L. set_solver.
Qed.

Lemma fillRow_other (header : list str) (j : nat) (values : list str)
    (row : gmap str str) (h : str) :
  h ∉ columns header -> fillRow header j values row !! h = row !! h.
Proof.
  intros Hh. apply option_eq. intros v.
  destruct (decide (h ∈ dom row)) as [Hin|Hnot].
  - revert j row Hh Hin. induction header as [|h0 header IH]; intros j row Hh Hin; [done|].
    simpl. unfold columns in Hh. rewrite filter_cons in Hh. unfold eqb.
    destruct (decide (h0 = PROTO)) as [->|Hne].
    + rewrite bool_decide_eq_true_2 by done.
      destruct (decide (PROTO <> PROTO)); [done|]. by apply IH.
    + rewrite bool_decide_eq_false_2 by done.
      destruct (decide (h0 <> PROTO)); [|done].
      apply not_elem_of_cons in Hh as [Hne' Hh].
      rewrite IH; [by rewrite lookup_insert_ne| done |].
      rewrite dom_insert_L. set_solver.
  - assert (Hnone : fillRow header j values row !! h = None).
    { apply not_elem_of_dom. rewrite fillRow_dom. set_solver. }
    rewrite Hnone. apply not_elem_of_dom in Hnot. by rewrite Hnot.
Qed.

(** X4.  When the text has a header line, [parseCSV] gives one row for
    each further non-empty line, and every row has exactly the columns of
    the header, whatever the number of values in its line.  A header cell
    [__proto__] is no column: no row has a property of that name. *)
Theorem parseCSV_rows_have_header_columns (text first : str) (rest : list str) :
  filter (fun l => nonEmpty l = true) (splitLines text) = first :: rest ->
  exists rows,
    parseCSV text = Some rows /\
    length rows = length rest /\
    Forall (fun row => dom row = list_to_set (columns (parseCSVLine first))
                       /\ row !! PROTO = None) rows.
Proof.
  intros Hf. unfold parseCSV. rewrite Hf. eexists. split; [done|].
  split; [by rewrite length_map|].
  apply Forall_forall. intros row Hrow. apply list_elem_of_fmap in Hrow as (l & -> & _).
  split.
  - rewrite fillRow_dom. set_solver.
  - rewrite fillRow_other; [done|]. unfold columns.
    intros [Hne _]%list_elem_of_filter. done.
Qed.

Lemma parseCSV_rows_have_header_columns_witness :
  exists rows,
    parseCSV (lit "bar_name,__proto__,price" ++ [CR; LF; LF] ++ lit "Kvarnen" ++ [LF]
              ++ lit "Pelikan,79,extra") = Some rows /\
    length rows = length [lit "Kvarnen"; lit "Pelikan,79,extra"] /\
    Forall (fun row =>
              dom row = list_to_set (columns (parseCSVLine (lit "bar_name,__proto__,price")))
              /\ row !! PROTO = None) rows.
Proof.
  apply (parseCSV_rows_have_header_columns
           (lit "bar_name,__proto__,price" ++ [CR; LF; LF] ++ lit "Kvarnen" ++ [LF]
            ++ lit "Pelikan,79,extra")
           (lit "bar_name,__proto__,price") [lit "Kvarnen"; lit "Pelikan,79,extra"]).
  reflexivity.
Defined.

Lemma fillRow_last (pre post : list str) (h : str) (j : nat)
    (values : list str) (row : gmap str str) :
  h ∉ post -> h <> PROTO ->
  fillRow (pre ++ h :: post) j values row !! h
  = Some (default [] (values !! (j + length pre)%nat)).
Proof.
  intros Hh Hne. revert j row. induction pre as [|p pre IH]; intros j row; simpl.
  - unfold eqb. rewrite bool_decide_eq_false_2 by done.
    rewrite fillRow_other.
    + rewrite lookup_insert_eq. by rewrite Nat.add_0_r.
    + unfold columns. intros [_ Hin]%list_elem_of_filter. done.
  - rewrite IH. do 3 f_equal. lia.
Qed.

(** X5.  In a row built for a header, a column holds the value at the
    position of the last header cell of that name, and the empty string
    when the line has no value there; the name [__proto__] apart, which
    is never a column of the row, whatever the header. *)
Theorem fillRow_column_value (pre post : list str) (h : str)
    (values : list str) :
  bool_decide (h ∈ post) = false ->
  eqb h PROTO = false ->
  fillRow (pre ++ h :: post) 0 values ∅ !! h
  = Some (default [] (values !! length pre)) /\
  fillRow (pre ++ h :: post) 0 values ∅ !! PROTO = None.
Proof.
  intros Hh%bool_decide_eq_false Hne%bool_decide_eq_false. split.
  - by rewrite fillRow_last.
  - rewrite fillRow_other; [done|]. unfold columns.
    intros [Habs _]%list_elem_of_filter. done.
Qed.

Lemma fillRow_column_value_witness :
  fillRow ([lit "name"; lit "__proto__"] ++ lit "name" :: [lit "lat"]) 0
    [lit "Kvarnen"; lit "85"] ∅ !! lit "name"
  = Some (default [] ([lit "Kvarnen"; lit "85"] !! length [lit "name"; lit "__proto__"])) /\
  fillRow ([lit "name"; lit "__proto__"] ++ lit "name" :: [lit "lat"]) 0
    [lit "Kvarnen"; lit "85"] ∅ !! PROTO = None.
Proof.
  apply (fillRow_column_value [lit "name"; lit "__proto__"] [lit "lat"] (lit "name")
           [lit "Kvarnen"; lit "85"]).
  - vm_compute. reflexivity.
  - vm_compute. reflexivity.
Defined.

Lemma splitLines_from_plain (l rest cur : str) :
  Forall (fun c => c <> LF /\ c <> CR) l ->
  splitLines_from (l ++ rest) cur = splitLines_from rest (cur ++ l).
Proof.
  revert cur. induction l as [|c l IH]; intros cur Hl.
  - by rewrite app_nil_r.
  - inversion_clear Hl as [|? ? [Hlf Hcr] Hl'].
    apply N.eqb_neq in Hlf, Hcr. simpl. rewrite Hlf, Hcr. simpl.
    assert (Hboth : match l ++ rest with
                    | [] => splitLines_from (l ++ rest) (cur ++ [c])
                    | _ :: _ => splitLines_from (l ++ rest) (cur ++ [c])
                    end = splitLines_from (l ++ rest) (cur ++ [c]))
      by (by destruct (l ++ rest)).
    rewrite Hboth, IH by done. by rewrite <- app_assoc.
Qed.

Lemma splitLines_from_LF (text cur : str) :
  splitLines_from (LF :: text) cur = cur :: splitLines_from text [].
Proof. reflexivity. Qed.

Lemma splitLines_from_CRLF (text cur : str) :
  splitLines_from (CR :: LF :: text) cur = cur :: splitLines_from text [].
Proof. reflexivity. Qed.

Lemma splitLines_from_join (sep : str) (first : str) (lines : list str) (cur : str) :
  sep = [LF] \/ sep = [CR; LF] ->
  Forall (Forall (fun c => c <> LF /\ c <> CR)) (first :: lines) ->
  splitLines_from (join sep (first :: lines)) cur
  = (cur ++ first) :: lines.
Proof.
  intros Hsep. revert first cur.
  induction lines as [|l lines IH]; intros first cur Hall.
  - inversion_clear Hall as [|? ? Hf _]. simpl.
    rewrite <- (app_nil_r first) at 1. by rewrite splitLines_from_plain.
  - inversion_clear Hall as [|? ? Hf Hrest].
    change (join sep (first :: l :: lines))
      with (first ++ sep ++ join sep (l :: lines)).
    rewrite splitLines_from_plain by done.
    destruct Hsep as [-> | ->].
    + change ([LF] ++ join [LF] (l :: lines)) with (LF :: join [LF] (l :: lines)).
      by rewrite splitLines_from_LF, IH.
    + change ([CR; LF] ++ join [CR; LF] (l :: lines))
        with (CR :: LF :: join [CR; LF] (l :: lines)).
      by rewrite splitLines_from_CRLF, IH.
Qed.

(** X6.  Lines that hold no line feed and no carriage return, joined by
    line feeds or by carriage return and line feed, are split back into
    the same lines. *)
Theorem splitLines_join_round_trip (first : str) (lines : list str) :
  Forall (Forall (fun c => c <> LF /\ c <> CR)) (first :: lines) ->
  splitLines (join [LF] (first :: lines)) = first :: lines /\
  splitLines (join [CR; LF] (first :: lines)) = first :: lines.
Proof.
  intros Hall. unfold splitLines.
  split; rewrite splitLines_from_join; auto.
Qed.

Lemma splitLines_join_round_trip_witness :
  splitLines (join [LF] (lit "id,bar_name" :: [lit "1,Kvarnen"; []; lit "2,Pelikan"]))
  = lit "id,bar_name" :: [lit "1,Kvarnen"; []; lit "2,Pelikan"] /\
  splitLines (join [CR; LF] (lit "id,bar_name" :: [lit "1,Kvarnen"; []; lit "2,Pelikan"]))
  = lit "id,bar_name" :: [lit "1,Kvarnen"; []; lit "2,Pelikan"].
Proof.
  apply (splitLines_join_round_trip (lit "id,bar_name")
           [lit "1,Kvarnen"; []; lit "2,Pelikan"]).
  repeat constructor; discriminate.
Defined.

End CsvMore.

(** ** Writing a row and reading it back *)

Section ExportImport.
Import JS Csv CsvSpec MoreSpec.

Lemma doubleQuotes_none (s : str) : QUOTE ∉ s -> doubleQuotes s = s.
Proof.
  induction s as [|c s IH]; [done|]. intros H.
  apply not_elem_of_cons in H as [Hc Hs]. unfold doubleQuotes in *. simpl.
  destruct (c =? QUOTE) eqn:E; [apply N.eqb_eq in E; congruence|].
  simpl. by rewrite IH.
Qed.

Lemma values_of_contents (fs : list field) :
  Forall (fun f => trim (content f) = content f) fs ->
  values_of fs = dropEmptyLast (map content fs).
Proof.
  induction fs as [|f fs IH]; intros Hall; [done|].
  inversion_clear Hall as [|? ? Hf Hfs]. destruct fs as [|g fs].
  - simpl. unfold dropEmptyLast. simpl. rewrite Hf. by destruct (content f).
  - change (values_of (f :: g :: fs)) with (trim (content f) :: values_of (g :: fs)).
    rewrite IH, Hf by done. unfold dropEmptyLast.
    change (last (map content (f :: g :: fs))) with (last (map content (g :: fs))).
    destruct (last (map content (g :: fs))) as [[|c l]|]; done.
Qed.

Lemma values_of_raw (fs : list field) :
  values_of fs = map trim (dropEmptyLast (map content fs)).
Proof.
  induction fs as [|f fs IH]; [done|]. destruct fs as [|g fs].
  - simpl. unfold dropEmptyLast. simpl. by destruct (content f).
  - change (values_of (f :: g :: fs)) with (trim (content f) :: values_of (g :: fs)).
    rewrite IH. unfold dropEmptyLast.
    change (last (map content (f :: g :: fs))) with (last (map content (g :: fs))).
    destruct (last (map content (g :: fs))) as [[|c l]|]; done.
Qed.

Lemma escapeCsv_render (v : option str) :
  QUOTE ∉ orEmpty v -> ExportCsv.escapeCsv v = render (exportedField v).
Proof.
  intros Hq. destruct v as [v|]; [|done].
  unfold ExportCsv.escapeCsv, exportedField, render, cellText, needsQuote. simpl.
  rewrite doubleQuotes_none; [done|]. intros H. by apply Hq, elem_of_trim.
Qed.

Lemma exportedField_wellFormed (v : option str) :
  QUOTE ∉ orEmpty v -> wellFormed (exportedField v) = true.
Proof.
  intros Hq. unfold wellFormed, exportedField, needsQuote. simpl.
  assert (Hs : includesChar (cellText v) QUOTE = false).
  { apply includesChar_false. intros H. by apply Hq, elem_of_trim. }
  rewrite Hs.
  by destruct (includesChar (cellText v) COMMA),
       (includesChar (cellText v) LF), (includesChar (cellText v) CR).
Qed.

(** X7.  A row written with [escapeCsv] is read back by [parseCSVLine]:
    when no cell holds a quote character, the values read are the trimmed
    texts of the cells, commas and line breaks inside them included; only
    a last cell that is empty once trimmed is lost. *)
Theorem escapeCsv_row_read_back (cells : list (option str)) :
  Forall (fun v => QUOTE ∉ orEmpty v) cells ->
  parseCSVLine (join [COMMA] (map ExportCsv.escapeCsv cells))
  = dropEmptyLast (map cellText cells).
Proof.
  intros Hq.
  assert (Hline : join [COMMA] (map ExportCsv.escapeCsv cells)
                  = line_of (map exportedField cells)).
  { unfold line_of. rewrite map_map. f_equal. apply map_ext_Forall.
    eapply Forall_impl; [exact Hq|]. intros v Hv. by apply escapeCsv_render. }
  rewrite Hline, parseCSVLine_fields.
  - rewrite values_of_contents.
    + by rewrite map_map.
    + apply Forall_forall. intros f Hf.
      apply list_elem_of_fmap in Hf as (v & -> & _). apply trim_idem.
  - apply Forall_forall. intros f Hf.
    apply list_elem_of_fmap in Hf as (v & -> & Hv).
    apply exportedField_wellFormed. rewrite Forall_forall in Hq. by apply Hq.
Qed.

Lemma escapeCsv_row_read_back_witness :
  parseCSVLine
    (join [COMMA]
       (map ExportCsv.escapeCsv
          [Some (lit "kvarnen"); Some (lit " Tjarhovsgatan 4, Stockholm ");
           None; Some (lit "Mon 16-01" ++ [LF] ++ lit "Fri 14-03")]))
  = dropEmptyLast
      (map cellText
         [Some (lit "kvarnen"); Some (lit " Tjarhovsgatan 4, Stockholm ");
          None; Some (lit "Mon 16-01" ++ [LF] ++ lit "Fri 14-03")]).
Proof.
  apply (escapeCsv_row_read_back
           [Some (lit "kvarnen"); Some (lit " Tjarhovsgatan 4, Stockholm ");
            None; Some (lit "Mon 16-01" ++ [LF] ++ lit "Fri 14-03")]).
  repeat constructor; vm_compute; intros H;
    repeat (inversion H as [|? ? ? H']; clear H; rename H' into H).
Defined.

Lemma places_escape_render (v : option str) :
  QUOTE ∉ orEmpty v -> Places.escape v = render (placesField v).
Proof.
  intros Hq. destruct v as [v|]; [|done].
  unfold Places.escape, placesField, render. simpl in *.
  apply includesChar_false in Hq. rewrite Hq, orb_false_r.
  rewrite doubleQuotes_none; [done|]. by apply includesChar_false.
Qed.

(** X8.  A row written with the [escape] of the Places script is read
    back by [parseCSVLine] when no cell holds a quote character or a line
    feed: the values read are the trimmed texts of the cells, without the
    last one when it is the empty text. *)
Theorem places_escape_row_read_back (cells : list (option str)) :
  Forall (fun v => QUOTE ∉ orEmpty v /\ LF ∉ orEmpty v) cells ->
  parseCSVLine (join [COMMA] (map Places.escape cells))
  = map trim (dropEmptyLast (map orEmpty cells)).
Proof.
  intros Hq.
  assert (Hline : join [COMMA] (map Places.escape cells)
                  = line_of (map placesField cells)).
  { unfold line_of. rewrite map_map. f_equal. apply map_ext_Forall.
    eapply Forall_impl; [exact Hq|]. intros v [Hv _]. by apply places_escape_render. }
  rewrite Hline, parseCSVLine_fields.
  - rewrite values_of_raw, map_map. done.
  - apply Forall_forall. intros f Hf.
    apply list_elem_of_fmap in Hf as (v & -> & Hv).
    rewrite Forall_forall in Hq. destruct (Hq _ Hv) as [Hquote Hlf].
    unfold wellFormed, placesField. simpl.
    apply includesChar_false in Hquote, Hlf. rewrite Hquote, Hlf. simpl.
    by destruct (includesChar (orEmpty v) COMMA).
Qed.

Lemma places_escape_row_read_back_witness :
  parseCSVLine
    (join [COMMA]
       (map Places.escape
          [Some (lit "kvarnen"); Some (lit "Tjarhovsgatan 4, Stockholm"); None;
           Some (lit " 85 ")]))
  = map trim
      (dropEmptyLast
         (map orEmpty
            [Some (lit "kvarnen"); Some (lit "Tjarhovsgatan 4, Stockholm"); None;
             Some (lit " 85 ")])).
Proof.
  apply (places_escape_row_read_back
           [Some (lit "kvarnen"); Some (lit "Tjarhovsgatan 4, Stockholm"); None;
            Some (lit " 85 ")]).
  repeat constructor; vm_compute; intros H;
    repeat (inversion H as [|? ? ? H']; clear H; rename H' into H).
Defined.

End ExportImport.

(** ** More on the geocoding script *)

Section GeocodeMore.
Import JS Model GeocodePhoton ResolverSpec MemoSpec RunSpec MoreSpec.

Lemma collapseFrom_idem (b : bool) (s : str) :
  collapseFrom b (collapseFrom b s) = collapseFrom b s.
Proof.
  revert b. induction s as [|c s IH]; intros b; [done|]. simpl.
  destruct (isWhiteSpace c) eqn:Hc.
  - destruct b; [apply IH|].
    change (collapseFrom false (SPACE :: collapseFrom true s))
      with (SPACE :: collapseFrom true (collapseFrom true s)).
    by rewrite IH.
  - simpl. rewrite Hc. by rewrite IH.
Qed.

Lemma collapseFrom_snoc (b : bool) (s : str) (c : char) :
  isWhiteSpace c = false ->
  collapseFrom b (s ++ [c]) = collapseFrom b s ++ [c].
Proof.
  intros Hc. revert b. induction s as [|d s IH]; intros b; simpl.
  - by rewrite Hc.
  - destruct (isWhiteSpace d); [destruct b|]; by rewrite IH.
Qed.

Lemma collapseFrom_spaces (b : bool) (s : str) (c : char) :
  c ∈ collapseFrom b s -> isWhiteSpace c = true -> c = SPACE.
Proof.
  revert b. induction s as [|d s IH]; intros b; simpl.
  - intros H. by apply elem_of_nil in H.
  - destruct (isWhiteSpace d) eqn:Hd.
    + destruct b; [apply IH|]. intros H Hc.
      apply elem_of_cons in H as [-> | H]; [done | by eapply IH].
    + intros H Hc. apply elem_of_cons in H as [-> | H]; [congruence | by eapply IH].
Qed.

(** A trimmed string is empty or has a first and a last code unit that
    are not white space. *)
Lemma trim_shape (s : str) :
  trim s = [] \/
  exists c r d, trim s = c :: r /\ isWhiteSpace c = false /\
                (exists m, trim s = m ++ [d]) /\ isWhiteSpace d = false.
Proof.
  pose proof (trim_idem s) as Hidem.
  destruct (trim s) as [|c r] eqn:Ht; [by left|]. right.
  assert (Hhead : isWhiteSpace c = false).
  { assert (Hfix : trimStart (c :: r) = c :: r).
    { rewrite <- Ht. unfold trim. apply trimStart_trimEnd, trimStart_idem. }
    by apply trimStart_fixed in Hfix. }
  assert (Hend : trimEnd (c :: r) = c :: r).
  { rewrite <- Ht. unfold trim. apply trimEnd_idem. }
  unfold trimEnd in Hend.
  destruct (rev (c :: r)) as [|d m] eqn:Hrev.
  { apply (f_equal (@length N)) in Hrev. rewrite length_rev in Hrev. done. }
  assert (Hd : isWhiteSpace d = false).
  { destruct (isWhiteSpace d) eqn:Hd; [|done]. exfalso.
    simpl in Hend. rewrite Hd in Hend.
    destruct (trimStart_suffix m) as [w Hw].
    apply (f_equal (@rev N)) in Hrev. rewrite rev_involutive in Hrev.
    apply (f_equal (@length N)) in Hend, Hrev.
    rewrite length_rev in Hend. simpl in Hrev. rewrite length_app, length_rev in Hrev.
    apply (f_equal (@length N)) in Hw. rewrite length_app in Hw. simpl in *. lia. }
  exists c, r, d. split; [done|]. split; [done|]. split; [|done].
  exists (rev m). apply (f_equal (@rev N)) in Hrev.
  rewrite rev_involutive in Hrev. by rewrite Hrev.
Qed.

Lemma trim_collapse_trim (s : str) :
  trim (collapseSpaces (trim s)) = collapseSpaces (trim s).
Proof.
  destruct (trim_shape s) as [-> | (c & r & d & Hcr & Hc & (m & Hm) & Hd)]; [done|].
  unfold collapseSpaces.
  assert (Hlast : collapseFrom false (trim s) = collapseFrom false m ++ [d]).
  { rewrite Hm. by apply collapseFrom_snoc. }
  assert (Hfirst : collapseFrom false (trim s) = c :: collapseFrom false r).
  { rewrite Hcr. simpl. by rewrite Hc. }
  unfold trim.
  assert (Hstart : trimStart (collapseFrom false (trim s)) = collapseFrom false (trim s)).
  { apply trimStart_fixed. by rewrite Hfirst. }
  fold (trim s). rewrite Hstart, Hlast. by apply trimEnd_snoc.
Qed.

(** X9.  [addressKey] is a normal form: computing the key of a key gives
    the key again; an address and its trimmed text have the same key; and
    the only white space left in a key are single spaces between other
    code units. *)
Theorem addressKey_normal_form (loc : option str) (s : str) :
  addressKey (Some (addressKey loc)) = addressKey loc /\
  addressKey (Some (trim s)) = addressKey (Some s) /\
  trim (addressKey loc) = addressKey loc /\
  collapseSpaces (addressKey loc) = addressKey loc /\
  (forall c, c ∈ addressKey loc -> isWhiteSpace c = true -> c = SPACE).
Proof.
  assert (Hkey : forall t : str, addressKey (Some t) = collapseSpaces (trim t)).
  { intros [|c t]; done. }
  assert (Htrim : forall l, trim (addressKey l) = addressKey l).
  { intros [t|]; [|done]. rewrite Hkey. apply trim_collapse_trim. }
  assert (Hcol : forall l, collapseSpaces (addressKey l) = addressKey l).
  { intros [t|]; [|done]. rewrite Hkey. apply collapseFrom_idem. }
  split; [by rewrite Hkey, Htrim, Hcol|].
  split; [by rewrite !Hkey, trim_idem|].
  split; [apply Htrim|]. split; [apply Hcol|].
  intros c Hc Hw. destruct loc as [t|]; [|by apply elem_of_nil in Hc].
  rewrite Hkey in Hc. by eapply collapseFrom_spaces.
Qed.

Lemma includes_app_r (a b p : str) :
  includes b p = true -> includes (a ++ b) p = true.
Proof.
  intros H. induction a as [|c a IH]; [done|]. simpl.
  rewrite IH. by rewrite orb_true_r.
Qed.

(** X10.  The query sent for an address always names Stockholm, and a
    query is its own query: the suffix is added at most once.  The same
    holds for the text that the Mapbox variant encodes into its URL. *)
Theorem geocoding_query_names_Stockholm (address : str) :
  includes (photonQuery address) (lit "Stockholm") = true /\
  photonQuery (photonQuery address) = photonQuery address /\
  includes (GeocodeMapbox.mapboxQuery address) (lit "Stockholm") = true /\
  GeocodeMapbox.mapboxQuery (GeocodeMapbox.mapboxQuery address)
  = GeocodeMapbox.mapboxQuery address.
Proof.
  assert (H : includes (photonQuery address) (lit "Stockholm") = true).
  { unfold photonQuery.
    destruct (includes address (lit "Stockholm")) eqn:E; [done|].
    by apply includes_app_r. }
  split; [done|]. split.
  { unfold photonQuery at 1. by rewrite H. }
  split; [done|].
  unfold GeocodeMapbox.mapboxQuery at 1.
  change (GeocodeMapbox.mapboxQuery address) with (photonQuery address).
  by rewrite H.
Qed.

Lemma pace_app {R} (ms : nat) (p : bool) (t u : list (event R)) :
  pace ms p (t ++ u) = pace ms p t ≫= fun p' => pace ms p' u.
Proof.
  revert p. induction t as [|e t IH]; intros p; [done|].
  destruct e; simpl; try apply IH. destruct p; [done | apply IH].
Qed.

Lemma pace_snoc_console {R} (ms : nat) (t : list (event R))
    (l : level) (text : string) (row : option nat) :
  pace ms false (t ++ [Console l text row]) = pace ms false t.
Proof. rewrite pace_app. by destruct (pace ms false t). Qed.

Lemma lookup_row_pace (remote : Remote) (row : Row)
    (cache : gmap str (number * number)) (t : list (event Entry)) :
  pace 250 false t = Some false ->
  pace 250 false (lookup_row remote row cache t).1.1.2 = Some false.
Proof.
  intros Ht. unfold lookup_row.
  destruct (geocodable (location_of row)); [|done].
  destruct (cache !! addressKey (Some (location_of row))) as [[x y]|] eqn:Hk.
  { by rewrite Hk. }
  unfold geocodePhoton.
  destruct (negb _ || negb _ || isNullWord _).
  { rewrite Hk. cbn [fst snd]. by rewrite pace_app, Ht. }
  destruct (remote t _) as [| | |x y], (size cache =? 0)%nat;
    rewrite ?lookup_insert_eq, ?Hk; cbn [fst snd];
    rewrite !pace_app, Ht; reflexivity.
Qed.

Lemma photon_loop_pace (remote : Remote) (rows : list Row) (st : state) (i : nat) :
  pace 250 false (events st) = Some false ->
  pace 250 false (events (loop remote st i rows)) = Some false.
Proof.
  revert st i. induction rows as [|row rows IH]; intros st i Hst; [done|].
  simpl. apply IH. unfold step.
  pose proof (lookup_row_pace remote row (coordCache st) (events st) Hst) as Hp.
  destruct (lookup_row remote row (coordCache st) (events st)) as [[[cache t] la] ln].
  cbn [fst snd] in Hp. cbn [events].
  destruct ((i + 1) mod 15 =? 0)%nat; [|done].
  by rewrite pace_snoc_console.
Qed.

Lemma mapbox_loop_pace (remote : GeocodeMapbox.Remote) (token : str)
    (rows : list Row) (st : GeocodeMapbox.state) (i : nat) :
  pace 120 false (GeocodeMapbox.events st) = Some false ->
  pace 120 false (GeocodeMapbox.events (GeocodeMapbox.loop remote token st i rows))
  = Some false.
Proof.
  revert st i. induction rows as [|row rows IH]; intros st i Hst; [done|].
  simpl. apply IH. unfold GeocodeMapbox.step.
  assert (Hp : pace 120 false
            (let '(t, _, _) :=
               if GeocodeMapbox.needsGeocoding
                    (stripQuotes (trim (orEmpty (location row)))) (lat row) (lng row)
               then
                 let '(center, t') :=
                   GeocodeMapbox.geocode remote
                     (stripQuotes (trim (orEmpty (location row)))) token
                     (GeocodeMapbox.events st) in
                 match center with
                 | Some (x, y) => (t' ++ [Sleep 120], Some y, Some x)
                 | None => (t' ++ [Sleep 120], lat row, lng row)
                 end
               else (GeocodeMapbox.events st, lat row, lng row) in t) = Some false).
  { destruct (GeocodeMapbox.needsGeocoding _ _ _); [|done].
    unfold GeocodeMapbox.geocode.
    destruct (negb _ || negb _ || eqb _ _).
    - by rewrite pace_app, Hst.
    - destruct (remote _ _) as [| |x y]; rewrite !pace_app, Hst; reflexivity. }
  destruct (if GeocodeMapbox.needsGeocoding _ _ _ then _ else _) as [[t la] ln].
  cbn [GeocodeMapbox.events].
  destruct ((i + 1) mod 10 =? 0)%nat; [|done].
  by rewrite pace_snoc_console.
Qed.

(** X11.  The geocoding runs are paced: in every run of the Photon
    variant each request is followed by a pause of 250 ms before the next
    request is sent, and in every run of the Mapbox variant by a pause of
    120 ms, whatever the service answers. *)
Theorem geocoding_requests_are_paced (wP : World) (wM : GeocodeMapbox.World) :
  pace 250 false (trace (main wP)) = Some false /\
  pace 120 false (trace (GeocodeMapbox.main wM)) = Some false.
Proof.
  split.
  - unfold main.
    assert (Hrun : forall text src, pace 250 false (trace (run wP text src)) = Some false).
    { intros text [|rows]; [done|]. unfold run. cbn [trace].
      rewrite pace_app, photon_loop_pace; done. }
    destruct (isJsonPath _ && _); [apply Hrun|].
    destruct (negb _ && _); [apply Hrun | done].
  - unfold GeocodeMapbox.main.
    destruct (negb _); [done|].
    destruct (GeocodeMapbox.input wM) as [[|rows]|]; try done.
    cbn [trace]. rewrite pace_app, mapbox_loop_pace; done.
Qed.

Lemma lookups_length_step (remote : Remote) (row : Row)
    (cache : gmap str (number * number)) (t : list (event Entry)) :
  (length (lookups remote [] (lookup_row remote row cache t).1.1.2)
   <= S (length (lookups remote [] t)))%nat.
Proof.
  destruct (lookup_row_lookups remote row cache t) as [-> _].
  rewrite length_app. destruct (newLookup remote row cache t) as [[k r]|]; simpl; lia.
Qed.

Lemma step_cacheInv (remote : Remote) (st : state) (i : nat) (row : Row) :
  cacheInv remote st ->
  cacheInv remote (step remote st i row) /\
  (length (lookups remote [] (events (step remote st i row)))
   <= S (length (lookups remote [] (events st))))%nat.
Proof.
  intros [Hdom Hsize]. unfold cacheInv, step.
  pose proof (lookup_row_lookups remote row (coordCache st) (events st)) as [Hl Hm].
  pose proof (newLookup_fresh remote row (coordCache st) (events st)) as Hfresh.
  destruct (lookup_row remote row (coordCache st) (events st)) as [[[cache t] la] ln].
  cbn [fst snd] in Hl, Hm. cbn [events coordCache].
  assert (Hev : lookups remote []
            (if ((i + 1) mod 15 =? 0)%nat
             then t ++ [Console Info "Processed" (Some i)] else t)
          = lookups remote [] t).
  { destruct ((i + 1) mod 15 =? 0)%nat; [by apply lookups_snoc_quiet | done]. }
  rewrite Hev, Hl. clear Hev Hl.
  destruct (newLookup remote row (coordCache st) (events st)) as [[k r]|].
  - specialize (Hfresh k r eq_refl).
    rewrite filter_app, !length_app. simpl.
    destruct r as [| | |x y]; subst cache; cbn [found].
    1-3: (split; [split|lia];
          [ intros k'; rewrite Hdom, elem_of_app, list_elem_of_singleton;
            split; [by left | intros [H | [= _ H]]; done]
          | replace (filter (fun p : str * bool => p.2 = true) [(k, false)])
              with (@nil (str * bool)) by reflexivity;
            simpl; lia ]).
    split; [split|lia].
    + intros k'. rewrite elem_of_app, list_elem_of_singleton.
      destruct (decide (k = k')) as [->|Hne].
      * rewrite lookup_insert_eq. split; [by right | by eauto].
      * rewrite lookup_insert_ne by done. rewrite Hdom.
        split; [by left | intros [H | [= H]]; [done | congruence]].
    + rewrite map_size_insert_None by done.
      replace (filter (fun p : str * bool => p.2 = true) [(k, true)])
        with [(k, true)] by reflexivity.
      simpl. lia.
  - subst cache. rewrite !app_nil_r. split; [done | lia].
Qed.

Lemma loop_cacheInv (remote : Remote) (rows : list Row) (st : state) (i : nat) :
  cacheInv remote st ->
  cacheInv remote (loop remote st i rows) /\
  (length (lookups remote [] (events (loop remote st i rows)))
   <= length rows + length (lookups remote [] (events st)))%nat.
Proof.
  revert st i. induction rows as [|row rows IH]; intros st i Hinv.
  - split; [done | simpl; lia].
  - simpl. destruct (step_cacheInv remote st i row Hinv) as [Hstep Hlen].
    destruct (IH (step remote st i row) (S i) Hstep) as [Hloop Hlen'].
    split; [done | lia].
Qed.

(** X12.  At the end of the loop of the Photon variant the cache holds
    exactly the normalized addresses whose lookup found coordinates, one
    entry for each successful lookup (the number the progress line calls
    unique addresses geocoded), and no more lookups were made than there
    are rows. *)
Theorem photon_cache_holds_found_addresses (remote : Remote) (text : string)
    (rows : list Row) :
  (forall k,
     is_Some (coordCache (loop remote (initial text) 0 rows) !! k) <->
     (k, true) ∈ lookups remote [] (events (loop remote (initial text) 0 rows))) /\
  size (coordCache (loop remote (initial text) 0 rows))
  = length (filter (fun p => p.2 = true)
              (lookups remote [] (events (loop remote (initial text) 0 rows)))) /\
  (length (lookups remote [] (events (loop remote (initial text) 0 rows)))
   <= length rows)%nat.
Proof.
  destruct (loop_cacheInv remote rows (initial text) 0) as [[Hdom Hsize] Hlen].
  - split; [|done]. intros k. simpl. rewrite lookup_empty.
    split; [by intros [? ?] | intros H; by apply elem_of_nil in H].
  - split; [done|]. split; [done|]. simpl in Hlen. lia.
Qed.

End GeocodeMore.

(** ** More on the Places loop and the mood loop *)

Section LoopsMore.
Import JS Model RunSpec MoreSpec.

Lemma count_app {R} (f : event R -> bool) (t u : list (event R)) :
  count f (t ++ u) = (count f t + count f u)%nat.
Proof. induction t as [|e t IH]; simpl; [done|]. rewrite IH. lia. Qed.

Lemma requestsTo_app {R} (s : service) (t u : list (event R)) :
  requestsTo s (t ++ u) = requestsTo s t ++ requestsTo s u.
Proof.
  induction t as [|e t IH]; simpl; [done|].
  destruct e; try done. destruct (sameService _ _); by rewrite ?IH.
Qed.

(** What one iteration of the Places loop does to the counters and to
    the trace. *)
Lemma places_step_facts (remote : Places.Remote) (st : Places.state)
    (i : nat) (row : Row) :
  count isRunError (Places.events st)
  = (if Places.invalidKeyReported st then 1 else 0)%nat ->
  count isRunError (Places.events (Places.step remote st i row))
  = (if Places.invalidKeyReported (Places.step remote st i row) then 1 else 0)%nat /\
  (Places.failed (Places.step remote st i row)
   + count isRowError (Places.events st)
   = Places.failed st + count isRowError (Places.events (Places.step remote st i row)))%nat /\
  (Places.updated (Places.step remote st i row)
   + Places.failed (Places.step remote st i row)
   <= S (Places.updated st + Places.failed st))%nat /\
  requestsTo FindPlace (Places.events (Places.step remote st i row))
  = requestsTo FindPlace (Places.events st) ++ [Places.query_of (barName_of row)] /\
  (length (requestsTo PlaceDetails (Places.events (Places.step remote st i row)))
   <= S (length (requestsTo PlaceDetails (Places.events st))))%nat.
Proof.
  intros Hkey. unfold Places.step, Places.findPlace.
  destruct (Places.findPlaceFromText remote (Places.events st)
              (Places.query_of (barName_of row))) as [b| |p];
    unfold Places.fetchDetails; cbn [mbind option_bind].
  - (* the lookup throws *)
    destruct (Places.invalidKeyReported st) eqn:Hrep, b;
      cbn [andb negb orb Places.events Places.failed Places.updated
           Places.invalidKeyReported truthy];
      destruct ((i + 1) mod 20 =? 0)%nat;
      rewrite ?count_app, ?requestsTo_app, ?length_app, Hkey;
      cbn; rewrite ?app_nil_r, <- ?app_assoc; repeat split; first [done | lia].
  - (* nothing found *)
    cbn [andb negb orb Places.events Places.failed Places.updated
         Places.invalidKeyReported truthy];
      destruct ((i + 1) mod 20 =? 0)%nat;
      rewrite ?count_app, ?requestsTo_app, ?length_app, Hkey;
      destruct (Places.invalidKeyReported st);
      cbn; rewrite ?app_nil_r, <- ?app_assoc; repeat split; first [done | lia].
  - (* a place found *)
    destruct (truthy (Places.formatted_address p)
              && bool_decide (is_Some (Places.p_lat p))
              && bool_decide (is_Some (Places.p_lng p))
              && (negb (truthy (correctAddr_of row))
                  || negb (bool_decide (correctAddr_of row = Places.formatted_address p))));
      destruct (Places.p_place_id p) as [[|c s]|];
      try destruct (Places.getPlaceDetails remote _ _);
      cbn [andb negb orb Places.events Places.failed Places.updated
           Places.invalidKeyReported truthy fst snd];
      destruct ((i + 1) mod 20 =? 0)%nat;
      rewrite ?count_app, ?requestsTo_app, ?length_app, Hkey;
      destruct (Places.invalidKeyReported st);
      cbn; rewrite ?app_nil_r, <- ?app_assoc; repeat split; first [done | lia].
Qed.

Lemma places_loop_facts (remote : Places.Remote) (rows : list Row)
    (st : Places.state) (i : nat) :
  count isRunError (Places.events st)
  = (if Places.invalidKeyReported st then 1 else 0)%nat ->
  count isRunError (Places.events (Places.loop remote st i rows))
  = (if Places.invalidKeyReported (Places.loop remote st i rows) then 1 else 0)%nat /\
  (Places.failed (Places.loop remote st i rows)
   + count isRowError (Places.events st)
   = Places.failed st + count isRowError (Places.events (Places.loop remote st i rows)))%nat /\
  (Places.updated (Places.loop remote st i rows)
   + Places.failed (Places.loop remote st i rows)
   <= length rows + (Places.updated st + Places.failed st))%nat /\
  requestsTo FindPlace (Places.events (Places.loop remote st i rows))
  = requestsTo FindPlace (Places.events st)
    ++ map (fun row => Places.query_of (barName_of row)) rows /\
  (length (requestsTo PlaceDetails (Places.events (Places.loop remote st i rows)))
   <= length rows + length (requestsTo PlaceDetails (Places.events st)))%nat.
Proof.
  revert st i. induction rows as [|row rows IH]; intros st i Hkey.
  - simpl. rewrite app_nil_r. repeat split; try done; lia.
  - destruct (places_step_facts remote st i row Hkey) as (H1 & H2 & H3 & H4 & H5).
    destruct (IH (Places.step remote st i row) (S i) H1) as (I1 & I2 & I3 & I4 & I5).
    simpl. rewrite I4, H4, <- app_assoc. repeat split; try done; simpl in *; lia.
Qed.

(** X13.  The counters of the Places loop are sound.  At the end of the
    loop the count of failed lookups is the number of error lines printed
    for rows, and a row is counted at most once: updated and failed
    together never exceed the number of rows. *)
Theorem places_counters_sound (remote : Places.Remote) (text : string)
    (rows : list Row) :
  Places.failed (Places.loop remote (Places.initial text) 0 rows)
  = count isRowError (Places.events (Places.loop remote (Places.initial text) 0 rows)) /\
  (Places.updated (Places.loop remote (Places.initial text) 0 rows)
   + Places.failed (Places.loop remote (Places.initial text) 0 rows)
   <= length rows)%nat.
Proof.
  destruct (places_loop_facts remote rows (Places.initial text) 0 eq_refl)
    as (_ & H2 & H3 & _).
  change (count isRowError (Places.events (Places.initial text))) with 0%nat in H2.
  simpl in H2, H3. split; lia.
Qed.

(** X14.  The Places loop looks every row up, once and in order: the
    place lookups of the loop are the queries of the rows, name, comma,
    Sodermalm, Stockholm, also for a row without name; and at most one
    details request is made for a row. *)
Theorem places_one_lookup_per_row (remote : Places.Remote) (text : string)
    (rows : list Row) :
  requestsTo FindPlace (Places.events (Places.loop remote (Places.initial text) 0 rows))
  = map (fun row => Places.query_of (barName_of row)) rows /\
  (length (requestsTo PlaceDetails
             (Places.events (Places.loop remote (Places.initial text) 0 rows)))
   <= length rows)%nat.
Proof.
  destruct (places_loop_facts remote rows (Places.initial text) 0 eq_refl)
    as (_ & _ & _ & H4 & H5).
  split; [exact H4|]. simpl in H5. lia.
Qed.

(** X15.  A run of the Places script prints at most one error line that
    is not about a row: the line for a missing precondition, or, however
    many lookups fail on an invalid key, the one report of the invalid
    key. *)
Theorem places_invalid_key_reported_once (w : Places.World) :
  (count isRunError (trace (Places.main w)) <= 1)%nat.
Proof.
  unfold Places.main.
  assert (Hrun : forall text src,
            (count isRunError (trace (Places.run w text src)) <= 1)%nat).
  { intros text [|rows]; [by cbn|]. unfold Places.run. cbn [trace].
    destruct (places_loop_facts (Places.remote w) rows (Places.initial text) 0 eq_refl)
      as (H1 & _).
    rewrite count_app, H1.
    destruct (Places.invalidKeyReported _); cbn; lia. }
  destruct (negb _); [by cbn|].
  destruct (isJsonPath _ && _); [apply Hrun|].
  destruct (negb _ && _); [apply Hrun | by cbn].
Qed.

(** What one iteration of the mood loop does to the counters and to the
    trace. *)
Lemma moods_step_facts (remote : Moods.Remote) (st : Moods.state) (i : nat)
    (bar : Moods.Bar) :
  (Moods.done (Moods.step remote st i bar) + Moods.failed (Moods.step remote st i bar)
   = S (Moods.done st + Moods.failed st))%nat /\
  (Moods.failed (Moods.step remote st i bar)
   + count isOpenAiWarning (Moods.events st)
   = Moods.failed st + count isOpenAiWarning (Moods.events (Moods.step remote st i bar)))%nat /\
  requestsTo OpenAI (Moods.events (Moods.step remote st i bar))
  = requestsTo OpenAI (Moods.events st) ++ [orEmpty (Moods.bar_name bar)] /\
  requestsTo PlaceReviews (Moods.events (Moods.step remote st i bar))
  = requestsTo PlaceReviews (Moods.events st) ++ placeIdOf bar.
Proof.
  unfold Moods.step, Moods.fetchReviews, placeIdOf.
  destruct (Moods.place_id bar) as [[|c s]|];
    try destruct (Moods.getPlaceDetailsWithReviews remote _ _);
    destruct (Moods.classifyBarWithOpenAI _);
    cbn [Moods.events Moods.done Moods.failed];
    destruct ((i + 1) mod 10 =? 0)%nat;
    rewrite ?count_app, ?requestsTo_app, <- ?app_assoc;
    cbn; rewrite ?app_nil_r, <- ?app_assoc; repeat split; first [done | lia].
Qed.

Lemma moods_loop_facts (remote : Moods.Remote) (bars : list Moods.Bar)
    (st : Moods.state) (i : nat) :
  (Moods.done (Moods.loop remote st i bars) + Moods.failed (Moods.loop remote st i bars)
   = length bars + (Moods.done st + Moods.failed st))%nat /\
  (Moods.failed (Moods.loop remote st i bars)
   + count isOpenAiWarning (Moods.events st)
   = Moods.failed st + count isOpenAiWarning (Moods.events (Moods.loop remote st i bars)))%nat /\
  requestsTo OpenAI (Moods.events (Moods.loop remote st i bars))
  = requestsTo OpenAI (Moods.events st)
    ++ map (fun bar => orEmpty (Moods.bar_name bar)) bars /\
  requestsTo PlaceReviews (Moods.events (Moods.loop remote st i bars))
  = requestsTo PlaceReviews (Moods.events st) ++ concat (map placeIdOf bars).
Proof.
  revert st i. induction bars as [|bar bars IH]; intros st i.
  - simpl. rewrite !app_nil_r. repeat split; done.
  - destruct (moods_step_facts remote st i bar) as (H1 & H2 & H3 & H4).
    destruct (IH (Moods.step remote st i bar) (S i)) as (I1 & I2 & I3 & I4).
    simpl. rewrite I3, I4, H3, H4, <- !app_assoc.
    repeat split; try done; simpl in *; lia.
Qed.

(** X16.  The mood loop classifies every bar exactly once: as many
    requests to the model as there are bars; reviews are asked, in order,
    for the bars that have a place id and for no other; every bar is
    counted as done or as failed, so the two counters add up to the
    number of bars; and failed is the number of warnings printed for a
    classification that threw. *)
Theorem moods_loop_counts_every_bar (remote : Moods.Remote)
    (bars : list Moods.Bar) :
  (Moods.done (Moods.loop remote moodsStart 0 bars)
   + Moods.failed (Moods.loop remote moodsStart 0 bars) = length bars)%nat /\
  Moods.failed (Moods.loop remote moodsStart 0 bars)
  = count isOpenAiWarning (Moods.events (Moods.loop remote moodsStart 0 bars)) /\
  length (requestsTo OpenAI (Moods.events (Moods.loop remote moodsStart 0 bars)))
  = length bars /\
  requestsTo PlaceReviews (Moods.events (Moods.loop remote moodsStart 0 bars))
  = concat (map placeIdOf bars).
Proof.
  destruct (moods_loop_facts remote bars moodsStart 0) as (H1 & H2 & H3 & H4).
  change (count isOpenAiWarning (Moods.events moodsStart)) with 0%nat in H2.
  simpl in H1, H2. rewrite H3. simpl. rewrite length_map.
  repeat split; try done; lia.
Qed.





End LoopsMore.

(** ** The readers of keys and tokens *)

Section Readers.
Import JS Credentials ReaderSpec.

(** Equations between concatenations, up to associativity. *)
Ltac list_eq :=
  unfold char in *; cbn [app];
  repeat (rewrite ?app_nil_r, <- ?app_assoc; cbn [app]);
  reflexivity.

Lemma trimStart_blank (pad s : str) :
  blank pad = true -> trimStart (pad ++ s) = trimStart s.
Proof.
  induction pad as [|c pad IH]; [done|]. simpl.
  intros [Hc Hpad]%andb_true_iff. rewrite Hc. by apply IH.
Qed.

Lemma blank_rev (pad : str) : blank pad = true -> blank (rev pad) = true.
Proof.
  unfold blank. rewrite !forallb_forall. intros H c Hc.
  apply H. by apply in_rev.
Qed.

Lemma blank_app (a b : str) :
  blank a = true -> blank b = true -> blank (a ++ b) = true.
Proof.
  intros Ha Hb. induction a as [|c a IH]; [done|]. simpl in *.
  apply andb_true_iff in Ha as [-> Ha]. by apply IH.
Qed.

Lemma trimEnd_blank (pad s : str) :
  blank pad = true -> trimEnd (s ++ pad) = trimEnd s.
Proof.
  intros Hpad. unfold trimEnd. rewrite rev_app_distr.
  by rewrite trimStart_blank by by apply blank_rev.
Qed.

Lemma trimStart_solid (c : char) (s : str) :
  isWhiteSpace c = false -> trimStart (c :: s) = c :: s.
Proof. intros Hc. simpl. by rewrite Hc. Qed.

(** A text between two blanks, starting and ending with a code unit that
    is no white space, is what [trim] leaves. *)
Lemma trim_core (pad0 pad1 s : str) (c d : char) :
  blank pad0 = true -> blank pad1 = true ->
  isWhiteSpace c = false -> isWhiteSpace d = false ->
  trim (pad0 ++ (c :: s ++ [d]) ++ pad1) = c :: s ++ [d].
Proof.
  intros H0 H1 Hc Hd. unfold trim.
  rewrite trimStart_blank by done.
  change ((c :: s ++ [d]) ++ pad1) with (c :: (s ++ [d]) ++ pad1).
  rewrite trimStart_solid by done.
  change (c :: (s ++ [d]) ++ pad1) with ((c :: s ++ [d]) ++ pad1).
  rewrite trimEnd_blank by done.
  change (c :: s ++ [d]) with ((c :: s) ++ [d]). by apply trimEnd_snoc.
Qed.

Lemma trim_solid (s s1 s0 : str) (c d : char) :
  s = c :: s1 -> s = s0 ++ [d] ->
  isWhiteSpace c = false -> isWhiteSpace d = false -> trim s = s.
Proof.
  intros Hc Hd Hwc Hwd. unfold trim.
  assert (trimStart s = s) as -> by (rewrite Hc; by apply trimStart_solid).
  rewrite Hd. by apply trimEnd_snoc.
Qed.

Lemma trim_pad_solid (pad s s1 s0 : str) (c d : char) :
  blank pad = true -> s = c :: s1 -> s = s0 ++ [d] ->
  isWhiteSpace c = false -> isWhiteSpace d = false -> trim (pad ++ s) = s.
Proof.
  intros Hpad Hc Hd Hwc Hwd. unfold trim. rewrite trimStart_blank by done.
  by apply (trim_solid s s1 s0 c d).
Qed.

Lemma trim_core_left (pad0 s : str) (c d : char) :
  blank pad0 = true -> isWhiteSpace c = false -> isWhiteSpace d = false ->
  trim (pad0 ++ c :: s ++ [d]) = c :: s ++ [d].
Proof.
  intros H0 Hc Hd. pose proof (trim_core pad0 [] s c d H0 eq_refl Hc Hd) as H.
  by rewrite app_nil_r in H.
Qed.

Lemma headIs_solid (mark : char) (pre : str) (c : char) (t : str) :
  Forall (fun d => d <> mark) pre -> isWhiteSpace c = false -> c <> mark ->
  headIs mark (pre ++ c :: t) = false.
Proof.
  intros Hpre Hc Hm. unfold headIs.
  induction Hpre as [|d pre Hd Hpre IH]; simpl.
  - rewrite Hc. by apply N.eqb_neq.
  - destruct (isWhiteSpace d); [done|]. by apply N.eqb_neq.
Qed.

Lemma headIs_unmarked (mark : char) (s : str) :
  Forall (fun d => d <> mark) s -> headIs mark s = false.
Proof.
  unfold headIs. induction 1 as [|d s Hd Hs IH]; simpl; [done|].
  destruct (isWhiteSpace d); [done|]. by apply N.eqb_neq.
Qed.

(** Nothing is cut before a code unit that is neither white space nor
    the mark the pattern needs first, when no mark comes before it. *)
Lemma cutAt_solid (here : str -> bool) (mark : char) (pre : str) (c : char)
    (t : str) :
  (forall s, headIs mark s = false -> here s = false) ->
  Forall (fun d => d <> mark) pre -> isWhiteSpace c = false -> c <> mark ->
  cutAt here (pre ++ c :: t) = pre ++ c :: cutAt here t.
Proof.
  intros Hhere Hpre Hc Hm. induction Hpre as [|d pre Hd Hpre IH].
  - simpl. rewrite Hhere; [done|].
    by apply (headIs_solid mark []).
  - change ((d :: pre) ++ c :: t) with (d :: pre ++ c :: t).
    cbn [cutAt]. rewrite Hhere; [simpl; f_equal; exact IH|].
    apply (headIs_solid mark (d :: pre)); [by constructor | done | done].
Qed.

Lemma cutAt_unmarked (here : str -> bool) (mark : char) (s : str) :
  (forall s, headIs mark s = false -> here s = false) ->
  Forall (fun d => d <> mark) s -> cutAt here s = s.
Proof.
  intros Hhere. induction 1 as [|d s Hd Hs IH]; [done|].
  cbn [cutAt]. rewrite Hhere; [f_equal; exact IH|].
  apply headIs_unmarked. by constructor.
Qed.

Lemma cutAt_here (here : str -> bool) (t : str) :
  here t = true -> cutAt here t = [].
Proof. intros H. destruct t; [done|]. simpl. by rewrite H. Qed.

Lemma commentHere_head (s : str) :
  headIs HASH s = false -> commentHere s = false.
Proof.
  unfold headIs, commentHere. destruct (trimStart s); [done|].
  by intros ->.
Qed.

Lemma semicolonsHere_head (s : str) :
  headIs SEMICOLON s = false -> semicolonsHere s = false.
Proof.
  unfold headIs, semicolonsHere. destruct (trimStart s); [done|].
  by intros ->.
Qed.

Lemma blank_unmarked (mark : char) (pad : str) :
  isWhiteSpace mark = false -> blank pad = true ->
  Forall (fun d => d <> mark) pad.
Proof.
  intros Hm Hpad. apply Forall_forall. intros d Hd ->.
  unfold blank in Hpad. rewrite forallb_forall in Hpad.
  apply list_elem_of_In in Hd. apply Hpad in Hd. congruence.
Qed.

Lemma unmarked_check (mark : char) (s : str) :
  forallb (fun d => negb (d =? mark)) s = true ->
  Forall (fun d => d <> mark) s.
Proof.
  rewrite forallb_forall. intros H. apply Forall_forall. intros d Hd.
  apply list_elem_of_In, H, negb_true_iff in Hd. by apply N.eqb_neq.
Qed.

Lemma keyChar_spec (c : char) :
  keyChar c = true ->
  isWhiteSpace c = false /\ c <> HASH /\ c <> SEMICOLON /\ c <> QUOTE
  /\ c <> APOSTROPHE.
Proof.
  unfold keyChar, isQuoteChar.
  rewrite !andb_true_iff, !negb_true_iff, orb_false_iff, !N.eqb_neq.
  tauto.
Qed.

(** A plain text has a first and a last code unit, both of them plain. *)
Lemma keyText_ends (s : str) :
  keyText s = true ->
  Forall (fun c => keyChar c = true) s /\
  (exists c s', s = c :: s' /\ keyChar c = true) /\
  (exists s' d, s = s' ++ [d] /\ keyChar d = true).
Proof.
  unfold keyText. intros [Hne Hall]%andb_true_iff.
  assert (HF : Forall (fun c => keyChar c = true) s).
  { apply Forall_forall. intros c Hc. rewrite forallb_forall in Hall.
    apply Hall. by apply list_elem_of_In. }
  split; [done|]. split.
  - destruct s as [|c s']; [done|]. exists c, s'. split; [done|].
    by inversion HF.
  - destruct s as [|c s'] using rev_ind; [done|]. exists s', c.
    split; [done|]. apply Forall_app in HF as [_ HF]. by inversion HF.
Qed.

Lemma keyText_unmarked (mark : char) (s : str) :
  keyChar mark = false -> Forall (fun c => keyChar c = true) s ->
  Forall (fun d => d <> mark) s.
Proof.
  intros Hm Hs. eapply Forall_impl; [exact Hs|].
  intros c Hc ->. congruence.
Qed.

Lemma dropSemicolons_repeat (k : nat) (s : str) :
  dropSemicolons (repeat SEMICOLON k ++ s) = dropSemicolons s.
Proof. induction k as [|k IH]; [done|]. simpl. exact IH. Qed.

Lemma dropSemicolons_blank (pad : str) :
  blank pad = true -> dropSemicolons pad = pad.
Proof.
  destruct pad as [|c pad]; [done|]. simpl.
  intros [Hc _]%andb_true_iff.
  destruct (c =? SEMICOLON) eqn:E; [|done].
  apply N.eqb_eq in E. subst c. done.
Qed.

Lemma trimStart_all_blank (pad : str) : blank pad = true -> trimStart pad = [].
Proof.
  intros H. rewrite <- (app_nil_r pad). by rewrite trimStart_blank.
Qed.

(** Semicolons with white space around them, at the end, are a match. *)
Lemma semicolonsHere_trailer (pad3 pad4 : str) (k : nat) :
  blank pad3 = true -> blank pad4 = true ->
  semicolonsHere (pad3 ++ repeat SEMICOLON (S k) ++ pad4) = true.
Proof.
  intros H3 H4. unfold semicolonsHere. rewrite trimStart_blank by done.
  cbn [repeat app trimStart]. change (isWhiteSpace SEMICOLON) with false.
  cbn iota. rewrite N.eqb_refl, dropSemicolons_repeat.
  rewrite dropSemicolons_blank by done. by rewrite trimStart_all_blank.
Qed.

Lemma startsWith_app (p s : str) : startsWith (p ++ s) p = true.
Proof.
  induction p as [|c p IH]; [by destruct s|]. cbn [app startsWith].
  rewrite N.eqb_refl. exact IH.
Qed.

Lemma afterChar_app (c : char) (pre s : str) :
  Forall (fun d => d <> c) pre -> afterChar c (pre ++ c :: s) = Some s.
Proof.
  induction 1 as [|d pre Hd Hpre IH]; simpl.
  - by rewrite N.eqb_refl.
  - apply N.eqb_neq in Hd. by rewrite Hd.
Qed.

Lemma unquote_plain (c : char) (s : str) :
  c <> QUOTE -> c <> APOSTROPHE -> unquote (c :: s) = c :: s.
Proof.
  intros Hq Ha. unfold unquote. cbn [startsWith].
  apply not_eq_sym, N.eqb_neq in Hq. apply not_eq_sym, N.eqb_neq in Ha.
  by rewrite Hq, Ha.
Qed.

(** The value of a line whose text after the key is a plain value and
    semicolons. *)
Lemma valueOf_plain (value : str) (k : nat) :
  keyText value = true ->
  valueOf (value ++ repeat SEMICOLON k) = Some value.
Proof.
  intros Hv. destruct (keyText_ends value Hv) as (Hall & (c & s' & Hc & Hkc) & (s0 & d & Hd & Hkd)).
  unfold valueOf, stripSemicolons.
  assert (Hcut : cutAt semicolonsHere (value ++ repeat SEMICOLON k) = value).
  { rewrite Hd, <- app_assoc. cbn [app].
    apply keyChar_spec in Hkd as (Hw & _ & Hs & _).
    rewrite (cutAt_solid _ SEMICOLON); [|apply semicolonsHere_head| |done|done].
    - destruct k as [|k]; [done|].
      rewrite cutAt_here; [done|].
      rewrite <- (app_nil_r (repeat SEMICOLON (S k))).
      by apply (semicolonsHere_trailer [] [] k).
    - apply (keyText_unmarked SEMICOLON); [done|].
      rewrite Hd in Hall. by apply Forall_app in Hall as [Hall _]. }
  rewrite Hcut.
  pose proof (keyChar_spec c Hkc) as (Hw & _ & _ & Hq & Ha).
  rewrite Hc at 1 2. rewrite unquote_plain by done.
  f_equal. unfold trim. rewrite trimStart_solid by done.
  unfold char in *. rewrite <- Hc, Hd.
  apply trimEnd_snoc. by apply keyChar_spec in Hkd as (? & _).
Qed.

Lemma firstValue_skip (ofLine : str -> option str) (pre rest : list str) :
  Forall (fun l => ofLine l = None) pre ->
  firstValue ofLine (pre ++ rest) = firstValue ofLine rest.
Proof.
  induction 1 as [|l pre Hl Hpre IH]; [done|]. simpl. by rewrite Hl.
Qed.

(** The value of one line of [.env] that assigns a plain value. *)
Lemma envKeyLine_assignment (pad0 name pad1 pad2 value : str) (k : nat)
    (pad3 comment : str) :
  keyText name = true -> keyText value = true ->
  blank pad0 = true -> blank pad1 = true -> blank pad2 = true ->
  blank pad3 = true -> isComment comment = true ->
  envKeyLine name (envAssignment pad0 name pad1 pad2 value k pad3 comment)
  = Some value.
Proof.
  intros Hn Hv H0 H1 H2 H3 Hcm.
  destruct (keyText_ends name Hn) as (Hnall & (nc & ns & Hnc & Hknc) & _).
  destruct (keyText_ends value Hv) as (Hvall & (vc & vs & Hvc & Hkvc) & (v0 & vd & Hvd & Hkvd)).
  assert (Hnw : isWhiteSpace nc = false)
    by (by apply keyChar_spec in Hknc as (? & _)).
  (* the text up to the last code unit of the value and the semicolons *)
  set (core := name ++ pad1 ++ [EQUALS] ++ pad2 ++ value ++ repeat SEMICOLON k).
  assert (Hlast : exists body l, core = nc :: body ++ [l]
                                 /\ isWhiteSpace l = false /\ l <> HASH).
  { destruct k as [|k].
    - exists (ns ++ pad1 ++ [EQUALS] ++ pad2 ++ v0), vd.
      apply keyChar_spec in Hkvd as (? & ? & _).
      split; [|done]. unfold core. rewrite Hnc, Hvd. list_eq.
    - exists (ns ++ pad1 ++ [EQUALS] ++ pad2 ++ value ++ repeat SEMICOLON k),
             SEMICOLON.
      split; [|done]. unfold core. rewrite Hnc.
      replace (repeat SEMICOLON (S k)) with (repeat SEMICOLON k ++ [SEMICOLON])
        by (by rewrite <- repeat_cons).
      list_eq. }
  destruct Hlast as (body & l & Hcore & Hl & Hlh).
  assert (Hfree : Forall (fun d => d <> HASH) (pad0 ++ core)).
  { unfold core. rewrite !Forall_app. repeat split.
    - by apply blank_unmarked.
    - by apply (keyText_unmarked HASH).
    - by apply blank_unmarked.
    - by repeat constructor.
    - by apply blank_unmarked.
    - by apply (keyText_unmarked HASH).
    - apply Forall_forall. intros d Hd%list_elem_of_In%repeat_spec. by subst d. }
  assert (Htrimmed :
    trim (stripComment (envAssignment pad0 name pad1 pad2 value k pad3 comment))
    = core).
  { unfold envAssignment, stripComment.
    replace (pad0 ++ name ++ pad1 ++ [EQUALS] ++ pad2 ++ value
             ++ repeat SEMICOLON k ++ pad3 ++ comment)
      with ((pad0 ++ core) ++ pad3 ++ comment)
      by (unfold core; list_eq).
    destruct comment as [|h text].
    - rewrite app_nil_r.
      rewrite (cutAt_unmarked _ HASH); [|apply commentHere_head|].
      + rewrite <- app_assoc, Hcore. by apply trim_core.
      + apply Forall_app. split; [done|]. by apply blank_unmarked.
    - rewrite Hcore in *.
      replace ((pad0 ++ nc :: body ++ [l]) ++ pad3 ++ h :: text)
        with ((pad0 ++ nc :: body) ++ l :: pad3 ++ h :: text)
        by list_eq.
      rewrite (cutAt_solid _ HASH); [|apply commentHere_head| |done|done].
      + rewrite cutAt_here.
        * rewrite <- app_assoc. by apply (trim_core_left pad0 body nc l).
        * unfold commentHere. rewrite trimStart_blank by done.
          simpl in Hcm. apply andb_true_iff in Hcm as [Hh Htext].
          apply N.eqb_eq in Hh. subst h.
          change (trimStart (HASH :: text)) with (HASH :: text).
          cbn iota. by rewrite N.eqb_refl.
      + replace (pad0 ++ nc :: body ++ [l]) with ((pad0 ++ nc :: body) ++ [l])
          in Hfree by list_eq.
        by apply Forall_app in Hfree as [Hfree _]. }
  unfold envKeyLine. rewrite Htrimmed. unfold core.
  rewrite startsWith_app, drop_app_length.
  assert (Hassign : stripAssign (pad1 ++ [EQUALS] ++ pad2 ++ value ++ repeat SEMICOLON k)
                    = value ++ repeat SEMICOLON k).
  { unfold stripAssign. rewrite trimStart_blank by done. cbn [app].
    change (trimStart (EQUALS :: pad2 ++ value ++ repeat SEMICOLON k))
      with (EQUALS :: pad2 ++ value ++ repeat SEMICOLON k).
    cbn iota. rewrite N.eqb_refl, trimStart_blank by done.
    rewrite Hvc. apply trimStart_solid. by apply keyChar_spec in Hkvc as (? & _). }
  rewrite Hassign.
  assert (Htrim : trim (value ++ repeat SEMICOLON k) = value ++ repeat SEMICOLON k).
  { pose proof (keyChar_spec vc Hkvc) as (Hw & _).
    pose proof (keyChar_spec vd Hkvd) as (Hwd & _).
    destruct k as [|k].
    - apply (trim_solid _ vs v0 vc vd); [rewrite Hvc|rewrite Hvd| |]; try done;
        list_eq.
    - apply (trim_solid _ (vs ++ repeat SEMICOLON (S k))
               (value ++ repeat SEMICOLON k) vc SEMICOLON);
        [rewrite Hvc| | |]; try done.
      replace (repeat SEMICOLON (S k)) with (repeat SEMICOLON k ++ [SEMICOLON])
        by (by rewrite <- repeat_cons).
      list_eq. }
  rewrite Htrim. by apply valueOf_plain.
Qed.

(** The value of one line of [.env] for the reader of the Places
    script. *)
Lemma apiKeyLine_assignment (pad0 pad1 pad2 value pad3 : str) (k : nat)
    (pad4 : str) :
  keyText value = true ->
  blank pad0 = true -> blank pad1 = true -> blank pad2 = true ->
  blank pad3 = true -> blank pad4 = true ->
  apiKeyLine (apiAssignment pad0 pad1 pad2 value pad3 k pad4) = Some value.
Proof.
  intros Hv H0 H1 H2 H3 H4.
  destruct (keyText_ends value Hv)
    as (Hvall & (vc & vs & Hvc & Hkvc) & (v0 & vd & Hvd & Hkvd)).
  pose proof (keyChar_spec vc Hkvc) as (Hwc & _).
  pose proof (keyChar_spec vd Hkvd) as (Hwd & _ & Hsd & _).
  set (core := GOOGLE_PLACES_API_KEY ++ pad1 ++ [EQUALS] ++ pad2 ++ value).
  assert (Hcore : core = 71 :: (lit "OOGLE_PLACES_API_KEY" ++ pad1 ++ [EQUALS] ++ pad2 ++ v0)
                         ++ [vd]).
  { unfold core. rewrite Hvd. list_eq. }
  assert (Hfree : Forall (fun d => d <> SEMICOLON) core).
  { unfold core. rewrite !Forall_app. repeat split.
    - by apply unmarked_check.
    - by apply blank_unmarked.
    - by repeat constructor.
    - by apply blank_unmarked.
    - by apply (keyText_unmarked SEMICOLON). }
  assert (Htrimmed :
    trim (stripSemicolons (trimStart (apiAssignment pad0 pad1 pad2 value pad3 k pad4)))
    = core).
  { unfold apiAssignment, stripSemicolons. rewrite trimStart_blank by done.
    replace (GOOGLE_PLACES_API_KEY ++ pad1 ++ [EQUALS] ++ pad2 ++ value
             ++ pad3 ++ repeat SEMICOLON k ++ pad4)
      with (core ++ pad3 ++ repeat SEMICOLON k ++ pad4)
      by (unfold core; list_eq).
    assert (Hstart : trimStart (core ++ pad3 ++ repeat SEMICOLON k ++ pad4)
                     = core ++ pad3 ++ repeat SEMICOLON k ++ pad4).
    { rewrite Hcore. by apply trimStart_solid. }
    rewrite Hstart. destruct k as [|k].
    - cbn [repeat app].
      rewrite (cutAt_unmarked _ SEMICOLON); [|apply semicolonsHere_head|].
      + rewrite Hcore.
        pose proof (trim_core [] (pad3 ++ pad4)
                      (lit "OOGLE_PLACES_API_KEY" ++ pad1 ++ [EQUALS] ++ pad2 ++ v0)
                      71 vd eq_refl) as Ht.
        apply Ht; [|done|done]. by apply blank_app.
      + rewrite !Forall_app. repeat split; [done| |]; by apply blank_unmarked.
    - assert (Hsplit : core ++ pad3 ++ repeat SEMICOLON (S k) ++ pad4
              = (71 :: lit "OOGLE_PLACES_API_KEY" ++ pad1 ++ [EQUALS] ++ pad2 ++ v0)
                ++ vd :: pad3 ++ repeat SEMICOLON (S k) ++ pad4).
      { rewrite Hcore. list_eq. }
      rewrite Hsplit.
      rewrite (cutAt_solid _ SEMICOLON); [|apply semicolonsHere_head| |done|done].
      + rewrite cutAt_here by by apply semicolonsHere_trailer.
        rewrite Hcore.
        by apply (trim_core_left []
                    (lit "OOGLE_PLACES_API_KEY" ++ pad1 ++ [EQUALS] ++ pad2 ++ v0)
                    71 vd).
      + rewrite Hcore in Hfree.
        change (71 :: (lit "OOGLE_PLACES_API_KEY" ++ pad1 ++ [EQUALS] ++ pad2 ++ v0)
                ++ [vd])
          with ((71 :: lit "OOGLE_PLACES_API_KEY" ++ pad1 ++ [EQUALS] ++ pad2 ++ v0)
                ++ [vd]) in Hfree.
        by apply Forall_app in Hfree as [Hfree _]. }
  unfold apiKeyLine. rewrite Htrimmed. unfold core.
  rewrite startsWith_app.
  assert (Hafter : afterChar EQUALS
                     (GOOGLE_PLACES_API_KEY ++ pad1 ++ [EQUALS] ++ pad2 ++ value)
                   = Some (pad2 ++ value)).
  { rewrite app_assoc. apply afterChar_app. rewrite Forall_app. split.
    - by apply unmarked_check.
    - by apply blank_unmarked. }
  rewrite Hafter.
  assert (Htrim : trim (pad2 ++ value) = value).
  { by apply (trim_pad_solid pad2 value vs v0 vc vd). }
  rewrite Htrim. rewrite <- (app_nil_r value) at 1.
  by apply (valueOf_plain value 0).
Qed.

Lemma firstValue_trimmed (ofLine : str -> option str) (lines : list str) :
  (forall l v, ofLine l = Some v -> trim v = v) ->
  trim (firstValue ofLine lines) = firstValue ofLine lines.
Proof.
  intros H. induction lines as [|l lines IH]; [done|]. simpl.
  destruct (ofLine l) as [v|] eqn:E; [by apply (H l)|done].
Qed.

Lemma valueOf_trimmed (s v : str) : valueOf s = Some v -> trim v = v.
Proof.
  unfold valueOf. destruct (unquote _); [done|].
  intros [= <-]. apply trim_idem.
Qed.

(** X18.  The two key readers never return a key with white space around
    it, wherever the key comes from: the value of the environment is
    trimmed, and so is the value taken from a line of the file. *)
Theorem key_readers_return_trimmed (processEnv : gmap str str)
    (envFile : option str) (name : str) :
  trim (getEnvKey processEnv envFile name) = getEnvKey processEnv envFile name /\
  trim (getApiKey processEnv envFile) = getApiKey processEnv envFile.
Proof.
  split.
  - unfold getEnvKey.
    destruct (processEnv !! name) as [[|c val]|]; try apply trim_idem;
      (destruct envFile as [env|]; [|done]); apply firstValue_trimmed;
      intros l v; unfold envKeyLine; destruct (startsWith _ _); try done;
      apply valueOf_trimmed.
  - unfold getApiKey.
    destruct (processEnv !! GOOGLE_PLACES_API_KEY) as [[|c val]|];
      try apply trim_idem;
      (destruct envFile as [env|]; [|done]); apply firstValue_trimmed;
      intros l v; unfold apiKeyLine; destruct (startsWith _ _); try done;
      destruct (afterChar _ _); try done; apply valueOf_trimmed.
Qed.

Lemma all_blank (pads : list str) (pad : str) :
  forallb blank pads = true -> pad ∈ pads -> blank pad = true.
Proof.
  rewrite forallb_forall. intros H Hp. apply H. by apply list_elem_of_In.
Qed.

(** X19.  The reader of [categorize-bars-by-mood.js] finds a key written
    in [.env] in the usual way.  When the environment does not set the
    name, and the first line that starts with the name, its comment and
    the white space around it apart, assigns a plain value to it, with
    or without white space around the equals sign, semicolons after the
    value and a comment at the end of the line, the reader returns that
    value. *)
Theorem getEnvKey_reads_assignment (processEnv : gmap str str) (env : str)
    (pre post : list str) (pad0 name pad1 pad2 value : str) (k : nat)
    (pad3 comment : str) :
  truthy (processEnv !! name) = false ->
  keyText name = true -> keyText value = true ->
  forallb blank [pad0; pad1; pad2; pad3] = true ->
  isComment comment = true ->
  Csv.splitLines env
  = pre ++ envAssignment pad0 name pad1 pad2 value k pad3 comment :: post ->
  forallb (fun l => negb (startsWith (trim (stripComment l)) name)) pre = true ->
  getEnvKey processEnv (Some env) name = value.
Proof.
  intros Henv Hn Hv Hpads Hcm Hlines Hpre. unfold getEnvKey.
  assert (Hfile : firstValue (envKeyLine name) (Csv.splitLines env) = value).
  { rewrite Hlines. rewrite firstValue_skip.
    - simpl. rewrite envKeyLine_assignment; try done;
        apply (all_blank _ _ Hpads); set_solver.
    - apply Forall_forall. intros l Hl. rewrite forallb_forall in Hpre.
      apply list_elem_of_In, Hpre, negb_true_iff in Hl.
      unfold envKeyLine. by rewrite Hl. }
  destruct (processEnv !! name) as [[|c val]|]; done.
Qed.

Lemma getEnvKey_reads_assignment_witness :
  getEnvKey ∅
    (Some (lit "# keys of the project" ++ [LF]
           ++ lit "GOOGLE_PLACES_API_KEY=AIza-1" ++ [CR; LF]
           ++ lit " OPENAI_API_KEY = sk-abc;  # mine" ++ [LF]
           ++ lit "OPENAI_API_KEY=other"))
    (lit "OPENAI_API_KEY")
  = lit "sk-abc".
Proof.
  apply (getEnvKey_reads_assignment ∅ _
           [lit "# keys of the project"; lit "GOOGLE_PLACES_API_KEY=AIza-1"]
           [lit "OPENAI_API_KEY=other"]
           (lit " ") (lit "OPENAI_API_KEY") (lit " ") (lit " ") (lit "sk-abc")
           1 (lit "  ") (lit "# mine")).
  - vm_compute. reflexivity.
  - reflexivity.
  - reflexivity.
  - reflexivity.
  - reflexivity.
  - reflexivity.
  - reflexivity.
Defined.

(** X20.  The reader of [update-bars-from-google-places.js] finds the key
    written in [.env] in the usual way.  When the environment does not
    set it, and the first line that starts with the name of the key, the
    white space and the semicolons around it apart, assigns a plain value
    to it, with or without white space around the equals sign and
    semicolons at the end of the line, the reader returns that value. *)
Theorem getApiKey_reads_assignment (processEnv : gmap str str) (env : str)
    (pre post : list str) (pad0 pad1 pad2 value pad3 : str) (k : nat)
    (pad4 : str) :
  truthy (processEnv !! GOOGLE_PLACES_API_KEY) = false ->
  keyText value = true ->
  forallb blank [pad0; pad1; pad2; pad3; pad4] = true ->
  Csv.splitLines env
  = pre ++ apiAssignment pad0 pad1 pad2 value pad3 k pad4 :: post ->
  forallb (fun l => negb (startsWith (trim (stripSemicolons (trimStart l)))
                            GOOGLE_PLACES_API_KEY)) pre = true ->
  getApiKey processEnv (Some env) = value.
Proof.
  intros Henv Hv Hpads Hlines Hpre. unfold getApiKey.
  assert (Hfile : firstValue apiKeyLine (Csv.splitLines env) = value).
  { rewrite Hlines. rewrite firstValue_skip.
    - simpl. rewrite apiKeyLine_assignment; try done;
        apply (all_blank _ _ Hpads); set_solver.
    - apply Forall_forall. intros l Hl. rewrite forallb_forall in Hpre.
      apply list_elem_of_In, Hpre, negb_true_iff in Hl.
      unfold apiKeyLine. by rewrite Hl. }
  destruct (processEnv !! GOOGLE_PLACES_API_KEY) as [[|c val]|]; done.
Qed.

Lemma getApiKey_reads_assignment_witness :
  getApiKey ∅
    (Some (lit "OPENAI_API_KEY=sk-abc" ++ [LF]
           ++ lit "  GOOGLE_PLACES_API_KEY = AIza-1 ;; "))
  = lit "AIza-1".
Proof.
  apply (getApiKey_reads_assignment ∅ _
           [lit "OPENAI_API_KEY=sk-abc"] []
           (lit "  ") (lit " ") (lit " ") (lit "AIza-1") (lit " ") 2 (lit " ")).
  - vm_compute. reflexivity.
  - reflexivity.
  - reflexivity.
  - reflexivity.
  - reflexivity.
Defined.

Lemma takeWhile_all (f : char -> bool) (s : str) :
  Forall (fun c => f c = true) (takeWhile f s).
Proof.
  induction s as [|c s IH]; simpl; [done|].
  destruct (f c) eqn:E; [by constructor | done].
Qed.

Lemma search_all (after : str -> option str) (P : str -> Prop) (text tok : str) :
  (forall s t, after s = Some t -> P t) ->
  search after text = Some tok -> P tok.
Proof.
  intros Hafter. induction text as [|c text IH]; cbn [search].
  - destruct (startsWith [] MAPBOX_TOKEN); [|done].
    destruct (after _) eqn:E; [|done]. intros [= <-]. by eapply Hafter.
  - destruct (startsWith (c :: text) MAPBOX_TOKEN); [|exact IH].
    destruct (after _) eqn:E; [|exact IH]. intros [= <-]. by eapply Hafter.
Qed.

Lemma envTokenAfter_clean (s tok : str) :
  envTokenAfter s = Some tok ->
  tok <> [] /\ Forall (fun c => tokenChar c = true) tok.
Proof.
  unfold envTokenAfter. destruct (trimStart s) as [|c rest]; [done|].
  destruct (c =? EQUALS); [|done].
  match goal with
  | |- context [takeWhile tokenChar ?r] =>
      pose proof (takeWhile_all tokenChar r) as H;
      destruct (takeWhile tokenChar r); [done|]
  end.
  by intros [= <-].
Qed.

Lemma configTokenAfter_clean (s tok : str) :
  configTokenAfter s = Some tok ->
  tok <> [] /\ Forall (fun c => isQuoteChar c = false) tok.
Proof.
  unfold configTokenAfter. destruct (trimStart s) as [|c rest]; [done|].
  destruct (c =? EQUALS); [|done].
  destruct (trimStart rest) as [|q r']; [done|].
  destruct (isQuoteChar q); [|done].
  pose proof (takeWhile_all (fun d => negb (isQuoteChar d)) r') as H.
  destruct (takeWhile _ r') as [|a tok'] eqn:E; [done|].
  destruct (drop _ r'); [done|]. intros [= <-]. split; [done|].
  eapply Forall_impl; [exact H|]. intros d Hd. by apply negb_true_iff.
Qed.

(** X21.  A token that [getToken] takes from a file is clean.  The token
    taken from [.env] is not empty and holds neither a quote nor white
    space; when [.env] gives none, the token taken from [env-config.js] is
    not empty and holds no quote.  The files come before the environment:
    what the environment holds is returned, as it is, only when neither
    file gives a token. *)
Theorem getToken_from_files_is_clean (envFile configFile : option str)
    (processEnv : gmap str str) :
  match envFile ≫= search envTokenAfter,
        configFile ≫= search configTokenAfter with
  | Some tok, _ =>
      getToken envFile configFile processEnv = tok /\ tok <> [] /\
      Forall (fun c => isQuoteChar c = false /\ isWhiteSpace c = false) tok
  | None, Some tok =>
      getToken envFile configFile processEnv = tok /\ tok <> [] /\
      Forall (fun c => isQuoteChar c = false) tok
  | None, None =>
      getToken envFile configFile processEnv
      = default [] (processEnv !! MAPBOX_TOKEN)
  end.
Proof.
  unfold getToken.
  destruct (envFile ≫= search envTokenAfter) as [tok|] eqn:Henv.
  - split; [done|]. destruct envFile as [env|]; [|done]. simpl in Henv.
    apply (search_all _ (fun t => t <> [] /\ Forall (fun c => tokenChar c = true) t))
      in Henv as [Hne Hall]; [|apply envTokenAfter_clean].
    split; [done|]. eapply Forall_impl; [exact Hall|].
    intros c Hc. unfold tokenChar in Hc.
    by apply andb_true_iff in Hc as [?%negb_true_iff ?%negb_true_iff].
  - destruct (configFile ≫= search configTokenAfter) as [tok|] eqn:Hcfg.
    + split; [done|]. destruct configFile as [cfg|]; [|done]. simpl in Hcfg.
      by apply (search_all _ (fun t => t <> [] /\ Forall (fun c => isQuoteChar c = false) t))
        in Hcfg; [|apply configTokenAfter_clean].
    + by destruct (processEnv !! MAPBOX_TOKEN).
Qed.

End Readers.

(** ** The review text, and the text fields of the records written *)

Section OutputMore.
Import JS Model RunSpec MoreSpec ReviewText.

Lemma length_join (sep : str) (parts : list str) (n : nat) :
  Forall (fun p => (length p <= n)%nat) parts ->
  (length (join sep parts) + length sep <= length parts * (n + length sep)
   \/ parts = [])%nat.
Proof.
  induction 1 as [|p parts Hp Hparts IH]; [by right|]. left.
  destruct parts as [|q parts].
  - simpl. lia.
  - destruct IH as [IH|IH]; [|done].
    change (join sep (p :: q :: parts)) with (p ++ sep ++ join sep (q :: parts)).
    rewrite !length_app. simpl in *. lia.
Qed.

(** X22.  The review text given to the model is bounded, whatever the
    Places service returns: at most five reviews are kept, each of them
    trimmed and not empty, and the text built from them, at most 400 code
    units of each and a separator of five between two, has at most 2020
    code units. *)
Theorem review_text_is_bounded (reviews : option (list (option str))) :
  (length (reviewsOf reviews) <= 5)%nat /\
  Forall (fun t => t <> [] /\ trim t = t) (reviewsOf reviews) /\
  (length (reviewsText (reviewsOf reviews)) <= 2020)%nat.
Proof.
  assert (Hlen : (length (reviewsOf reviews) <= 5)%nat).
  { unfold reviewsOf. etransitivity; [apply length_filter|].
    rewrite length_map, length_take. lia. }
  split; [done|]. split.
  - unfold reviewsOf. apply Forall_forall. intros t Ht.
    apply list_elem_of_filter in Ht as [Hne Ht].
    apply list_elem_of_fmap in Ht as (r & -> & _).
    split; [by destruct (trim (orEmpty r))|]. apply trim_idem.
  - unfold reviewsText.
    destruct (length_join SEPARATOR (map (take 400) (reviewsOf reviews)) 400)
      as [H|H].
    + apply Forall_forall. intros p Hp.
      apply list_elem_of_fmap in Hp as (t & -> & _). rewrite length_take. lia.
    + rewrite length_map in H. change (length SEPARATOR) with 5%nat in H. lia.
    + rewrite H. simpl. lia.
Qed.

Lemma filled_orNull (s : str) : filled (orNull s).
Proof. by destruct s. Qed.

Lemma filled_or (a b : option str) : filled b -> filled (or_ a b).
Proof. unfold or_. by destruct a as [[|c s]|]. Qed.

Lemma filled_truthy (a : option str) : filled (if truthy a then a else None).
Proof. by destruct a as [[|c s]|]. Qed.

Lemma photon_loop_noEmptyText (remote : GeocodePhoton.Remote)
    (rows : list Row) (st : GeocodePhoton.state) (i : nat) :
  Forall noEmptyText (GeocodePhoton.bars st) ->
  Forall noEmptyText (GeocodePhoton.bars (GeocodePhoton.loop remote st i rows)).
Proof.
  revert st i. induction rows as [|row rows IH]; intros st i Hst; [done|].
  simpl. apply IH. unfold GeocodePhoton.step.
  destruct (GeocodePhoton.lookup_row _ _ _ _) as [[[cache t] la] ln].
  cbn [GeocodePhoton.bars]. apply Forall_app. split; [done|].
  constructor; [|done]. repeat split; cbn; try done.
  - apply filled_or, filled_orNull.
  - apply filled_orNull.
Qed.

Lemma mapbox_loop_noEmptyText (remote : GeocodeMapbox.Remote) (token : str)
    (rows : list Row) (st : GeocodeMapbox.state) (i : nat) :
  Forall noEmptyText (GeocodeMapbox.bars st) ->
  Forall noEmptyText
    (GeocodeMapbox.bars (GeocodeMapbox.loop remote token st i rows)).
Proof.
  revert st i. induction rows as [|row rows IH]; intros st i Hst; [done|].
  simpl. apply IH. unfold GeocodeMapbox.step.
  destruct (if GeocodeMapbox.needsGeocoding _ _ _ then _ else _) as [[t la] ln].
  cbn [GeocodeMapbox.bars]. apply Forall_app. split; [done|].
  constructor; [|done]. repeat split; cbn; try done. apply filled_orNull.
Qed.

Lemma mapbox_loop_written (remote : GeocodeMapbox.Remote) (token : str)
    (rows : list Row) (st : GeocodeMapbox.state) (i : nat) :
  written (GeocodeMapbox.events (GeocodeMapbox.loop remote token st i rows))
  = written (GeocodeMapbox.events st).
Proof.
  revert st i. induction rows as [|row rows IH]; intros st i; [done|].
  simpl. rewrite IH. unfold GeocodeMapbox.step, GeocodeMapbox.geocode.
  destruct (GeocodeMapbox.needsGeocoding _ _ _);
    [destruct (negb _ || negb _ || eqb _ _);
       [|destruct (remote _ _)]|];
    cbn [GeocodeMapbox.events];
    destruct ((i + 1) mod 10 =? 0)%nat;
    by rewrite ?written_snoc_quiet.
Qed.

Lemma places_loop_noEmptyText (remote : Places.Remote) (rows : list Row)
    (st : Places.state) (i : nat) :
  Forall noEmptyText (Places.bars st) ->
  Forall noEmptyText (Places.bars (Places.loop remote st i rows)).
Proof.
  revert st i. induction rows as [|row rows IH]; intros st i Hst; [done|].
  simpl. apply IH. unfold Places.step.
  destruct (Places.findPlace _ _ _ _) as [[[place failed'] reported'] t].
  assert (Hphoto : filled (Places.fetchDetails remote place t).1.1).
  { unfold Places.fetchDetails.
    destruct (place ≫= Places.p_place_id) as [[|c s]|]; try done.
    destruct (Places.getPlaceDetails _ _ _); try done.
    cbn [fst]. by apply filled_or. }
  destruct (Places.fetchDetails remote place t) as [[photo rating] t'].
  cbn [fst] in Hphoto.
  cbn [Places.bars]. apply Forall_app. split; [done|].
  constructor; [|done]. repeat split; cbn.
  - apply filled_or. unfold Places.outAddress_of. apply filled_or, filled_orNull.
  - apply filled_truthy.
  - by apply filled_or.
  - done.
Qed.

(** X23.  The three scripts that write bar records never write an empty
    text for an optional field: in every record written, the location,
    the correct address, the place id and the photo reference are absent
    or hold a text that is not empty. *)
Theorem written_text_fields_are_not_empty (wp : GeocodePhoton.World)
    (wm : GeocodeMapbox.World) (wg : Places.World) :
  writesOnly noEmptyText (GeocodePhoton.main wp) /\
  writesOnly noEmptyText (GeocodeMapbox.main wm) /\
  writesOnly noEmptyText (Places.main wg).
Proof.
  unfold writesOnly. repeat split.
  - unfold GeocodePhoton.main.
    assert (Hrun : forall text src,
      Forall (fun pr => Forall noEmptyText pr.2)
             (written (trace (GeocodePhoton.run wp text src)))).
    { intros text [|rows]; [by cbn|]. unfold GeocodePhoton.run. cbn [trace].
      destruct (photon_loop_bars (GeocodePhoton.remote wp) rows
                  (GeocodePhoton.initial text) 0) as [_ Hw].
      rewrite written_app, Hw. repeat constructor.
      by apply photon_loop_noEmptyText. }
    destruct (isJsonPath _ && _); [apply Hrun|].
    destruct (negb _ && _); [apply Hrun | by cbn].
  - unfold GeocodeMapbox.main.
    destruct (negb _); [by cbn|].
    destruct (GeocodeMapbox.input wm) as [[|rows]|]; try by cbn.
    cbn [trace].
    pose proof (mapbox_loop_written (GeocodeMapbox.remote wm)
                  (GeocodeMapbox.token wm) rows
                  {| GeocodeMapbox.bars := [];
                     GeocodeMapbox.events := [Console Info "Rows from CSV:" None] |}
                  0) as Hw.
    rewrite written_app, Hw. repeat constructor.
    by apply mapbox_loop_noEmptyText.
  - unfold Places.main. destruct (negb _); [by cbn|].
    assert (Hrun : forall text src,
      Forall (fun pr => Forall noEmptyText pr.2)
             (written (trace (Places.run wg text src)))).
    { intros text [|rows]; [by cbn|]. unfold Places.run. cbn [trace].
      destruct (places_loop_bars (Places.remote wg) rows
                  (Places.initial text) 0) as [_ Hw].
      rewrite written_app, Hw.
      repeat constructor; by apply places_loop_noEmptyText. }
    destruct (isJsonPath _ && _); [apply Hrun|].
    destruct (negb _ && _); [apply Hrun | by cbn].
Qed.

Lemma deriveVibes_tagged (row : Row) (rating : option number) :
  Places.deriveVibes row rating <> [] /\
  NoDup (Places.deriveVibes row rating) /\
  forall x, x ∈ Places.deriveVibes row rating ->
            x ∈ [lit "party"; lit "girls-night"; lit "dating"; lit "chill"].
Proof.
  rewrite deriveVibes_table. split; [|split; [apply ruleTable_NoDup|]];
    destruct (Places.danceIsYes row), (Places.highRating rating);
    cbn; try done; intros x; rewrite !elem_of_cons; tauto.
Qed.

Lemma places_loop_tagged (remote : Places.Remote) (rows : list Row)
    (st : Places.state) (i : nat) :
  Forall tagged (Places.bars st) ->
  Forall tagged (Places.bars (Places.loop remote st i rows)).
Proof.
  revert st i. induction rows as [|row rows IH]; intros st i Hst; [done|].
  simpl. apply IH. unfold Places.step.
  destruct (Places.findPlace _ _ _ _) as [[[place failed'] reported'] t].
  destruct (Places.fetchDetails remote place t) as [[photo rating] t'].
  cbn [Places.bars]. apply Forall_app. split; [done|].
  constructor; [|done]. eexists. split; [reflexivity|].
  apply deriveVibes_tagged.
Qed.

(** X24.  Every record the Places script writes is tagged: its vibes are
    a list that is not empty and has no duplicates, of the tags party,
    girls-night, dating and chill, whatever the row and the service
    say. *)
Theorem places_records_are_tagged (w : Places.World) :
  writesOnly tagged (Places.main w).
Proof.
  unfold writesOnly, Places.main. destruct (negb _); [by cbn|].
  assert (Hrun : forall text src,
    Forall (fun pr => Forall tagged pr.2)
           (written (trace (Places.run w text src)))).
  { intros text [|rows]; [by cbn|]. unfold Places.run. cbn [trace].
    destruct (places_loop_bars (Places.remote w) rows
                (Places.initial text) 0) as [_ Hw].
    rewrite written_app, Hw.
    repeat constructor; by apply places_loop_tagged. }
  destruct (isJsonPath _ && _); [apply Hrun|].
  destruct (negb _ && _); [apply Hrun | by cbn].
Qed.

End OutputMore.

(** ** Failures of single records and their log lines *)

Section Failures.
Import JS Model ResolverSpec MemoSpec RunSpec MoreSpec.












(** Nor is an error of the Photon lookup logged once the cache holds an
    address: the second of two lookups fails, without a line. *)
Lemma photon_error_not_logged_after_first :
  lookups failsAfterFirst []
    (trace (GeocodePhoton.main
              (worldOf failsAfterFirst [hornsgatan None None; kvarnen])))
  = [(lit "Hornsgatan 66", true);
     (GeocodePhoton.addressKey (Some (GeocodePhoton.location_of kvarnen)), false)] /\
  filter (fun e => isFailureLog e = true)
    (trace (GeocodePhoton.main
              (worldOf failsAfterFirst [hornsgatan None None; kvarnen])))
  = [].
Proof. split; vm_compute; reflexivity. Qed.


(** While the cache is empty every error of the Photon lookup is logged:
    two lookups that fail give two lines. *)
Lemma photon_errors_logged_until_first_success :
  lookups (fun _ _ => GeocodePhoton.FetchFails) []
    (trace (GeocodePhoton.main
              (worldOf (fun _ _ => GeocodePhoton.FetchFails)
                 [hornsgatan None None; kvarnen])))
  = [(lit "Hornsgatan 66", false);
     (GeocodePhoton.addressKey (Some (GeocodePhoton.location_of kvarnen)), false)] /\
  filter (fun e => isFailureLog e = true)
    (trace (GeocodePhoton.main
              (worldOf (fun _ _ => GeocodePhoton.FetchFails)
                 [hornsgatan None None; kvarnen])))
  = [Console Error "Geocode error:" None; Console Error "Geocode error:" None].
Proof. split; vm_compute; reflexivity. Qed.

End Failures.
